(** * go-perun: channel state machine, update protocol, responders,
      receiver and channel-update wire messages.

    A shallow embedding of
      - channel/machine.go        (module [channel]),
      - peer receiver             (module [peer]),
      - client update / proposal responders, [Channel.Update] and the
        channel-update wire messages (module [client]),
      - the wallet backend's signature decoder (module [backend]),
      - pkg/io's serialization interfaces (module [perunio]),
    and, beyond these,
      - subscriptions, [newMachine] and runs of operations of the machine
        (module [automaton]),
      - pkg/sync's mutex (module [perunsync]),
      - [getPeers], the channel connection and the exchange of the initial
        signatures (module [conn]),
      - the handling of a channel proposal (module [proposal]),
      - the Ethereum backend's [VerifySignature] (module [ethereum]),
      - [transferBal] of the test roles (module [roles]),
      - sequences of [Put] and [Next] on a receiver (module [mailbox]),
      - pkg/io's [Encode] and [Decode] of several objects (module [serial]).

    Go values are modelled as follows.  A slice is a [list]; a nil slice of
    bytes used as an optional value ([wallet.Sig]) is [None]; a pointer that
    may be nil ([*State] inside a [Transaction]) is an [option]; [error] is
    [option error] with [None] for nil.  A method with a pointer receiver is
    a function from the receiver's state to an [outcome] that carries the
    receiver's state after the call.  A run-time panic is the outcome
    [Panics]. *)

From Stdlib Require Import ZArith NArith List String Bool Lia.
From stdpp Require Import base list gmap.

Set Default Proof Using "Type".

#[global] Instance byte_eq_dec : EqDecision Byte.byte := Byte.byte_eq_dec.

(** ** Package wallet *)
Module wallet.

(** [type Sig = []byte]; the nil slice is [None]. *)
Abbreviation Sig := (option (list Byte.byte)) (only parsing).

(** An address is an opaque byte string. *)
Abbreviation Address := (list Byte.byte) (only parsing).

(** An account owns an address and a secret key. *)
Record Account : Type := { Address_of : Address; secret : list Byte.byte }.

End wallet.

(** ** Package channel *)
Module channel.

(** [type Index = uint16].  The machine only ever uses an index to
    subscript a slice, so it is kept as a [nat]; the one conversion from a
    length, in the method [N], has its truncation written out. *)
Abbreviation Index := nat (only parsing).

Abbreviation ID := (list Byte.byte) (only parsing).

Inductive Phase : Type :=
| InitActing | InitSigning | Funding | Acting | Signing | Final | Settled.

#[global] Instance Phase_eq_dec : EqDecision Phase.
Proof. solve_decision. Defined.

Record PhaseTransition : Type := { TFrom : Phase; TTo : Phase }.

#[global] Instance PhaseTransition_eq_dec : EqDecision PhaseTransition.
Proof. solve_decision. Defined.

Definition signingPhases : list Phase := [InitSigning; Signing].

(** *** Data model *)

Abbreviation Bal := Z (only parsing).
Abbreviation Asset := (list Byte.byte) (only parsing).

Record SubAlloc : Type := { SubID : ID; Bals : list Bal }.

Record Allocation : Type :=
  { Assets : list Asset; OfParts : list (list Bal); Locked : list SubAlloc }.

(** The only thing the machine asks of an [App] is its definition. *)
Record App : Type := { Def : wallet.Address }.

Record Params : Type :=
  { id : ID;
    ChallengeDuration : N;
    Parts : list wallet.Address;
    PApp : App;
    Nonce : Z }.

Record State : Type :=
  { SID : ID;
    Version : N;              (* uint64 *)
    SApp : App;
    SAllocation : Allocation;
    Data : list Byte.byte;
    IsFinal : bool }.

(** [Transaction] embeds a [*State]; its zero value has a nil state and a
    nil signature slice. *)
Record Transaction : Type :=
  { TState : option State; Sigs : list wallet.Sig }.

Definition Transaction_zero : Transaction := {| TState := None; Sigs := [] |}.

(** *** Errors *)

Inductive error : Type :=
| New (msg : string)
| PhaseTransitionError (cid : ID) (current : Phase) (tr : PhaseTransition) (msg : string)
| StateTransitionError (cid : ID) (msg : string)
| WithMessage (err : error) (msg : string)
| Foreign (what : string).

(** [errors.Cause] *)
Fixpoint Cause (e : error) : error :=
  match e with
  | WithMessage e' _ => Cause e'
  | _ => e
  end.

(** *** The machine *)

(** A subscriber is the go-channel it listens on, named by a number. *)
Abbreviation SubChan := nat (only parsing).

Record machine : Type :=
  { phase : Phase;
    acc : wallet.Account;
    idx : Index;
    params : Params;
    stagingTX : Transaction;
    currentTX : Transaction;
    prevTXs : list Transaction;
    subs : Phase -> list (string * SubChan) }.

(** What an operation leaves behind: the value it returns, the machine
    after the call and the notifications it delivered to subscribers; or a
    panic, with the machine as it was when the panic was raised. *)
Inductive outcome (A : Type) : Type :=
| Returns (ret : A) (m' : machine) (sent : list (SubChan * PhaseTransition))
| Panics (m' : machine).
Arguments Returns {A} ret m' sent.
Arguments Panics {A} m'.

Definition machine_after {A} (o : outcome A) : machine :=
  match o with Returns _ m' _ => m' | Panics m' => m' end.

Definition with_phase (p : Phase) (m : machine) : machine :=
  {| phase := p; acc := acc m; idx := idx m; params := params m;
     stagingTX := stagingTX m; currentTX := currentTX m;
     prevTXs := prevTXs m; subs := subs m |}.

Definition with_stagingTX (tx : Transaction) (m : machine) : machine :=
  {| phase := phase m; acc := acc m; idx := idx m; params := params m;
     stagingTX := tx; currentTX := currentTX m;
     prevTXs := prevTXs m; subs := subs m |}.

Definition with_sig (i : Index) (sig : wallet.Sig) (m : machine) : machine :=
  with_stagingTX {| TState := TState (stagingTX m);
                    Sigs := <[i := sig]> (Sigs (stagingTX m)) |} m.

(** [Params.ID] returns the stored id. *)
Definition Params_ID (p : Params) : ID := id p.

Definition ID_of (m : machine) : ID := Params_ID (params m).

(** [N] converts [len(m.params.Parts)] to [Index]. *)
Definition N_of (m : machine) : Index :=
  N.to_nat (N.of_nat (length (Parts (params m))) mod 2 ^ 16).

(** [notifySubs]: one [{from, m.phase}] per subscriber of the phase the
    machine is in now. *)
Definition notifySubs (from : Phase) (m : machine) : list (SubChan * PhaseTransition) :=
  map (fun ws => (snd ws, {| TFrom := from; TTo := phase m |})) (subs m (phase m)).

Definition setPhase (p : Phase) (m : machine) : machine * list (SubChan * PhaseTransition) :=
  let oldPhase := phase m in
  let m' := with_phase p m in
  (m', notifySubs oldPhase m').

Fixpoint inPhase (ph : Phase) (phases : list Phase) : bool :=
  match phases with
  | [] => false
  | p :: rest => if decide (p = ph) then true else inPhase ph rest
  end.

Definition selfTransition (m : machine) : PhaseTransition :=
  {| TFrom := phase m; TTo := phase m |}.

(** [m.error] and [m.errorf]: the message of [errorf] is kept as its
    format string. *)
Definition machine_error (m : machine) (expected : PhaseTransition) (msg : string) : error :=
  PhaseTransitionError (ID_of m) (phase m) expected msg.

(** The map literal [validPhaseTransitions]; a key that is absent reads
    as [false]. *)
Definition validPhaseTransitions_entries : list (PhaseTransition * bool) :=
  [ ({| TFrom := InitActing;  TTo := InitSigning |}, true);
    ({| TFrom := InitSigning; TTo := Funding |},     true);
    ({| TFrom := Funding;     TTo := Acting |},      true);
    ({| TFrom := Acting;      TTo := Signing |},     true);
    ({| TFrom := Signing;     TTo := Acting |},      true);
    ({| TFrom := Signing;     TTo := Final |},       true);
    ({| TFrom := Final;       TTo := Settled |},     true) ].

Fixpoint map_get (es : list (PhaseTransition * bool)) (k : PhaseTransition) : bool :=
  match es with
  | [] => false
  | (k', v) :: rest => if decide (k' = k) then v else map_get rest k
  end.

Definition validPhaseTransitions (tr : PhaseTransition) : bool :=
  map_get validPhaseTransitions_entries tr.

Definition expect (m : machine) (tr : PhaseTransition) : option error :=
  if decide (phase m = TFrom tr) then
    if validPhaseTransitions {| TFrom := phase m; TTo := TTo tr |} then None
    else Some (machine_error m tr "forbidden phase transition")
  else Some (machine_error m tr "not in correct phase").

(** *** Operations of [machine]

    The signature scheme, address equality and the two allocation checks
    live in other packages; the machine is parametrised by them. *)
Section Machine.

(** [Sign(acc, params, state)] and [Verify(addr, params, state, sig)]. *)
Variable Sign : wallet.Account -> Params -> option State -> wallet.Sig * option error.
Variable Verify : wallet.Address -> Params -> option State -> wallet.Sig -> bool * option error.
(** [Address.Equals] *)
Variable Equals : wallet.Address -> wallet.Address -> bool.
(** [Allocation.Valid] and [equalSum] *)
Variable Valid : Allocation -> option error.
Variable equalSum : Allocation -> Allocation -> bool * option error.

Definition Sig (m : machine) : outcome (wallet.Sig * option error) :=
  if negb (inPhase (phase m) signingPhases) then
    Returns (None, Some (machine_error m (selfTransition m)
               "can only create own signature in a signing phase")) m []
  else
    match Sigs (stagingTX m) !! idx m with
    | None => Panics m                         (* index out of range *)
    | Some None =>
        let (sig, err) := Sign (acc m) (params m) (TState (stagingTX m)) in
        match err with
        | Some e => Returns (sig, Some e) m []
        | None => Returns (sig, None) (with_sig (idx m) sig m) []
        end
    | Some (Some s) => Returns (Some s, None) m []
    end.

Definition AddSig (i : Index) (sig : wallet.Sig) (m : machine) : outcome (option error) :=
  if negb (inPhase (phase m) signingPhases) then
    Returns (Some (machine_error m (selfTransition m)
               "can only add signature in a signing phase")) m []
  else
    match Sigs (stagingTX m) !! i with
    | None => Panics m                         (* index out of range *)
    | Some (Some _) =>
        Returns (Some (New "signature for idx %d already present (ID: %x)")) m []
    | Some None =>
        match Parts (params m) !! i with
        | None => Panics m                     (* index out of range *)
        | Some part =>
            match Verify part (params m) (TState (stagingTX m)) sig with
            | (_, Some err) => Returns (Some err) m []
            | (false, None) =>
                Returns (Some (New "invalid signature for idx %d (ID: %x)")) m []
            | (true, None) => Returns None (with_sig i sig m) []
            end
        end
    end.

Definition setStaging (ph : Phase) (state : option State) (m : machine)
  : machine * list (SubChan * PhaseTransition) :=
  setPhase ph (with_stagingTX {| TState := state;
                                 Sigs := replicate (N_of m) None |} m).

Definition DiscardUpdate (m : machine) : outcome (option error) :=
  match expect m {| TFrom := Signing; TTo := Acting |} with
  | Some err => Returns (Some err) m []
  | None =>
      let (m', sent) := setPhase Acting (with_stagingTX Transaction_zero m) in
      Returns None m' sent
  end.

(** The loop over [m.stagingTX.Sigs]: the index of the first nil slot. *)
Fixpoint first_missing (i : nat) (sigs : list wallet.Sig) : option nat :=
  match sigs with
  | [] => None
  | None :: _ => Some i
  | Some _ :: rest => first_missing (S i) rest
  end.

(** The three assignments of [enableStaged]. *)
Definition promote (m : machine) : machine :=
  {| phase := phase m; acc := acc m; idx := idx m; params := params m;
     stagingTX := Transaction_zero;
     currentTX := stagingTX m;
     prevTXs := prevTXs m ++ [currentTX m];
     subs := subs m |}.

Definition enableStaged (expected : PhaseTransition) (m : machine) : outcome (option error) :=
  match expect m expected with
  | Some err => Returns (Some (WithMessage err "no staging phase")) m []
  | None =>
      match TState (stagingTX m) with
      | None => Panics m                       (* nil pointer dereference *)
      | Some st =>
          if negb (eqb (bool_decide (TTo expected = Final)) (IsFinal st)) then
            Returns (Some (machine_error m expected
                       "State.IsFinal and target phase don't match")) m []
          else
            match first_missing 0 (Sigs (stagingTX m)) with
            | Some _ =>
                Returns (Some (machine_error m expected
                           "signature %d missing from staging TX")) m []
            | None =>
                let (m', sent) := setPhase (TTo expected) (promote m) in
                Returns None m' sent
            end
      end
  end.

Definition EnableInit : machine -> outcome (option error) :=
  enableStaged {| TFrom := InitSigning; TTo := Funding |}.

Definition EnableUpdate : machine -> outcome (option error) :=
  enableStaged {| TFrom := Signing; TTo := Acting |}.

Definition EnableFinal : machine -> outcome (option error) :=
  enableStaged {| TFrom := Signing; TTo := Final |}.

Definition SetFunded (m : machine) : outcome (option error) :=
  match expect m {| TFrom := Funding; TTo := Acting |} with
  | Some err => Returns (Some err) m []
  | None => let (m', sent) := setPhase Acting m in Returns None m' sent
  end.

Definition SetSettled (m : machine) : outcome (option error) :=
  match expect m {| TFrom := Final; TTo := Settled |} with
  | Some err => Returns (Some err) m []
  | None => let (m', sent) := setPhase Settled m in Returns None m' sent
  end.

(** [uint64] addition *)
Definition add64 (a b : N) : N := ((a + b) mod 2 ^ 64)%N.

Definition validTransition (to : State) (m : machine) : outcome (option error) :=
  if negb (bool_decide (SID to = id (params m))) then
    Returns (Some (New "new state's ID doesn't match")) m []
  else if negb (Equals (Def (PApp (params m))) (Def (SApp to))) then
    Returns (Some (New "new state's App dosen't match")) m []
  else
    let newError := fun s => StateTransitionError (id (params m)) s in
    match TState (currentTX m) with
    | None => Panics m                         (* nil pointer dereference *)
    | Some cur =>
        if eqb (IsFinal cur) true then
          Returns (Some (newError "cannot advance final state"%string)) m []
        else if negb (bool_decide (add64 (Version cur) 1 = Version to)) then
          Returns (Some (newError "version must increase by one"%string)) m []
        else
          match Valid (SAllocation to) with
          | Some _ => Returns (Some (newError "invalid allocation: %v"%string)) m []
          | None =>
              match equalSum (SAllocation cur) (SAllocation to) with
              | (_, Some err) => Returns (Some err) m []
              | (false, None) =>
                  Returns (Some (newError "allocations must be preserved"%string)) m []
              | (true, None) => Returns None m []
              end
          end
    end.

End Machine.

(** *** StateMachine *)
Section StateMachine.

Variable Sign : wallet.Account -> Params -> option State -> wallet.Sig * option error.
Variable Equals : wallet.Address -> wallet.Address -> bool.
Variable Valid : Allocation -> option error.
Variable equalSum : Allocation -> Allocation -> bool * option error.
(** [App.ValidTransition(params, from, to, actorIdx)] *)
Variable AppValidTransition : Params -> option State -> State -> Index -> option error.

(** Modelled from the spec: [StateMachine.Update], which is not among the
    sources.  "Legal only in Acting.  Runs validTransition against
    currentTx.State; stages newState and transitions to Signing"; the
    state machine variant "runs the app check against the new state". *)
Definition Update (stagingState : State) (actor : Index) (m : machine)
  : outcome (option error) :=
  match expect m {| TFrom := Acting; TTo := Signing |} with
  | Some err => Returns (Some err) m []
  | None =>
      match validTransition Equals Valid equalSum stagingState m with
      | Panics m' => Panics m'
      | Returns (Some err) m' _ => Returns (Some err) m' []
      | Returns None m' _ =>
          match AppValidTransition (params m') (TState (currentTX m')) stagingState actor with
          | Some err => Returns (Some err) m' []
          | None =>
              let (m'', sent) := setStaging Signing (Some stagingState) m' in
              Returns None m'' sent
          end
      end
  end.

End StateMachine.

(** *** The operations of [machine], as a type *)

Inductive Op : Type :=
| OpSig
| OpAddSig (i : Index) (sig : wallet.Sig)
| OpEnableInit
| OpEnableUpdate
| OpEnableFinal
| OpDiscardUpdate
| OpSetFunded
| OpSetSettled.

(** The error of a call that returns a value next to it. *)
Definition error_of {A} (o : outcome (A * option error)) : outcome (option error) :=
  match o with
  | Returns (_, err) m' sent => Returns err m' sent
  | Panics m' => Panics m'
  end.

Definition call
  (Sign : wallet.Account -> Params -> option State -> wallet.Sig * option error)
  (Verify : wallet.Address -> Params -> option State -> wallet.Sig -> bool * option error)
  (op : Op) (m : machine) : outcome (option error) :=
  match op with
  | OpSig => error_of (Sig Sign m)
  | OpAddSig i sig => AddSig Verify i sig m
  | OpEnableInit => EnableInit m
  | OpEnableUpdate => EnableUpdate m
  | OpEnableFinal => EnableFinal m
  | OpDiscardUpdate => DiscardUpdate m
  | OpSetFunded => SetFunded m
  | OpSetSettled => SetSettled m
  end.

(** The transition that an operation passes to [expect], [enableStaged]
    or [m.error]. *)
Definition attempted (op : Op) (m : machine) : PhaseTransition :=
  match op with
  | OpSig | OpAddSig _ _ => selfTransition m
  | OpEnableInit => {| TFrom := InitSigning; TTo := Funding |}
  | OpEnableUpdate => {| TFrom := Signing; TTo := Acting |}
  | OpEnableFinal => {| TFrom := Signing; TTo := Final |}
  | OpDiscardUpdate => {| TFrom := Signing; TTo := Acting |}
  | OpSetFunded => {| TFrom := Funding; TTo := Acting |}
  | OpSetSettled => {| TFrom := Final; TTo := Settled |}
  end.

(** The phases in which an operation passes its phase check. *)
Definition legal_in (op : Op) (ph : Phase) : bool :=
  match op with
  | OpSig | OpAddSig _ _ => inPhase ph signingPhases
  | OpEnableInit => bool_decide (ph = InitSigning)
  | OpEnableUpdate | OpEnableFinal | OpDiscardUpdate => bool_decide (ph = Signing)
  | OpSetFunded => bool_decide (ph = Funding)
  | OpSetSettled => bool_decide (ph = Final)
  end.

(** The seven legal transitions. *)
Inductive legal : Phase -> Phase -> Prop :=
| legal_init : legal InitActing InitSigning
| legal_funding : legal InitSigning Funding
| legal_funded : legal Funding Acting
| legal_update : legal Acting Signing
| legal_enable : legal Signing Acting
| legal_final : legal Signing Final
| legal_settled : legal Final Settled.

Definition filled (sigs : list wallet.Sig) : Prop :=
  Forall (fun sig : wallet.Sig => sig <> None) sigs.

(** The six checks of [validTransition] on the current state [cur] and
    the new state [to]. *)
Definition checks
  (Equals : wallet.Address -> wallet.Address -> bool)
  (Valid : Allocation -> option error)
  (equalSum : Allocation -> Allocation -> bool * option error)
  (cur to : State) (m : machine) : Prop :=
  SID to = id (params m) /\
  Equals (Def (PApp (params m))) (Def (SApp to)) = true /\
  IsFinal cur = false /\
  Version to = add64 (Version cur) 1 /\
  Valid (SAllocation to) = None /\
  equalSum (SAllocation cur) (SAllocation to) = (true, None).

(** What it means for [enable] to promote the staging transaction along
    [from -> to]: when it succeeds, when it can be relied on to succeed,
    and that a failure changes nothing. *)
Definition promotes (enable : machine -> outcome (option error)) (from to : Phase)
  (m : machine) : Prop :=
  (forall m' sent, enable m = Returns None m' sent ->
     phase m = from /\ filled (Sigs (stagingTX m)) /\
     (to = Final -> exists st, TState (stagingTX m) = Some st /\ IsFinal st = true) /\
     prevTXs m' = prevTXs m ++ [currentTX m] /\
     currentTX m' = stagingTX m /\
     stagingTX m' = Transaction_zero /\
     phase m' = to /\
     m' = with_phase to (promote m)) /\
  (forall st, phase m = from -> TState (stagingTX m) = Some st ->
     IsFinal st = bool_decide (to = Final) -> filled (Sigs (stagingTX m)) ->
     exists sent, enable m = Returns None (with_phase to (promote m)) sent) /\
  (forall e m' sent, enable m = Returns (Some e) m' sent -> m' = m /\ sent = []) /\
  (forall m', enable m = Panics m' -> m' = m).

End channel.

(** ** Serialization (pkg/io and wire) *)
Module perunio.

Abbreviation stream := (list Byte.byte) (only parsing).

(** The interface [Serializable]: an [Encoder] that writes itself to a
    stream and a [Decoder] that reads an object from the front of one,
    leaving the rest. *)
Class Serializable (A : Type) : Type :=
  { Encode : A -> stream;
    Decode : stream -> channel.error + A * stream }.

(** A serializable type is lawful on the values [wf] when decoding what
    was encoded gives the value back and consumes nothing else. *)
Class Lawful {A : Type} (S : Serializable A) (wf : A -> Prop) : Prop :=
  roundtrip : forall (a : A) (rest : stream),
    wf a -> Decode (Encode a ++ rest) = inr (a, rest).

(** A value is recovered when decoding its encoding, followed by any
    further bytes, gives the value back and leaves exactly those bytes. *)
Definition recovered {A : Type} (S : Serializable A) (a : A) : Prop :=
  forall rest : stream, Decode (Encode a ++ rest) = inr (a, rest).

(** [Decode(reader, values...)] for two values: the objects are decoded
    one after the other, and the first failure is reported with the index
    at which it occurred. *)
Definition Decode2 {A B : Type} `{Serializable A} `{Serializable B} (r : stream)
  : channel.error + (A * B * stream) :=
  match Decode (A := A) r with
  | inl err => inl (channel.WithMessage err "failed to decode %dth object (%T)")
  | inr (a, r1) =>
      match Decode (A := B) r1 with
      | inl err => inl (channel.WithMessage err "failed to decode %dth object (%T)")
      | inr (b, r2) => inr (a, b, r2)
      end
  end.

Definition Decode3 {A B C : Type} `{Serializable A} `{Serializable B} `{Serializable C}
  (r : stream) : channel.error + (A * B * C * stream) :=
  match Decode2 (A := A) (B := B) r with
  | inl err => inl err
  | inr (a, b, r2) =>
      match Decode (A := C) r2 with
      | inl err => inl (channel.WithMessage err "failed to decode %dth object (%T)")
      | inr (c, r3) => inr (a, b, c, r3)
      end
  end.

End perunio.

(** ** The wallet backend's signature decoder *)
Module backend.

(** The Ethereum backend's [SigLen]. *)
Definition ethereum_SigLen : nat := 65.

Section Backend.

(** The length of a signature is fixed by the backend in use. *)
Variable SigLen : nat.

(** Modelled from the spec: the wire format of a byte slice, whose code is
    not among the sources.  "Signatures and addresses have
    backend-defined fixed lengths": the bytes of a signature are written
    as they are, without a length, and decoding fills the slice it is
    given, so it reads as many bytes as that slice is long. *)
Definition ByteSlice_Encode (b : wallet.Sig) : perunio.stream :=
  match b with
  | None => []
  | Some bytes => bytes
  end.

Definition ByteSlice_Decode (len : nat) (r : perunio.stream)
  : channel.error + wallet.Sig * perunio.stream :=
  if decide (length r < len) then inl (channel.Foreign "unexpected EOF")
  else inr (Some (take len r), drop len r).

(** [DecodeSig]: [buf := make(Sig, SigLen)], then decode into [buf]. *)
Definition DecodeSig (r : perunio.stream) : channel.error + wallet.Sig * perunio.stream :=
  ByteSlice_Decode SigLen r.

(** A signature as the backend produces it. *)
Definition wf_Sig (sig : wallet.Sig) : Prop :=
  exists bytes, sig = Some bytes /\ length bytes = SigLen.

End Backend.

End backend.

(** ** Package peer: the receiver *)
Module peer.

(** [receiverBufferSize] controls how many messages can be queued in a
    receiver before blocking. *)
Definition receiverBufferSize : nat := 16.

Section Receiver.

(** A peer is known by its pointer, a message is any [wire.Msg]. *)
Variables Peer Msg : Type.

Record msgTuple : Type := { tuple_Peer : Peer; tuple_Msg : Msg }.

(** A buffered go-channel: what is queued, oldest first, and how much
    it can hold. *)
Record chan : Type := { buf : list msgTuple; cap : nat }.

(** [msgs] are the queued messages; [closed] tells whether the embedded
    [Closer] has been closed, that is whether [Closed()] is readable. *)
Record Receiver : Type := { msgs : chan; closed : bool }.

Definition NewReceiver : Receiver :=
  {| msgs := {| buf := []; cap := receiverBufferSize |}; closed := false |}.

Definition with_buf (q : list msgTuple) (r : Receiver) : Receiver :=
  {| msgs := {| buf := q; cap := cap (msgs r) |}; closed := closed r |}.

(** [Close] of the embedded closer. *)
Definition Close (r : Receiver) : Receiver :=
  {| msgs := msgs r; closed := true |}.

(** The communications of the [select] statements of [Next]. *)
Inductive NextCase : Type := CtxDone | RecvClosed | RecvMsg.

(** The cases of the second [select] that can proceed when the context
    is [done] and the receiver is [r]. *)
Definition ready (done : bool) (r : Receiver) : list NextCase :=
  (if done then [CtxDone] else []) ++
  (if closed r then [RecvClosed] else []) ++
  (match buf (msgs r) with [] => [] | _ :: _ => [RecvMsg] end).

(** What [Next] returns when a case is taken: [None] is [(nil, nil)]. *)
Definition take_case (r : Receiver) (c : NextCase) : option msgTuple * Receiver :=
  match c with
  | CtxDone => (None, r)
  | RecvClosed => (None, r)
  | RecvMsg =>
      match buf (msgs r) with
      | [] => (None, r)
      | tuple :: q => (Some tuple, with_buf q r)
      end
  end.

(** [Next].  The first [select] has a [default] and is decided by the
    context and the receiver as they are on entry, [done1] and [r1].
    The second one blocks until a case can proceed; [done2] and [r2] are
    the context and the receiver when it is decided, and when several
    cases can proceed any of them may be taken.  The result lists every
    return that is possible; the empty list means that [Next] is still
    blocked. *)
Definition Next (done1 : bool) (r1 : Receiver) (done2 : bool) (r2 : Receiver)
  : list (option msgTuple * Receiver) :=
  if done1 then [(None, r1)]
  else if closed r1 then [(None, r1)]
  else map (take_case r2) (ready done2 r2).

(** [Put]: every receiver that may result; the empty list means that
    [Put] is still blocked. *)
Definition Put (p : Peer) (m : Msg) (r : Receiver) : list Receiver :=
  (if decide (length (buf (msgs r)) < cap (msgs r))
   then [with_buf (buf (msgs r) ++ [{| tuple_Peer := p; tuple_Msg := m |}]) r]
   else []) ++
  (if closed r then [r] else []).

(** What can happen while a call of [Next] is under way: the context
    expires, the receiver is closed, or a producer's [Put] completes. *)
Inductive Event : Type :=
| Expires
| Closes
| Arrives (p : Peer) (m : Msg).

(** The context and the receiver after an event; a [Put] that cannot
    complete leaves them as they are. *)
Definition occur (s : bool * Receiver) (e : Event) : bool * Receiver :=
  match e with
  | Expires => (true, snd s)
  | Closes => (fst s, Close (snd s))
  | Arrives p m =>
      match Put p m (snd s) with
      | r' :: _ => (fst s, r')
      | [] => s
      end
  end.

Definition after_events (events : list Event) (done : bool) (r : Receiver)
  : bool * Receiver :=
  fold_left occur events (done, r).

(** [Next] entered with the context [done] and the receiver [r], its
    blocking [select] decided when [events] have happened since. *)
Definition Next_after (events : list Event) (done : bool) (r : Receiver)
  : list (option msgTuple * Receiver) :=
  Next done r (fst (after_events events done r)) (snd (after_events events done r)).

(** Expiry or close is signalled at a moment at which no message is
    queued: on entry, or after some of the events. *)
Definition signalled_while_empty (events : list Event) (done : bool) (r : Receiver)
  : Prop :=
  exists k : nat,
    (fst (after_events (take k events) done r) = true \/
     closed (snd (after_events (take k events) done r)) = true) /\
    buf (msgs (snd (after_events (take k events) done r))) = [].

(** The receivers that there can be: a new one, and what [Close], [Put]
    and [Next] make of them. *)
Inductive reachable : Receiver -> Prop :=
| reach_new : reachable NewReceiver
| reach_close (r : Receiver) : reachable r -> reachable (Close r)
| reach_put (p : Peer) (m : Msg) (r r' : Receiver) :
    reachable r -> In r' (Put p m r) -> reachable r'
| reach_next (done1 done2 : bool) (r1 r2 : Receiver) (res : option msgTuple)
    (r' : Receiver) :
    reachable r1 -> reachable r2 -> In (res, r') (Next done1 r1 done2 r2) ->
    reachable r'.

End Receiver.

Arguments tuple_Peer {Peer Msg} _.
Arguments tuple_Msg {Peer Msg} _.
Arguments buf {Peer Msg} _.
Arguments cap {Peer Msg} _.
Arguments msgs {Peer Msg} _.
Arguments closed {Peer Msg} _.
Arguments with_buf {Peer Msg} q r.
Arguments Close {Peer Msg} r.
Arguments ready {Peer Msg} done r.
Arguments take_case {Peer Msg} r c.
Arguments Next {Peer Msg} done1 r1 done2 r2.
Arguments Put {Peer Msg} p m r.
Arguments Expires {Peer Msg}.
Arguments Closes {Peer Msg}.
Arguments Arrives {Peer Msg} p m.
Arguments occur {Peer Msg} s e.
Arguments after_events {Peer Msg} events done r.
Arguments Next_after {Peer Msg} events done r.
Arguments signalled_while_empty {Peer Msg} events done r.
Arguments reachable {Peer Msg} _.

End peer.

(** ** Package client *)
Module client.

(** *** Channel-update wire messages *)

(** [ChannelUpdate] is a channel update proposal. *)
Record ChannelUpdate : Type :=
  { State : channel.State; ActorIdx : channel.Index }.

Record msgChannelUpdate : Type :=
  { Proposal : ChannelUpdate; UpSig : wallet.Sig }.

Record msgChannelUpdateAcc : Type :=
  { ChannelID : channel.ID; AccVersion : N; AccSig : wallet.Sig }.

Record msgChannelUpdateRej : Type :=
  { Reason : string; Alt : channel.State; RejActorIdx : channel.Index;
    RejSig : wallet.Sig }.

Inductive ChannelMsg : Type :=
| MsgUpdate (m : msgChannelUpdate)
| MsgUpdateAcc (m : msgChannelUpdateAcc)
| MsgUpdateRej (m : msgChannelUpdateRej).

(** The message types [msg.ChannelUpdate], [msg.ChannelUpdateAcc] and
    [msg.ChannelUpdateRej], and [Type] of the three messages. *)
Inductive MsgType : Type :=
| msg_ChannelUpdate
| msg_ChannelUpdateAcc
| msg_ChannelUpdateRej.

Definition ChannelMsg_Type (m : ChannelMsg) : MsgType :=
  match m with
  | MsgUpdate _ => msg_ChannelUpdate
  | MsgUpdateAcc _ => msg_ChannelUpdateAcc
  | MsgUpdateRej _ => msg_ChannelUpdateRej
  end.

(** The signature that a message carries. *)
Definition ChannelMsg_Sig (m : ChannelMsg) : wallet.Sig :=
  match m with
  | MsgUpdate c => UpSig c
  | MsgUpdateAcc c => AccSig c
  | MsgUpdateRej c => RejSig c
  end.

(** A message whose fields other than the signature are values of their
    wire types. *)
Definition wf_fields (wfState : channel.State -> Prop) (wfUint16 : channel.Index -> Prop)
  (wfUint64 : N -> Prop) (wfID : channel.ID -> Prop) (wfString : string -> Prop)
  (m : ChannelMsg) : Prop :=
  match m with
  | MsgUpdate c => wfState (State (Proposal c)) /\ wfUint16 (ActorIdx (Proposal c))
  | MsgUpdateAcc c => wfID (ChannelID c) /\ wfUint64 (AccVersion c)
  | MsgUpdateRej c => wfString (Reason c) /\ wfState (Alt c) /\ wfUint16 (RejActorIdx c)
  end.

Section Wire.

(** The wire format of the fields, and the backend's signature length. *)
Variable SState : perunio.Serializable channel.State.
Variable SUint16 : perunio.Serializable channel.Index.
Variable SUint64 : perunio.Serializable N.
Variable SID : perunio.Serializable channel.ID.
Variable SString : perunio.Serializable string.
Variable SigLen : nat.

Definition msgChannelUpdate_Encode (c : msgChannelUpdate) : perunio.stream :=
  perunio.Encode (State (Proposal c)) ++
  perunio.Encode (ActorIdx (Proposal c)) ++
  backend.ByteSlice_Encode (UpSig c).

Definition msgChannelUpdate_Decode (r : perunio.stream)
  : channel.error + msgChannelUpdate * perunio.stream :=
  match perunio.Decode2 (A := channel.State) (B := channel.Index) r with
  | inl err => inl err
  | inr (st, actor, r') =>
      match backend.DecodeSig SigLen r' with
      | inl err => inl err
      | inr (sig, r'') =>
          inr ({| Proposal := {| State := st; ActorIdx := actor |}; UpSig := sig |}, r'')
      end
  end.

Definition msgChannelUpdateAcc_Encode (c : msgChannelUpdateAcc) : perunio.stream :=
  perunio.Encode (ChannelID c) ++
  perunio.Encode (AccVersion c) ++
  backend.ByteSlice_Encode (AccSig c).

Definition msgChannelUpdateAcc_Decode (r : perunio.stream)
  : channel.error + msgChannelUpdateAcc * perunio.stream :=
  match perunio.Decode2 (A := channel.ID) (B := N) r with
  | inl err => inl err
  | inr (cid, version, r') =>
      match backend.DecodeSig SigLen r' with
      | inl err => inl err
      | inr (sig, r'') =>
          inr ({| ChannelID := cid; AccVersion := version; AccSig := sig |}, r'')
      end
  end.

Definition msgChannelUpdateRej_Encode (c : msgChannelUpdateRej) : perunio.stream :=
  perunio.Encode (Reason c) ++
  perunio.Encode (Alt c) ++
  perunio.Encode (RejActorIdx c) ++
  backend.ByteSlice_Encode (RejSig c).

Definition msgChannelUpdateRej_Decode (r : perunio.stream)
  : channel.error + msgChannelUpdateRej * perunio.stream :=
  match perunio.Decode3 (A := string) (B := channel.State) (C := channel.Index) r with
  | inl err => inl err
  | inr (reason, alt, actor, r') =>
      match backend.DecodeSig SigLen r' with
      | inl err => inl err
      | inr (sig, r'') =>
          inr ({| Reason := reason; Alt := alt; RejActorIdx := actor; RejSig := sig |}, r'')
      end
  end.

Definition ChannelMsg_Encode (m : ChannelMsg) : perunio.stream :=
  match m with
  | MsgUpdate c => msgChannelUpdate_Encode c
  | MsgUpdateAcc c => msgChannelUpdateAcc_Encode c
  | MsgUpdateRej c => msgChannelUpdateRej_Encode c
  end.

(** The decoders that [init] registers, each under the type of its
    message: a decoder is given the reader only, makes a message of its
    type and decodes into it. *)
Definition ChannelMsg_Decode (t : MsgType) (r : perunio.stream)
  : channel.error + ChannelMsg * perunio.stream :=
  match t with
  | msg_ChannelUpdate =>
      match msgChannelUpdate_Decode r with
      | inl err => inl err | inr (c, r') => inr (MsgUpdate c, r') end
  | msg_ChannelUpdateAcc =>
      match msgChannelUpdateAcc_Decode r with
      | inl err => inl err | inr (c, r') => inr (MsgUpdateAcc c, r') end
  | msg_ChannelUpdateRej =>
      match msgChannelUpdateRej_Decode r with
      | inl err => inl err | inr (c, r') => inr (MsgUpdateRej c, r') end
  end.

End Wire.

(** *** The channel controller: [Channel.Update] *)

(** What a call does to the world outside of the machine: it locks and
    unlocks the machine's mutex, hands a message to the channel
    connection, takes one from it, or notifies a phase subscriber. *)
Inductive event : Type :=
| MtxLock
| MtxUnlock
| ConnSend (m : ChannelMsg)
| ConnRecv
| Notify (n : channel.SubChan * channel.PhaseTransition).

(** How a call ends: it returns an [error] (nil is [None]) or panics. *)
Inductive ending : Type :=
| Return (err : option channel.error)
| Panic.

Record run : Type :=
  { ended : ending; machine_now : channel.machine; trace : list event }.

(** The events other than taking a message from the connection or sending
    anything but an acceptance. *)
Definition no_receive (ev : event) : Prop :=
  match ev with
  | ConnRecv => False
  | ConnSend (MsgUpdateAcc _) => True
  | ConnSend _ => False
  | _ => True
  end.

Section Channel.

Variable Sign : wallet.Account -> channel.Params -> option channel.State ->
                wallet.Sig * option channel.error.
Variable Equals : wallet.Address -> wallet.Address -> bool.
Variable Valid : channel.Allocation -> option channel.error.
Variable equalSum : channel.Allocation -> channel.Allocation -> bool * option channel.error.
Variable AppValidTransition :
  channel.Params -> option channel.State -> channel.State -> channel.Index ->
  option channel.error.
(** [conn.send(ctx, msg)]: what the broadcast to the peers answers, under
    the deadline of the caller's context. *)
Variable send : ChannelMsg -> option channel.error.

Definition validTwoPartyUpdate (up : ChannelUpdate) (sigIdx : channel.Index)
  : option channel.error :=
  if negb (bool_decide (ActorIdx up = sigIdx)) then
    Some (channel.New
      "Currently, only update proposals with the proposing peer as actor are allowed.")
  else if bool_decide (0 < length (channel.Locked (channel.SAllocation (State up)))) then
    Some (channel.New "no locked sub-allocations allowed")
  else None.

Definition notes (sent : list (channel.SubChan * channel.PhaseTransition)) : list event :=
  map Notify sent.

(** [Update].  The mutex is locked after the two-party check and, being
    unlocked by a deferred call, is unlocked on every way out after
    that. *)
Definition Update (up : ChannelUpdate) (m : channel.machine) : run :=
  match validTwoPartyUpdate up (channel.idx m) with
  | Some err => {| ended := Return (Some err); machine_now := m; trace := [] |}
  | None =>
      match channel.Update Equals Valid equalSum AppValidTransition
              (State up) (ActorIdx up) m with
      | channel.Panics m1 =>
          {| ended := Panic; machine_now := m1; trace := [MtxLock; MtxUnlock] |}
      | channel.Returns (Some err) m1 sent1 =>
          {| ended := Return (Some (channel.WithMessage err "updating machine"));
             machine_now := m1;
             trace := [MtxLock] ++ notes sent1 ++ [MtxUnlock] |}
      | channel.Returns None m1 sent1 =>
          match channel.Sig Sign m1 with
          | channel.Panics m2 =>
              {| ended := Panic; machine_now := m2;
                 trace := [MtxLock] ++ notes sent1 ++ [MtxUnlock] |}
          | channel.Returns (_, Some err) m2 sent2 =>
              match channel.DiscardUpdate m2 with
              | channel.Panics m3 =>
                  {| ended := Panic; machine_now := m3;
                     trace := [MtxLock] ++ notes sent1 ++ notes sent2 ++ [MtxUnlock] |}
              | channel.Returns (Some derr) m3 sent3 =>
                  {| ended := Return (Some (channel.WithMessage derr
                       "signing failed: %v, then discarding update failed"));
                     machine_now := m3;
                     trace := [MtxLock] ++ notes sent1 ++ notes sent2 ++ notes sent3
                              ++ [MtxUnlock] |}
              | channel.Returns None m3 sent3 =>
                  {| ended := Return (Some (channel.WithMessage err "signing updated state"));
                     machine_now := m3;
                     trace := [MtxLock] ++ notes sent1 ++ notes sent2 ++ notes sent3
                              ++ [MtxUnlock] |}
              end
          | channel.Returns (sig, None) m2 sent2 =>
              let msgUpAcc :=
                {| ChannelID := channel.ID_of m2;
                   AccVersion := channel.Version (State up);
                   AccSig := sig |} in
              {| ended := Return (send (MsgUpdateAcc msgUpAcc));
                 machine_now := m2;
                 trace := [MtxLock] ++ notes sent1 ++ notes sent2
                          ++ [ConnSend (MsgUpdateAcc msgUpAcc)] ++ [MtxUnlock] |}
          end
      end
  end.

End Channel.

(** *** Responders *)

(** Modelled from the spec: [atomic.Bool], whose code is not among the
    sources.  "The responder carries an atomic used flag; Accept/Reject
    consume it": [TrySet] sets the flag and tells whether this call was the
    one that set it. *)
Definition TrySet (flag : bool) : bool * bool := (negb flag, true).

(** A context is known by its name. *)
Abbreviation Context_ := nat (only parsing).

Record ProposalAcc : Type := { Participant : option wallet.Account }.

Record ctxProposalAcc : Type := { pacc_ctx : Context_; pacc_res : ProposalAcc }.
Record ctxProposalRej : Type := { prej_ctx : Context_; prej_reason : string }.
Record ctxUpdateRej : Type := { urej_ctx : Context_; urej_reason : string }.

(** The go-channels [accept] and [reject] of a responder hold what has
    been handed over to the protocol side; [called] is the atomic flag. *)
Record ProposalResponder : Type :=
  { paccept : list ctxProposalAcc; preject : list ctxProposalRej; pcalled : bool }.

Record UpdateResponder : Type :=
  { uaccept : list Context_; ureject : list ctxUpdateRej; ucalled : bool }.

Definition newProposalResponder : ProposalResponder :=
  {| paccept := []; preject := []; pcalled := false |}.

Definition newUpdateResponder : UpdateResponder :=
  {| uaccept := []; ureject := []; ucalled := false |}.

(** A call on a responder either panics or hands its arguments over and
    returns the error that the protocol side sends back on [err]. *)
Inductive response (R : Type) : Type :=
| Responded (err : option channel.error) (r' : R)
| LogPanic (msg : string) (r' : R).
Arguments Responded {R} err r'.
Arguments LogPanic {R} msg r'.

Section Responders.

(** The protocol side: the error it answers to what it is handed. *)
Variable proposal_side : ctxProposalAcc + ctxProposalRej -> option channel.error.
Variable update_side : Context_ + ctxUpdateRej -> option channel.error.

Definition ProposalResponder_Accept (ctx : Context_) (res : ProposalAcc)
  (r : ProposalResponder) : response ProposalResponder :=
  let (ok, flag) := TrySet (pcalled r) in
  let r1 := {| paccept := paccept r; preject := preject r; pcalled := flag |} in
  if negb ok then LogPanic "multiple calls on proposal responder" r1
  else
    let handed := {| pacc_ctx := ctx; pacc_res := res |} in
    Responded (proposal_side (inl handed))
      {| paccept := paccept r1 ++ [handed]; preject := preject r1; pcalled := pcalled r1 |}.

Definition ProposalResponder_Reject (ctx : Context_) (reason : string)
  (r : ProposalResponder) : response ProposalResponder :=
  let (ok, flag) := TrySet (pcalled r) in
  let r1 := {| paccept := paccept r; preject := preject r; pcalled := flag |} in
  if negb ok then LogPanic "multiple calls on proposal responder" r1
  else
    let handed := {| prej_ctx := ctx; prej_reason := reason |} in
    Responded (proposal_side (inr handed))
      {| paccept := paccept r1; preject := preject r1 ++ [handed]; pcalled := pcalled r1 |}.

Definition UpdateResponder_Accept (ctx : Context_) (r : UpdateResponder)
  : response UpdateResponder :=
  let (ok, flag) := TrySet (ucalled r) in
  let r1 := {| uaccept := uaccept r; ureject := ureject r; ucalled := flag |} in
  if negb ok then LogPanic "multiple calls on channel update responder" r1
  else
    Responded (update_side (inl ctx))
      {| uaccept := uaccept r1 ++ [ctx]; ureject := ureject r1; ucalled := ucalled r1 |}.

Definition UpdateResponder_Reject (ctx : Context_) (reason : string)
  (r : UpdateResponder) : response UpdateResponder :=
  let (ok, flag) := TrySet (ucalled r) in
  let r1 := {| uaccept := uaccept r; ureject := ureject r; ucalled := flag |} in
  if negb ok then LogPanic "multiple calls on channel update responder" r1
  else
    let handed := {| urej_ctx := ctx; urej_reason := reason |} in
    Responded (update_side (inr handed))
      {| uaccept := uaccept r1; ureject := ureject r1 ++ [handed]; ucalled := ucalled r1 |}.

(** A call as the user's handler may make it. *)
Inductive ProposalCall : Type :=
| PAccept (ctx : Context_) (res : ProposalAcc)
| PReject (ctx : Context_) (reason : string).

Inductive UpdateCall : Type :=
| UAccept (ctx : Context_)
| UReject (ctx : Context_) (reason : string).

Definition proposal_call (c : ProposalCall) : ProposalResponder -> response ProposalResponder :=
  match c with
  | PAccept ctx res => ProposalResponder_Accept ctx res
  | PReject ctx reason => ProposalResponder_Reject ctx reason
  end.

Definition update_call (c : UpdateCall) : UpdateResponder -> response UpdateResponder :=
  match c with
  | UAccept ctx => UpdateResponder_Accept ctx
  | UReject ctx reason => UpdateResponder_Reject ctx reason
  end.

(** What a call hands over to the protocol side. *)
Definition proposal_handed (c : ProposalCall) : ctxProposalAcc + ctxProposalRej :=
  match c with
  | PAccept ctx res => inl {| pacc_ctx := ctx; pacc_res := res |}
  | PReject ctx reason => inr {| prej_ctx := ctx; prej_reason := reason |}
  end.

Definition update_handed (c : UpdateCall) : Context_ + ctxUpdateRej :=
  match c with
  | UAccept ctx => inl ctx
  | UReject ctx reason => inr {| urej_ctx := ctx; urej_reason := reason |}
  end.

Definition responder_after {R} (o : response R) : R :=
  match o with Responded _ r' => r' | LogPanic _ r' => r' end.

(** Several calls on one responder, in the order in which they reach the
    flag; a call that panics takes down its own goroutine only. *)
Fixpoint calls {C R : Type} (call : C -> R -> response R) (cs : list C) (r : R)
  : list (response R) :=
  match cs with
  | [] => []
  | c :: rest => let o := call c r in o :: calls call rest (responder_after o)
  end.

Definition proceeds {R} (o : response R) : bool :=
  match o with Responded _ _ => true | LogPanic _ _ => false end.

End Responders.

End client.

(** ** Package wire: the format of the primitive fields *)
Module wire.

Definition byte_of_N (n : N) : Byte.byte :=
  match Byte.of_N n with
  | Some b => b
  | None => Byte.x00
  end.

(** Modelled from the spec: the wire format of integers, byte arrays and
    strings, whose code is not among the sources.  "Integers are
    big-endian fixed-width.  Strings and byte arrays are length-prefixed";
    a channel id is a 32-byte digest, written as it is. *)
Fixpoint be_bytes (width : nat) (n : N) : list Byte.byte :=
  match width with
  | 0 => []
  | S w => be_bytes w (n / 256)%N ++ [byte_of_N (n mod 256)%N]
  end.

Definition be_value (bytes : list Byte.byte) : N :=
  fold_left (fun acc b => (acc * 256 + Byte.to_N b)%N) bytes 0%N.

Definition read (len : nat) (r : perunio.stream)
  : channel.error + list Byte.byte * perunio.stream :=
  if decide (length r < len) then inl (channel.Foreign "unexpected EOF")
  else inr (take len r, drop len r).

Definition be_Decode (width : nat) (r : perunio.stream) : channel.error + N * perunio.stream :=
  match read width r with
  | inl err => inl err
  | inr (bytes, r') => inr (be_value bytes, r')
  end.

Definition Uint64 : perunio.Serializable N :=
  {| perunio.Encode := be_bytes 8; perunio.Decode := be_Decode 8 |}.

Definition Uint16 : perunio.Serializable channel.Index :=
  {| perunio.Encode := fun i => be_bytes 2 (N.of_nat i);
     perunio.Decode := fun r =>
       match be_Decode 2 r with
       | inl err => inl err
       | inr (n, r') => inr (N.to_nat n, r')
       end |}.

Definition ID : perunio.Serializable channel.ID :=
  {| perunio.Encode := fun cid => cid; perunio.Decode := read 32 |}.

Definition String_ : perunio.Serializable string :=
  {| perunio.Encode := fun s =>
       be_bytes 2 (N.of_nat (String.length s)) ++ list_byte_of_string s;
     perunio.Decode := fun r =>
       match be_Decode 2 r with
       | inl err => inl err
       | inr (n, r') =>
           match read (N.to_nat n) r' with
           | inl err => inl err
           | inr (bytes, r'') => inr (string_of_list_byte bytes, r'')
           end
       end |}.

Definition wf_Uint64 (n : N) : Prop := (n < 2 ^ 64)%N.
Definition wf_Uint16 (i : channel.Index) : Prop := (N.of_nat i < 2 ^ 16)%N.
Definition wf_ID (cid : channel.ID) : Prop := length cid = 32.
Definition wf_String (s : string) : Prop := (N.of_nat (String.length s) < 2 ^ 16)%N.

End wire.

(** ** A simulated backend and sample values *)
Module sim.

Import channel.

(** The simulated wallet signs with the signer's address. *)
Definition Sign (a : wallet.Account) (p : Params) (st : option State)
  : wallet.Sig * option error :=
  (Some (wallet.Address_of a), None).

Definition Verify (addr : wallet.Address) (p : Params) (st : option State) (sig : wallet.Sig)
  : bool * option error :=
  (bool_decide (sig = Some addr), None).

Definition Equals (a b : wallet.Address) : bool := bool_decide (a = b).

(** An allocation without negative balances, and the sums per asset over
    participants and locked funds. *)
Definition Valid (a : Allocation) : option error :=
  if forallb (forallb (Z.leb 0)) (OfParts a ++ map Bals (Locked a)) then None
  else Some (New "negative balance").

Definition Sum (a : Allocation) : list Bal :=
  foldr (zip_with Z.add) (replicate (length (Assets a)) 0%Z)
        (OfParts a ++ map Bals (Locked a)).

Definition equalSum (a b : Allocation) : bool * option error :=
  if negb (bool_decide (length (Assets a) = length (Assets b)))
  then (false, Some (New "dimension mismatch"))
  else (bool_decide (Sum a = Sum b), None).

Definition AppValidTransition (p : Params) (from : option State) (to : State) (actor : Index)
  : option error := None.

Definition alice : wallet.Account :=
  {| wallet.Address_of := [Byte.x0a]; wallet.secret := [Byte.x01] |}.
Definition bob : wallet.Account :=
  {| wallet.Address_of := [Byte.x0b]; wallet.secret := [Byte.x02] |}.

Definition app : App := {| Def := [Byte.xaa] |}.
Definition cid : ID := replicate 32 Byte.x2a.

Definition params0 : Params :=
  {| id := cid; ChallengeDuration := 10;
     Parts := [wallet.Address_of alice; wallet.Address_of bob];
     PApp := app; Nonce := 0 |}.

Definition alloc (a b : Z) : Allocation :=
  {| Assets := [[Byte.xee]]; OfParts := [[a]; [b]]; Locked := [] |}.

Definition state (v : N) (a b : Z) (final : bool) : State :=
  {| SID := cid; Version := v; SApp := app; SAllocation := alloc a b;
     Data := []; IsFinal := final |}.

Definition signed (st : State) : Transaction :=
  {| TState := Some st;
     Sigs := [Some (wallet.Address_of alice); Some (wallet.Address_of bob)] |}.

Definition unsigned (st : State) : Transaction :=
  {| TState := Some st; Sigs := [None; None] |}.

(** Alice's machine after the channel was funded, at version 0. *)
Definition m_acting : machine :=
  {| phase := Acting; acc := alice; idx := 0; params := params0;
     stagingTX := Transaction_zero;
     currentTX := signed (state 0 100 100 false);
     prevTXs := [Transaction_zero];
     subs := fun _ => [] |}.

(** The same machine with an update to version 1 staged, not yet signed,
    and a final one. *)
Definition m_signing : machine :=
  with_phase Signing (with_stagingTX (unsigned (state 1 90 110 false)) m_acting).

Definition m_signing_final : machine :=
  with_phase Signing (with_stagingTX (signed (state 1 90 110 true)) m_acting).

Definition m_signed : machine :=
  with_phase Signing (with_stagingTX (signed (state 1 90 110 false)) m_acting).

Definition up1 : client.ChannelUpdate :=
  {| client.State := state 1 90 110 false; client.ActorIdx := 0 |}.

Definition send_ok (m : client.ChannelMsg) : option error := None.

(** An example of a wire format for states.  The format that the
    repository gives a state is not among the sources, and the messages
    are recovered only if the state that they carry is: this format, which
    writes every field of a state, shows that the condition can be met.
    A byte array is written behind its length, a boolean as one byte, a
    balance as a sign and 32 bytes, a list behind the number of its
    elements. *)
Definition and_then {A B : Type} (d : error + A * perunio.stream)
  (k : A -> perunio.stream -> error + B * perunio.stream) : error + B * perunio.stream :=
  match d with
  | inl err => inl err
  | inr (a, r) => k a r
  end.

Definition Bytes : perunio.Serializable (list Byte.byte) :=
  {| perunio.Encode := fun bs => wire.be_bytes 2 (N.of_nat (length bs)) ++ bs;
     perunio.Decode := fun r =>
       and_then (wire.be_Decode 2 r) (fun n r1 => wire.read (N.to_nat n) r1) |}.

Definition Bool_ : perunio.Serializable bool :=
  {| perunio.Encode := fun b : bool => [if b then Byte.x01 else Byte.x00];
     perunio.Decode := fun r : perunio.stream =>
       match r with
       | [] => inl (Foreign "unexpected EOF")
       | b :: r1 => inr (negb (bool_decide (b = Byte.x00)), r1)
       end |}.

Definition BigInt : perunio.Serializable Z :=
  {| perunio.Encode := fun z =>
       @perunio.Encode _ Bool_ (z <? 0)%Z ++ wire.be_bytes 32 (Z.abs_N z);
     perunio.Decode := fun r =>
       and_then (@perunio.Decode _ Bool_ r) (fun negative r1 =>
       and_then (wire.be_Decode 32 r1) (fun n r2 =>
       inr (if negative then (- Z.of_N n)%Z else Z.of_N n, r2))) |}.

Fixpoint decode_n {A : Type} (S : perunio.Serializable A) (n : nat) (r : perunio.stream)
  : error + list A * perunio.stream :=
  match n with
  | 0 => inr ([], r)
  | S n' =>
      and_then (@perunio.Decode _ S r) (fun a r1 =>
      and_then (decode_n S n' r1) (fun l r2 => inr (a :: l, r2)))
  end.

Definition List_ {A : Type} (S : perunio.Serializable A) : perunio.Serializable (list A) :=
  {| perunio.Encode := fun l =>
       wire.be_bytes 2 (N.of_nat (length l)) ++ concat (map (@perunio.Encode _ S) l);
     perunio.Decode := fun r =>
       and_then (wire.be_Decode 2 r) (fun n r1 => decode_n S (N.to_nat n) r1) |}.

Definition SSubAlloc : perunio.Serializable SubAlloc :=
  {| perunio.Encode := fun a => SubID a ++ @perunio.Encode _ (List_ BigInt) (Bals a);
     perunio.Decode := fun r =>
       and_then (wire.read 32 r) (fun i r1 =>
       and_then (@perunio.Decode _ (List_ BigInt) r1) (fun bals r2 =>
       inr ({| SubID := i; Bals := bals |}, r2))) |}.

Definition SState : perunio.Serializable State :=
  {| perunio.Encode := fun st =>
       SID st ++
       wire.be_bytes 8 (Version st) ++
       @perunio.Encode _ Bytes (Def (SApp st)) ++
       @perunio.Encode _ (List_ Bytes) (Assets (SAllocation st)) ++
       @perunio.Encode _ (List_ (List_ BigInt)) (OfParts (SAllocation st)) ++
       @perunio.Encode _ (List_ SSubAlloc) (Locked (SAllocation st)) ++
       @perunio.Encode _ Bytes (Data st) ++
       @perunio.Encode _ Bool_ (IsFinal st);
     perunio.Decode := fun r =>
       and_then (wire.read 32 r) (fun c r1 =>
       and_then (wire.be_Decode 8 r1) (fun v r2 =>
       and_then (@perunio.Decode _ Bytes r2) (fun def r3 =>
       and_then (@perunio.Decode _ (List_ Bytes) r3) (fun assets r4 =>
       and_then (@perunio.Decode _ (List_ (List_ BigInt)) r4) (fun parts r5 =>
       and_then (@perunio.Decode _ (List_ SSubAlloc) r5) (fun locked r6 =>
       and_then (@perunio.Decode _ Bytes r6) (fun data r7 =>
       and_then (@perunio.Decode _ Bool_ r7) (fun final r8 =>
       inr ({| SID := c; Version := v; SApp := {| Def := def |};
               SAllocation := {| Assets := assets; OfParts := parts; Locked := locked |};
               Data := data; IsFinal := final |}, r8))))))))) |}.

(** The values that the example format has room for. *)
Definition wf_Bytes (bs : list Byte.byte) : Prop := (N.of_nat (length bs) < 2 ^ 16)%N.
Definition wf_BigInt (z : Z) : Prop := (Z.abs_N z < 2 ^ 256)%N.
Definition wf_List {A : Type} (wf : A -> Prop) (l : list A) : Prop :=
  (N.of_nat (length l) < 2 ^ 16)%N /\ Forall wf l.
Definition wf_SubAlloc (a : SubAlloc) : Prop :=
  length (SubID a) = 32 /\ wf_List wf_BigInt (Bals a).

Definition wf_State (st : State) : Prop :=
  length (SID st) = 32 /\ (Version st < 2 ^ 64)%N /\
  wf_Bytes (Def (SApp st)) /\
  wf_List wf_Bytes (Assets (SAllocation st)) /\
  wf_List (wf_List wf_BigInt) (OfParts (SAllocation st)) /\
  wf_List wf_SubAlloc (Locked (SAllocation st)) /\
  wf_Bytes (Data st).

Definition sig65 : wallet.Sig := Some (replicate 65 Byte.x07).

(** A receiver with two queued messages of peer 7, and a new one. *)
Definition queued : peer.Receiver nat string :=
  peer.with_buf [ {| peer.tuple_Peer := 7; peer.tuple_Msg := "first"%string |};
                  {| peer.tuple_Peer := 7; peer.tuple_Msg := "second"%string |} ]
    (peer.NewReceiver nat string).

Definition idle : peer.Receiver nat string := peer.NewReceiver nat string.

Definition msg_update : client.ChannelMsg :=
  client.MsgUpdate
    {| client.Proposal := {| client.State := state 1 90 110 false; client.ActorIdx := 0 |};
       client.UpSig := sig65 |}.

(** An acceptance whose signature is empty. *)
Definition msg_unsigned : client.ChannelMsg :=
  client.MsgUpdateAcc
    {| client.ChannelID := cid; client.AccVersion := 1; client.AccSig := Some [] |}.

End sim.

(** ** More of the machine: subscriptions and runs of operations *)
Module automaton.

Import channel.

(** [m.subs[phase][who] = sub] on the entries of the inner map: the entry of
    [who] is replaced, or added when there is none. *)
Fixpoint map_set (who : string) (sub : SubChan) (entries : list (string * SubChan))
  : list (string * SubChan) :=
  match entries with
  | [] => [(who, sub)]
  | (w, s) :: rest =>
      if string_dec w who then (who, sub) :: rest
      else (w, s) :: map_set who sub rest
  end.

(** [Subscribe]: a [nil] inner map is made first, which the list of entries
    of the phase, empty then, stands for already. *)
Definition Subscribe (ph : Phase) (who : string) (sub : SubChan) (m : machine) : machine :=
  {| phase := phase m; acc := acc m; idx := idx m; params := params m;
     stagingTX := stagingTX m; currentTX := currentTX m; prevTXs := prevTXs m;
     subs := fun p => if decide (p = ph) then map_set who sub (subs m p) else subs m p |}.

(** The names subscribed to a phase. *)
Definition subscribers (m : machine) (ph : Phase) : list string := map fst (subs m ph).

(** What is done to a machine: an operation of [machine] is called, or a
    state is staged with [setStaging], as [Init] and [Update] of the
    state machine and the action machine do. *)
Inductive Step : Type :=
| Do (op : Op)
| Stage (ph : Phase) (st : option State).

Definition step
  (Sign : wallet.Account -> Params -> option State -> wallet.Sig * option error)
  (Verify : wallet.Address -> Params -> option State -> wallet.Sig -> bool * option error)
  (s : Step) (m : machine) : machine :=
  match s with
  | Do op => machine_after (call Sign Verify op m)
  | Stage ph st => fst (setStaging ph st m)
  end.

(** States are staged for a signing phase only. *)
Definition for_signing (s : Step) : bool :=
  match s with
  | Do _ => true
  | Stage ph _ => inPhase ph signingPhases
  end.

(** Steps taken one after the other, each on the machine the one before
    left behind. *)
Definition after_steps
  (Sign : wallet.Account -> Params -> option State -> wallet.Sig * option error)
  (Verify : wallet.Address -> Params -> option State -> wallet.Sig -> bool * option error)
  (steps : list Step) (m : machine) : machine :=
  fold_left (fun m' s => step Sign Verify s m') steps m.

(** A step that promotes the staging transaction: a call of EnableInit,
    EnableUpdate or EnableFinal that returns nil. *)
Definition promoting
  (Sign : wallet.Account -> Params -> option State -> wallet.Sig * option error)
  (Verify : wallet.Address -> Params -> option State -> wallet.Sig -> bool * option error)
  (s : Step) (m : machine) : bool :=
  match s with
  | Do OpEnableInit | Do OpEnableUpdate | Do OpEnableFinal =>
      match s with
      | Do op =>
          match call Sign Verify op m with
          | Returns None _ _ => true
          | _ => false
          end
      | Stage _ _ => false
      end
  | _ => false
  end.

(** The transactions that were current when a step promoted the staging
    transaction over them, in the order of the steps. *)
Fixpoint retired
  (Sign : wallet.Account -> Params -> option State -> wallet.Sig * option error)
  (Verify : wallet.Address -> Params -> option State -> wallet.Sig -> bool * option error)
  (steps : list Step) (m : machine) : list Transaction :=
  match steps with
  | [] => []
  | s :: rest =>
      (if promoting Sign Verify s m then [currentTX m] else [])
      ++ retired Sign Verify rest (step Sign Verify s m)
  end.

(** [newMachine]; [IndexOfAddr] answers a negative number for an address
    that is not in the list, and [Index(idx)] keeps the low 16 bits. *)
Definition newMachine (IndexOfAddr : list wallet.Address -> wallet.Address -> Z)
  (account : wallet.Account) (params_ : Params) : error + machine :=
  let i := IndexOfAddr (Parts params_) (wallet.Address_of account) in
  if (i <? 0)%Z then inl (New "account not part of participant set")
  else inr {| phase := InitActing; acc := account;
              idx := Z.to_nat (i mod 2 ^ 16); params := params_;
              stagingTX := Transaction_zero; currentTX := Transaction_zero;
              prevTXs := []; subs := fun _ => [] |}.

(** The staging transaction is empty outside of the signing phases, and has
    one signature slot per participant inside of them. *)
Definition consistent (m : machine) : Prop :=
  (inPhase (phase m) signingPhases = false -> stagingTX m = Transaction_zero) /\
  (inPhase (phase m) signingPhases = true -> length (Sigs (stagingTX m)) = N_of m).

(** Every signature of [tx] was made by the machine's own account, in the
    own slot, or was accepted by [Verify] for the participant of its slot. *)
Definition vouched
  (Sign : wallet.Account -> Params -> option State -> wallet.Sig * option error)
  (Verify : wallet.Address -> Params -> option State -> wallet.Sig -> bool * option error)
  (m : machine) (tx : Transaction) : Prop :=
  forall (i : nat) (s : list Byte.byte),
    Sigs tx !! i = Some (Some s) ->
    (i = idx m /\ Sign (acc m) (params m) (TState tx) = (Some s, None)) \/
    (exists part, Parts (params m) !! i = Some part /\
       Verify part (params m) (TState tx) (Some s) = (true, None)).

(** A transaction that is the zero value, or has one signature per
    participant and none of them missing. *)
Definition complete (m : machine) (tx : Transaction) : Prop :=
  tx = Transaction_zero \/ (length (Sigs tx) = N_of m /\ filled (Sigs tx)).

End automaton.

(** ** Package sync: the mutex *)
Module perunsync.

(** [Mutex] is a go-channel of capacity one, made on first use: [None] is
    the mutex whose channel is still nil, [Some held] a made channel that
    holds an element exactly when the mutex is locked. *)
Abbreviation Mutex := (option bool) (only parsing).

Definition zero : Mutex := None.

Definition initOnce (m : Mutex) : Mutex :=
  match m with
  | None => Some false
  | Some held => Some held
  end.

(** [Lock]: the send blocks while the channel is full; [None] is a call
    that is still blocked. *)
Definition Lock (m : Mutex) : option Mutex :=
  match initOnce m with
  | Some false => Some (Some true)
  | _ => None
  end.

(** The communications of the [select] statements of [TryLock]. *)
Inductive TryCase : Type := Acquire | CtxDone.

Definition ready (done : bool) (m : Mutex) : list TryCase :=
  (match m with Some false => [Acquire] | _ => [] end) ++
  (if done then [CtxDone] else []).

Definition take_case (m : Mutex) (c : TryCase) : bool * Mutex :=
  match c with
  | Acquire => (true, Some true)
  | CtxDone => (false, m)
  end.

(** [TryLock(ctx)].  A nil context is [None]; otherwise [done1] tells whether
    the context is done on entry, and [done2], [m2] are the context and the
    mutex when the blocking [select] is decided (the mutex may have been
    unlocked by its holder in between).  The result lists every return that
    is possible; the empty list is a call that is still blocked. *)
Definition TryLock (ctx : option bool) (m : Mutex) (done2 : bool) (m2 : Mutex)
  : list (bool * Mutex) :=
  match ctx with
  | Some done1 =>
      if done1 then [(false, initOnce m)]
      else map (take_case (initOnce m2)) (ready done2 (initOnce m2))
  | None =>
      match initOnce m with
      | Some false => [(true, Some true)]
      | m' => [(false, m')]
      end
  end.

(** [Unlock]: a receive from the channel, which on a nil channel can never
    proceed; when it cannot, [log.Fatal] ends the program ([None]). *)
Definition Unlock (m : Mutex) : option Mutex :=
  match m with
  | Some true => Some (Some false)
  | _ => None
  end.

Definition locked (m : Mutex) : bool :=
  match m with
  | Some true => true
  | _ => false
  end.

(** The calls that do not block on the caller's side. *)
Inductive Call : Type := CallTryLock | CallUnlock.

(** What a caller observes. *)
Inductive Seen : Type := Acquired | Refused | Released | Fatal.

(** Calls of [TryLock(nil)] and [Unlock] made one after the other, by any
    goroutines; after a fatal unlock nothing runs any more. *)
Fixpoint calls (cs : list Call) (m : Mutex) : list Seen :=
  match cs with
  | [] => []
  | CallTryLock :: rest =>
      match TryLock None m false m with
      | (true, m') :: _ => Acquired :: calls rest m'
      | (false, m') :: _ => Refused :: calls rest m'
      | [] => []
      end
  | CallUnlock :: rest =>
      match Unlock m with
      | Some m' => Released :: calls rest m'
      | None => [Fatal]
      end
  end.

(** Acquisitions and releases take turns, an acquisition first when
    [free]. *)
Fixpoint alternate (free : bool) (seen : list Seen) : Prop :=
  match seen with
  | [] => True
  | Acquired :: rest => free = true /\ alternate false rest
  | Released :: rest => free = false /\ alternate true rest
  | _ :: rest => alternate free rest
  end.

End perunsync.

(** ** More of package client: peers and the channel connection *)
Module conn.

(** A [*peer.Peer]: [None] is the nil pointer. *)
Abbreviation PeerPtr := (option nat) (only parsing).

Section GetPeers.

(** The registry, [c.peers.Get(a)] on it, and [wallet.IndexOfAddr], which
    answers -1 when the address is not in the list. *)
Variable Registry : Type.
Variable Get : Registry -> wallet.Address -> PeerPtr * Registry.
Variable IndexOfAddr : list wallet.Address -> wallet.Address -> Z.

(** The loop of [getPeers], at index [i] with [addrs] still to go.  An
    assignment beyond the slice panics ([None]). *)
Fixpoint getPeers_loop (idx : Z) (i : nat) (addrs : list wallet.Address)
  (peers : list PeerPtr) (r : Registry) : option (list PeerPtr * Registry) :=
  match addrs with
  | [] => Some (peers, r)
  | a :: rest =>
      if (idx =? -1)%Z || (Z.of_nat i <? idx)%Z then
        let (p, r') := Get r a in
        if decide (i < length peers)
        then getPeers_loop idx (S i) rest (<[i := p]> peers) r'
        else None
      else if (Z.of_nat i >? idx)%Z then
        let (p, r') := Get r a in
        if decide (1 <= i /\ i - 1 < length peers)
        then getPeers_loop idx (S i) rest (<[i - 1 := p]> peers) r'
        else None
      else getPeers_loop idx (S i) rest peers r
  end.

(** [getPeers]: [make] with a negative length panics. *)
Definition getPeers (own : wallet.Address) (addrs : list wallet.Address) (r : Registry)
  : option (list PeerPtr * Registry) :=
  let idx := IndexOfAddr addrs own in
  let l := (Z.of_nat (length addrs) - (if (idx =? -1)%Z then 0 else 1))%Z in
  if (l <? 0)%Z then None
  else getPeers_loop idx 0 addrs (replicate (Z.to_nat l) None) r.

(** The peers of the addresses, got from the registry one after the
    other. *)
Fixpoint get_all (addrs : list wallet.Address) (r : Registry) : list PeerPtr * Registry :=
  match addrs with
  | [] => ([], r)
  | a :: rest =>
      let (p, r') := Get r a in
      let (ps, r'') := get_all rest r' in
      (p :: ps, r'')
  end.

(** The addresses without the one at index [idx]; all of them for -1. *)
Definition others (idx : Z) (addrs : list wallet.Address) : list wallet.Address :=
  if (idx =? -1)%Z then addrs else delete (Z.to_nat idx) addrs.

End GetPeers.

(** Conversion to [uint16], and the increment of a [uint16]. *)
Definition to16 (n : nat) : nat := N.to_nat (N.of_nat n mod 2 ^ 16).

(** [channelConn]: the peers subscribed on the receiver [r], in the order
    in which they were subscribed, the peers of the broadcaster [b] and the
    map from peers to participant indices. *)
Record channelConn : Type :=
  { subscribed : list PeerPtr;
    broadcast : list PeerPtr;
    peerIdx : gmap PeerPtr nat }.

Section ChannelConn.

(** [rec.Subscribe(peer, forThisChannel)] *)
Variable Subscribe : PeerPtr -> option channel.error.

(** The loop of [newChannelConn] at position [i]; a failed subscription
    ends it with the error and leaves the earlier peers subscribed. *)
Fixpoint newChannelConn_loop (idx : channel.Index) (i : nat) (peers : list PeerPtr)
  (subscribed_ : list PeerPtr) (peerIdx_ : gmap PeerPtr nat)
  : channel.error * list PeerPtr + list PeerPtr * gmap PeerPtr nat :=
  match peers with
  | [] => inr (subscribed_, peerIdx_)
  | p :: rest =>
      let i16 := to16 i in
      let set := <[p := i16]> peerIdx_ in
      let stepped := if decide (idx <= i16) then <[p := to16 (i16 + 1)]> set else set in
      match Subscribe p with
      | Some err =>
          inl (channel.WithMessage err "subscribing peer[%d] (%v)", subscribed_)
      | None => newChannelConn_loop idx (S i) rest (subscribed_ ++ [p]) stepped
      end
  end.

Definition newChannelConn (peers : list PeerPtr) (idx : channel.Index)
  : channel.error * list PeerPtr + channelConn :=
  match newChannelConn_loop idx 0 peers [] ∅ with
  | inl failed => inl failed
  | inr (subscribed_, peerIdx_) =>
      inr {| subscribed := subscribed_; broadcast := peers; peerIdx := peerIdx_ |}
  end.

End ChannelConn.

(** A [wire.Msg]: a channel message, or a message of another type. *)
Inductive WireMsg : Type :=
| ChannelMessage (m : client.ChannelMsg)
| OtherMessage (type : nat).

(** [ID] of the three channel messages. *)
Definition ChannelMsg_ID (m : client.ChannelMsg) : channel.ID :=
  match m with
  | client.MsgUpdate c => channel.SID (client.State (client.Proposal c))
  | client.MsgUpdateAcc c => client.ChannelID c
  | client.MsgUpdateRej c => channel.SID (client.Alt c)
  end.

(** The predicate [forThisChannel] of [newChannelConn]. *)
Definition forThisChannel (cid : channel.ID) (m : WireMsg) : bool :=
  match m with
  | ChannelMessage cm => bool_decide (ChannelMsg_ID cm = cid)
  | OtherMessage _ => false
  end.

(** The messages that a run handed to [conn.send], in order. *)
Definition sent_messages (tr : list client.event) : list client.ChannelMsg :=
  omap (fun ev => match ev with client.ConnSend msg => Some msg | _ => None end) tr.

(** [recv] on what [Next] returned; [(nil, nil)] is [None].  The lookup of a
    peer that is not in the map panics, and so does the type assertion on a
    message that is no channel message ([None]). *)
Definition recv (next : option (peer.msgTuple PeerPtr (option WireMsg))) (c : channelConn)
  : option (channel.Index * client.ChannelMsg) :=
  let peer_ := match next with Some t => peer.tuple_Peer t | None => None end in
  let msg := match next with Some t => peer.tuple_Msg t | None => None end in
  match peerIdx c !! peer_ with
  | None => None
  | Some idx =>
      match msg with
      | Some (ChannelMessage cm) => Some (idx, cm)
      | _ => None
      end
  end.

(** [recv] on a receiver: every way in which it can end, with [None] for a
    panic; the empty list is a call that is still blocked. *)
Definition recv_on (done1 : bool) (r1 : peer.Receiver PeerPtr (option WireMsg))
  (done2 : bool) (r2 : peer.Receiver PeerPtr (option WireMsg)) (c : channelConn)
  : list (option (channel.Index * client.ChannelMsg)) :=
  map (fun o => recv (fst o) c) (peer.Next done1 r1 done2 r2).

(** What a call of [initExchangeSigsAndEnable] leaves behind: how it
    ended, the machine, the message that the goroutine it started hands to
    [conn.send] ([None] when none was started), and whether the result of
    that send was read from the go-channel [send]. *)
Record exchange : Type :=
  { ex_ended : client.ending;
    ex_machine : channel.machine;
    handed : option client.msgChannelUpdateAcc;
    collected : bool }.

Section InitExchange.

Variable Sign : wallet.Account -> channel.Params -> option channel.State ->
                wallet.Sig * option channel.error.
Variable Verify : wallet.Address -> channel.Params -> option channel.State -> wallet.Sig ->
                  bool * option channel.error.
(** [conn.send(ctx, msg)] *)
Variable send : client.ChannelMsg -> option channel.error.

(** [errors.WithMessage], which returns nil for a nil error. *)
Definition WithMessage (err : option channel.error) (msg : string) : option channel.error :=
  match err with
  | None => None
  | Some e => Some (channel.WithMessage e msg)
  end.

(** [initExchangeSigsAndEnable], on what [Next] returns to [recv]. *)
Definition initExchangeSigsAndEnable
  (next : option (peer.msgTuple PeerPtr (option WireMsg))) (c : channelConn)
  (m : channel.machine) : exchange :=
  match channel.Sig Sign m with
  | channel.Panics m1 =>
      {| ex_ended := client.Panic; ex_machine := m1; handed := None; collected := false |}
  | channel.Returns (_, Some err) m1 _ =>
      {| ex_ended := client.Return (Some err); ex_machine := m1;
         handed := None; collected := false |}
  | channel.Returns (sig, None) m1 _ =>
      let own := {| client.ChannelID := channel.ID_of m1;
                    client.AccVersion := 0;
                    client.AccSig := sig |} in
      match recv next c with
      | None =>
          {| ex_ended := client.Panic; ex_machine := m1;
             handed := Some own; collected := false |}
      | Some (pidx, client.MsgUpdateAcc acc) =>
          if negb (client.AccVersion acc =? 0)%N then
            {| ex_ended := client.Return (Some (channel.New
                 "received signature on unexpected version %d from peer"));
               ex_machine := m1; handed := Some own; collected := false |}
          else
            match channel.AddSig Verify pidx (client.AccSig acc) m1 with
            | channel.Panics m2 =>
                {| ex_ended := client.Panic; ex_machine := m2;
                   handed := Some own; collected := false |}
            | channel.Returns (Some err) m2 _ =>
                {| ex_ended := client.Return (Some err); ex_machine := m2;
                   handed := Some own; collected := false |}
            | channel.Returns None m2 _ =>
                match channel.EnableInit m2 with
                | channel.Panics m3 =>
                    {| ex_ended := client.Panic; ex_machine := m3;
                       handed := Some own; collected := false |}
                | channel.Returns (Some err) m3 _ =>
                    {| ex_ended := client.Return (Some err); ex_machine := m3;
                       handed := Some own; collected := false |}
                | channel.Returns None m3 _ =>
                    {| ex_ended := client.Return
                         (WithMessage (send (client.MsgUpdateAcc own))
                            "sending initial signature");
                       ex_machine := m3; handed := Some own; collected := true |}
                end
            end
      | Some (_, _) =>
          {| ex_ended := client.Return (Some (channel.New
               "received unexpected message type (%T) from peer"));
             ex_machine := m1; handed := Some own; collected := false |}
      end
  end.

End InitExchange.

(** A machine of the participant with index [i] on which [st] has been
    staged as the initial state of a channel of two, nobody having signed
    yet. *)
Definition opens (m : channel.machine) (i : channel.Index) (account : wallet.Account)
  (p : channel.Params) (st : channel.State) : Prop :=
  channel.phase m = channel.InitSigning /\ channel.acc m = account /\
  channel.idx m = i /\ channel.params m = p /\
  channel.stagingTX m = {| channel.TState := Some st; channel.Sigs := [None; None] |}.

(** The acceptance that carries a signature on the initial state. *)
Definition initial_acc (p : channel.Params) (sig : wallet.Sig)
  : client.msgChannelUpdateAcc :=
  {| client.ChannelID := channel.id p; client.AccVersion := 0; client.AccSig := sig |}.

Definition arrives (from : PeerPtr) (acc : client.msgChannelUpdateAcc)
  : option (peer.msgTuple PeerPtr (option WireMsg)) :=
  Some {| peer.tuple_Peer := from;
          peer.tuple_Msg := Some (ChannelMessage (client.MsgUpdateAcc acc)) |}.

End conn.

(** ** More of package client: the handling of a channel proposal *)
Module proposal.

Import client.

(** A session id, the reply messages [ChannelProposalAcc] and
    [ChannelProposalRej]. *)
Abbreviation SessionID := (list Byte.byte) (only parsing).

Inductive ProposalMsg : Type :=
| ChannelProposalAcc (SessID : SessionID) (ParticipantAddr : wallet.Address)
| ChannelProposalRej (SessID : SessionID) (Reason : string).

(** What [handleChannelProposal] leaves behind: whether the user's handler
    was started, what was sent to the peer and under which context, what
    the calls of the handler on the responder came to, and whether the
    function has returned. *)
Record handled : Type :=
  { started : bool;
    to_peer : list (Context_ * ProposalMsg);
    responses : list (response ProposalResponder);
    returned : bool }.

Section Handle.

Variable ChannelProposal : Type.
(** [proposal.Valid()], [proposal.SessID()] and [p.Send(ctx, msg)] *)
Variable Valid : ChannelProposal -> option channel.error.
Variable SessID : ChannelProposal -> SessionID.
Variable Send : Context_ -> ProposalMsg -> option channel.error.

(** The [select] of [handleChannelProposal] on what the responder hands
    over: the messages sent to the peer and the error put on [err]. *)
Definition answer (prop : ChannelProposal) (got : ctxProposalAcc + ctxProposalRej)
  : list (Context_ * ProposalMsg) * option channel.error :=
  match got with
  | inl acc =>
      match Participant (pacc_res acc) with
      | None => ([], Some (channel.New "nil Participant in ProposalAcc"))
      | Some account =>
          let msgAccept := ChannelProposalAcc (SessID prop) (wallet.Address_of account) in
          ([(pacc_ctx acc, msgAccept)], Send (pacc_ctx acc) msgAccept)
      end
  | inr rej =>
      let msgReject := ChannelProposalRej (SessID prop) (prej_reason rej) in
      ([(prej_ctx rej, msgReject)], Send (prej_ctx rej) msgReject)
  end.

(** [handleChannelProposal] with a handler that makes the calls [handler]
    on the responder.  The function takes what the first call hands over
    and returns; with a handler that makes no call it waits forever. *)
Definition handleChannelProposal (prop : ChannelProposal) (handler : list ProposalCall)
  : handled :=
  match Valid prop with
  | Some _ => {| started := false; to_peer := []; responses := []; returned := true |}
  | None =>
      let side := fun got => snd (answer prop got) in
      {| started := true;
         to_peer := match handler with
                    | [] => []
                    | c :: _ => fst (answer prop (proposal_handed c))
                    end;
         responses := calls (proposal_call side) handler newProposalResponder;
         returned := match handler with [] => false | _ :: _ => true end |}
  end.

End Handle.

End proposal.

(** ** The Ethereum wallet backend: verification of a signature *)
Module ethereum.

Definition SigLen : nat := backend.ethereum_SigLen.

(** [make([]byte, n)] followed by [copy(buf, src)]: as many bytes as
    fit, the rest of the buffer stays zero. *)
Definition copy_into (n : nat) (src : list Byte.byte) : list Byte.byte :=
  take n src ++ replicate (n - length src) Byte.x00.

Section Verify.

Variable PublicKey : Type.
(** [crypto.Keccak256(data...)], [crypto.SigToPub(hash, sig)] and
    [crypto.PubkeyToAddress(pk)]; [Equals] of addresses. *)
Variable Keccak256 : list (list Byte.byte) -> list Byte.byte.
Variable SigToPub : list Byte.byte -> list Byte.byte -> channel.error + PublicKey.
Variable PubkeyToAddress : PublicKey -> wallet.Address.
Variable Equals : wallet.Address -> wallet.Address -> bool.





End Verify.

End ethereum.

(** ** The test roles: moving funds in a state *)
Module roles.

(** A [*big.Int] is a location of the heap, which holds the numbers. *)
Abbreviation BigInt := nat (only parsing).
Abbreviation Heap := (gmap nat Z) (only parsing).

(** [z.Add(x, y)] sets [z] to [x + y]; [z.Neg(x)] sets [z] to [-x].  A
    pointer that holds no number is nil, and using it panics ([None]). *)
Definition Add (z x y : BigInt) (h : Heap) : option Heap :=
  match h !! z, h !! x, h !! y with
  | Some _, Some a, Some b => Some (<[z := (a + b)%Z]> h)
  | _, _, _ => None
  end.

Definition Neg (z x : BigInt) (h : Heap) : option Heap :=
  match h !! z, h !! x with
  | Some _, Some a => Some (<[z := (- a)%Z]> h)
  | _, _ => None
  end.

(** What [transferBal] uses of a [channel.State]: the balances of the
    participants, which are pointers, and the version. *)
Record State : Type :=
  { OfParts : list (list BigInt);
    Version : N }.

Definition to16 (n : nat) : nat := N.to_nat (N.of_nat n mod 2 ^ 16).

(** [transferBal]; an index beyond a slice panics ([None]). *)
Definition transferBal (state : State) (ourIdx : channel.Index) (amount : BigInt) (h : Heap)
  : option (State * Heap) :=
  let otherIdx := to16 (ourIdx + 1) mod 2 in
  match OfParts state !! ourIdx with
  | None => None
  | Some ours =>
      match ours !! 0 with
      | None => None
      | Some ourBal =>
          match OfParts state !! otherIdx with
          | None => None
          | Some others =>
              match others !! 0 with
              | None => None
              | Some otherBal =>
                  match Add otherBal otherBal amount h with
                  | None => None
                  | Some h1 =>
                      match Neg amount amount h1 with
                      | None => None
                      | Some h2 =>
                          match Add ourBal ourBal amount h2 with
                          | None => None
                          | Some h3 =>
                              Some ({| OfParts := OfParts state;
                                       Version := (Version state + 1) mod 2 ^ 64 |}, h3)
                          end
                      end
                  end
              end
          end
      end
  end.

(** The balance of participant [i] in the first asset. *)
Definition balance (state : State) (h : Heap) (i : nat) : option Z :=
  match OfParts state !! i with
  | Some (b :: _) => h !! b
  | _ => None
  end.

End roles.

(** ** More of package peer: a receiver used by one producer and one consumer *)
Module mailbox.

Import peer.

Section Sequences.

Variables Peer Msg : Type.

(** Calls of [Put] one after the other on a receiver that nobody else
    touches meanwhile: [None] when one of them cannot complete. *)
Fixpoint put_all (ts : list (msgTuple Peer Msg)) (r : Receiver Peer Msg)
  : option (Receiver Peer Msg) :=
  match ts with
  | [] => Some r
  | t :: rest =>
      match Put (tuple_Peer t) (tuple_Msg t) r with
      | [r'] => put_all rest r'
      | _ => None
      end
  end.

(** [n] calls of [Next] under a context that is not done, one after the
    other: what they return, [None] when one of them cannot complete. *)
Fixpoint next_all (n : nat) (r : Receiver Peer Msg)
  : option (list (option (msgTuple Peer Msg)) * Receiver Peer Msg) :=
  match n with
  | 0 => Some ([], r)
  | S n' =>
      match Next false r false r with
      | [(o, r')] =>
          match next_all n' r' with
          | Some (os, r'') => Some (o :: os, r'')
          | None => None
          end
      | _ => None
      end
  end.

End Sequences.

Arguments put_all {Peer Msg} ts r.
Arguments next_all {Peer Msg} n r.

End mailbox.

(** ** More of package io: encoding and decoding several objects at once *)
Module serial.

Section Loops.

(** The stream, and for [Decode] the objects that are decoded into. *)
Variable World : Type.

(** [v.Encode(writer)], [v.Decode(reader)]: the error, and what has been
    written or read even if it failed. *)
Definition Coder : Type := World -> option channel.error * World.

(** The loop of [Encode] and of [Decode] from index [i] on: the index and
    the error of the object that failed. *)
Fixpoint each_from (i : nat) (values : list Coder) (w : World)
  : option (nat * channel.error) * World :=
  match values with
  | [] => (None, w)
  | v :: rest =>
      match v w with
      | (Some err, w') => (Some (i, err), w')
      | (None, w') => each_from (S i) rest w'
      end
  end.

(** The message of the error is formatted with the index. *)
Definition report (format : string) (failed : option (nat * channel.error))
  : option channel.error :=
  match failed with
  | None => None
  | Some (_, err) => Some (channel.WithMessage err format)
  end.

Definition Encode (values : list Coder) (writer : World) : option channel.error * World :=
  let (failed, w') := each_from 0 values writer in
  (report "failed to encode %dth object (%T)" failed, w').

Definition Decode (values : list Coder) (reader : World) : option channel.error * World :=
  let (failed, r') := each_from 0 values reader in
  (report "failed to decode %dth object (%T)" failed, r').

(** All of [values] succeed one after the other. *)
Fixpoint pass (values : list Coder) (w : World) : option World :=
  match values with
  | [] => Some w
  | v :: rest =>
      match v w with
      | (None, w') => pass rest w'
      | (Some _, _) => None
      end
  end.

End Loops.

Arguments each_from {World} i values w.
Arguments Encode {World} values writer.
Arguments Decode {World} values reader.
Arguments pass {World} values w.

End serial.

(** ** More sample data *)
Module scenario.

Import channel.

(** The position of an address in a list, -1 when it is not there. *)
Fixpoint IndexOfAddr_from (i : Z) (addrs : list wallet.Address) (a : wallet.Address) : Z :=
  match addrs with
  | [] => (-1)%Z
  | b :: rest => if bool_decide (b = a) then i else IndexOfAddr_from (i + 1)%Z rest a
  end.

Definition IndexOfAddr : list wallet.Address -> wallet.Address -> Z := IndexOfAddr_from 0.

(** Alice's new machine, and what she and Bob do to open the channel. *)
Definition m_new : machine :=
  {| phase := InitActing; acc := sim.alice; idx := 0; params := sim.params0;
     stagingTX := Transaction_zero; currentTX := Transaction_zero;
     prevTXs := []; subs := fun _ => [] |}.

Definition opening : list automaton.Step :=
  [ automaton.Stage InitSigning (Some (sim.state 0 100 100 false));
    automaton.Do OpSig;
    automaton.Do (OpAddSig 1 (Some (wallet.Address_of sim.bob)));
    automaton.Do OpEnableInit;
    automaton.Do OpSetFunded ].

Definition m_init_signing : machine :=
  with_phase InitSigning (with_stagingTX (sim.unsigned (sim.state 0 100 100 false)) m_new).

(** A registry that counts what it was asked for, and names a peer after
    the first byte of its address. *)
Definition Get (asked : nat) (a : wallet.Address) : option nat * nat :=
  (Some (match a with b :: _ => N.to_nat (Byte.to_N b) | [] => 0 end), S asked).

Definition Subscribe (p : option nat) : option error := None.

(** A receiver on which peer 12 cannot be subscribed. *)
Definition Subscribe_but_12 (p : option nat) : option error :=
  if bool_decide (p = Some 12) then Some (New "peer closed") else None.

(** Alice's connection to Bob, who is peer 11, and Bob's signature on the
    initial state as it arrives from him. *)
Definition to_bob : conn.channelConn :=
  {| conn.subscribed := [Some 11]; conn.broadcast := [Some 11];
     conn.peerIdx := {[ Some 11 := 1 ]} |}.

Definition from_bob : peer.msgTuple (option nat) (option conn.WireMsg) :=
  {| peer.tuple_Peer := Some 11;
     peer.tuple_Msg := Some (conn.ChannelMessage (client.MsgUpdateAcc
       {| client.ChannelID := sim.cid; client.AccVersion := 0;
          client.AccSig := Some (wallet.Address_of sim.bob) |})) |}.

(** The same on Bob's side, for whom Alice is peer 10. *)
Definition m_init_signing_bob : machine :=
  {| phase := InitSigning; acc := sim.bob; idx := 1; params := sim.params0;
     stagingTX := sim.unsigned (sim.state 0 100 100 false);
     currentTX := Transaction_zero; prevTXs := []; subs := fun _ => [] |}.

Definition to_alice : conn.channelConn :=
  {| conn.subscribed := [Some 10]; conn.broadcast := [Some 10];
     conn.peerIdx := {[ Some 10 := 0 ]} |}.

(** A state of two participants whose balances are the numbers at the
    locations 1 and 2 of the heap, and an amount at location 3. *)
Definition two_party : roles.State :=
  {| roles.OfParts := [[1]; [2]]; roles.Version := 0 |}.

Definition heap : gmap nat Z := {[ 1 := 100%Z; 2 := 100%Z; 3 := 10%Z ]}.

End scenario.

(** * Properties *)

(** ** The phase automaton *)
Section MachineProperties.

Import channel.

Variable Sign : wallet.Account -> Params -> option State -> wallet.Sig * option error.
Variable Verify : wallet.Address -> Params -> option State -> wallet.Sig -> bool * option error.

Lemma validPhaseTransitions_legal (a b : Phase) :
  validPhaseTransitions {| TFrom := a; TTo := b |} = true <-> legal a b.
Proof.
  split.
  - destruct a, b; vm_compute; intros H; try discriminate H; constructor.
  - intros H; destruct H; reflexivity.
Qed.

Lemma expect_None (m : machine) (tr : PhaseTransition) :
  expect m tr = None <-> phase m = TFrom tr /\ legal (TFrom tr) (TTo tr).
Proof.
  unfold expect. destruct (decide (phase m = TFrom tr)) as [Heq | Hne].
  - rewrite Heq.
    destruct (validPhaseTransitions _) eqn:Hv.
    + apply validPhaseTransitions_legal in Hv. tauto.
    + split; [discriminate |]. intros [_ Hl].
      apply validPhaseTransitions_legal in Hl. congruence.
  - split; [discriminate | tauto].
Qed.

Lemma expect_Some (m : machine) (tr : PhaseTransition) (e : error) :
  expect m tr = Some e ->
  exists msg, e = PhaseTransitionError (ID_of m) (phase m) tr msg.
Proof.
  unfold expect, machine_error. intros H.
  repeat case_match; inversion H; eauto.
Qed.

Lemma inPhase_signing (ph : Phase) :
  inPhase ph signingPhases = true <-> ph = InitSigning \/ ph = Signing.
Proof.
  destruct ph; vm_compute; split; intros H; try discriminate H; auto;
    destruct H as [H | H]; discriminate H.
Qed.

(** Unfolds a call down to the phase check and the slices it reads. *)
Ltac open_call :=
  unfold Sig, AddSig, EnableInit, EnableUpdate, EnableFinal, enableStaged,
    DiscardUpdate, SetFunded, SetSettled, error_of, setPhase.

Lemma call_phase (op : Op) (m : machine) :
  phase (machine_after (call Sign Verify op m)) = phase m \/
  legal (phase m) (phase (machine_after (call Sign Verify op m))).
Proof.
  destruct op; cbn [call]; open_call.
  all: try (destruct (expect m _) eqn:He; [left; reflexivity |];
            apply expect_None in He; destruct He as [He Hl]; cbn in He, Hl;
            repeat case_match; cbn; rewrite ?He; auto; right; exact Hl).
  all: repeat case_match; simplify_eq; cbn; auto.
Qed.

Lemma call_error_unchanged (op : Op) (m : machine) e m' sent :
  call Sign Verify op m = Returns (Some e) m' sent -> m' = m /\ sent = [].
Proof.
  destruct op; cbn [call]; open_call;
    intros H; repeat case_match; simplify_eq; auto.
Qed.

Lemma call_panic_unchanged (op : Op) (m : machine) m' :
  call Sign Verify op m = Panics m' -> m' = m.
Proof.
  destruct op; cbn [call]; open_call;
    intros H; repeat case_match; simplify_eq; auto.
Qed.

Lemma call_illegal (op : Op) (m : machine) :
  legal_in op (phase m) = false ->
  exists e msg,
    call Sign Verify op m = Returns (Some e) m [] /\
    Cause e = PhaseTransitionError (ID_of m) (phase m) (attempted op m) msg.
Proof.
  intros Hl.
  destruct op; cbn [call legal_in attempted] in *; open_call;
    unfold expect, machine_error.
  all: try (rewrite Hl; cbn; eauto).
  all: apply bool_decide_eq_false in Hl; cbn [TFrom TTo];
    destruct (decide (phase m = _)) as [Heq | _]; [contradiction |]; cbn; eauto.
Qed.

(** C2.  The table of legal transitions holds exactly the seven
    transitions InitActing->InitSigning, InitSigning->Funding,
    Funding->Acting, Acting->Signing, Signing->Acting, Signing->Final and
    Final->Settled.  [expect] lets a transition pass exactly when the
    machine is in its from-phase and the transition is one of the seven,
    and otherwise answers a phase-transition error that carries the
    current phase and the attempted transition.  Every operation (Sig,
    AddSig, EnableInit, EnableUpdate, EnableFinal, DiscardUpdate,
    SetFunded, SetSettled) leaves the phase as it is or moves it along one
    of the seven; called in a phase in which it is not legal it returns a
    phase-transition error with the current phase and its transition; and
    whenever it returns an error, or panics, the machine (phase, stagingTX,
    currentTX, prevTXs and the rest) is as it was and no subscriber was
    notified. *)
Theorem machine_phase_transitions (m : machine) :
  (forall a b, validPhaseTransitions {| TFrom := a; TTo := b |} = true <-> legal a b) /\
  (forall tr,
     (expect m tr = None <-> phase m = TFrom tr /\ legal (TFrom tr) (TTo tr)) /\
     (forall e, expect m tr = Some e ->
        exists msg, e = PhaseTransitionError (ID_of m) (phase m) tr msg)) /\
  (forall op,
     (phase (machine_after (call Sign Verify op m)) = phase m \/
      legal (phase m) (phase (machine_after (call Sign Verify op m)))) /\
     (legal_in op (phase m) = false ->
        exists e msg,
          call Sign Verify op m = Returns (Some e) m [] /\
          Cause e = PhaseTransitionError (ID_of m) (phase m) (attempted op m) msg) /\
     (forall e m' sent,
        call Sign Verify op m = Returns (Some e) m' sent -> m' = m /\ sent = []) /\
     (forall m', call Sign Verify op m = Panics m' -> m' = m)).
Proof.
  split; [exact validPhaseTransitions_legal |].
  split.
  - intros tr. split; [apply expect_None | apply expect_Some].
  - intros op. split; [apply call_phase |].
    split; [apply call_illegal |].
    split; [apply call_error_unchanged | apply call_panic_unchanged].
Qed.

End MachineProperties.

(** ** Validity of a transition *)
Section TransitionProperties.

Import channel.

Variable Equals : wallet.Address -> wallet.Address -> bool.
Variable Valid : Allocation -> option error.
Variable equalSum : Allocation -> Allocation -> bool * option error.

Lemma validTransition_pure (to : State) (m : machine) :
  machine_after (validTransition Equals Valid equalSum to m) = m /\
  forall r m' sent,
    validTransition Equals Valid equalSum to m = Returns r m' sent -> m' = m /\ sent = [].
Proof.
  unfold validTransition. split; [| intros r m' sent H];
    repeat case_match; simplify_eq; auto.
Qed.

Lemma validTransition_ok (to : State) (m : machine) :
  validTransition Equals Valid equalSum to m = Returns None m [] <->
  exists cur, TState (currentTX m) = Some cur /\ checks Equals Valid equalSum cur to m.
Proof.
  unfold validTransition, checks. split.
  - intros H. repeat case_match; simplify_eq.
    eexists; split; [reflexivity |].
    repeat match goal with
           | H : negb _ = false |- _ => apply negb_false_iff in H
           | H : bool_decide _ = true |- _ => apply bool_decide_eq_true in H
           end.
    destruct (IsFinal _); [discriminate |].
    repeat split; congruence.
  - intros (cur & Hcur & Hid & Happ & Hfin & Hver & Hval & Hsum).
    rewrite Hcur, Happ, Hfin, Hval, Hsum, (bool_decide_eq_true_2 _ Hid),
      (bool_decide_eq_true_2 _ (eq_sym Hver)). reflexivity.
Qed.

Lemma validTransition_fails (to : State) (m : machine) (cur : State) :
  TState (currentTX m) = Some cur ->
  ~ checks Equals Valid equalSum cur to m ->
  exists e, validTransition Equals Valid equalSum to m = Returns (Some e) m [].
Proof.
  intros Hcur Hn.
  destruct (validTransition Equals Valid equalSum to m) as [[e |] m' sent | m'] eqn:Hv.
  - destruct (validTransition_pure to m) as [_ Hs].
    destruct (Hs _ _ _ Hv) as [-> ->]. eauto.
  - destruct (validTransition_pure to m) as [_ Hs].
    destruct (Hs _ _ _ Hv) as [-> ->].
    apply validTransition_ok in Hv. destruct Hv as (cur' & Hc & Hchk).
    rewrite Hcur in Hc. simplify_eq. contradiction.
  - unfold validTransition in Hv. rewrite Hcur in Hv.
    repeat case_match; simplify_eq.
Qed.

Lemma add64_no_wrap (v : N) : (v + 1 < 2 ^ 64)%N -> add64 v 1 = (v + 1)%N.
Proof. intros H. unfold add64. apply N.mod_small. exact H. Qed.

(** C3.  [validTransition(to)] succeeds if and only if the machine has a
    current state and the six checks hold: [to.ID] is the id of the
    parameters, the app definition of [to] equals the one of the
    parameters, the current state is not final, [to.Version] is the current
    version plus one (in [uint64], which is the sum itself unless the
    current version is the largest one), [to.Allocation] is valid, and the
    sums of the current and the new allocation are equal.  When the machine
    has a current state and a check fails, an error is returned.  In every
    case the machine is as it was. *)
Theorem validTransition_iff_checks (to : State) (m : machine) :
  (validTransition Equals Valid equalSum to m = Returns None m [] <->
   exists cur, TState (currentTX m) = Some cur /\ checks Equals Valid equalSum cur to m) /\
  (forall cur, TState (currentTX m) = Some cur ->
     ~ checks Equals Valid equalSum cur to m ->
     exists e, validTransition Equals Valid equalSum to m = Returns (Some e) m []) /\
  (forall r m' sent,
     validTransition Equals Valid equalSum to m = Returns r m' sent -> m' = m /\ sent = []) /\
  machine_after (validTransition Equals Valid equalSum to m) = m /\
  (forall cur : State, (Version cur + 1 < 2 ^ 64)%N ->
     add64 (Version cur) 1 = (Version cur + 1)%N).
Proof.
  split; [apply validTransition_ok |].
  split; [apply validTransition_fails |].
  split; [apply validTransition_pure |].
  split; [apply validTransition_pure |].
  intros cur. apply add64_no_wrap.
Qed.

End TransitionProperties.

(** ** Promotion of the staging transaction *)
Section PromotionProperties.

Import channel.

Lemma first_missing_filled (sigs : list wallet.Sig) (i : nat) :
  first_missing i sigs = None <-> filled sigs.
Proof.
  unfold filled. revert i.
  induction sigs as [| [s |] sigs IH]; intros i; cbn.
  - split; [constructor | reflexivity].
  - rewrite IH. split.
    + intros H. constructor; [discriminate | exact H].
    + intros H. inversion H; assumption.
  - split; [discriminate |]. intros H. inversion H; congruence.
Qed.

Lemma enableStaged_promotes (tr : PhaseTransition) (m : machine) :
  legal (TFrom tr) (TTo tr) ->
  promotes (enableStaged tr) (TFrom tr) (TTo tr) m.
Proof.
  intros Hl. unfold promotes, enableStaged, setPhase.
  split; [| split; [| split]].
  - intros m' sent H.
    destruct (expect m tr) eqn:He; [discriminate |].
    apply expect_None in He. destruct He as [He _].
    destruct (TState (stagingTX m)) as [st |] eqn:Hst; [| discriminate].
    destruct (negb _) eqn:Hfin; [discriminate |].
    destruct (first_missing 0 _) eqn:Hm; [discriminate |].
    apply first_missing_filled in Hm.
    simplify_eq. cbn. repeat split; try assumption.
    intros Hto. exists st. split; [reflexivity |].
    apply negb_false_iff, eqb_prop in Hfin. rewrite <- Hfin.
    apply bool_decide_eq_true_2. exact Hto.
  - intros st Hph Hst Hfin Hfilled.
    assert (He : expect m tr = None) by (apply expect_None; auto).
    apply (first_missing_filled _ 0) in Hfilled.
    rewrite He, Hst, Hfin, eqb_reflx, Hfilled. cbn. eauto.
  - intros e m' sent H. repeat case_match; simplify_eq; auto.
  - intros m' H. repeat case_match; simplify_eq; auto.
Qed.

(** C4.  EnableInit, EnableUpdate and EnableFinal succeed only when the
    machine is in the from-phase (InitSigning, Signing, Signing) and every
    slot of [stagingTX.Sigs] is filled, EnableFinal only when the staging
    state is final as well; on success the old [currentTX] is appended to
    [prevTXs], [stagingTX] becomes [currentTX], [stagingTX] is cleared and
    the phase is the target phase (Funding, Acting, Final); they do succeed
    when the phase is the from-phase, the slots are filled and the staging
    state is final exactly for EnableFinal; and on an error or a panic the
    machine is as it was. *)
Theorem enable_promotes_staging (m : machine) :
  promotes EnableInit InitSigning Funding m /\
  promotes EnableUpdate Signing Acting m /\
  promotes EnableFinal Signing Final m.
Proof.
  split; [| split].
  - apply (enableStaged_promotes {| TFrom := InitSigning; TTo := Funding |}). constructor.
  - apply (enableStaged_promotes {| TFrom := Signing; TTo := Acting |}). constructor.
  - apply (enableStaged_promotes {| TFrom := Signing; TTo := Final |}). constructor.
Qed.

Lemma enableStaged_mismatch (tr : PhaseTransition) (m : machine) (st : State) :
  TState (stagingTX m) = Some st ->
  IsFinal st <> bool_decide (TTo tr = Final) ->
  exists e msg, enableStaged tr m = Returns (Some e) m [] /\
    Cause e = PhaseTransitionError (ID_of m) (phase m) tr msg.
Proof.
  intros Hst Hne. unfold enableStaged.
  destruct (expect m tr) as [e |] eqn:He.
  - apply expect_Some in He. destruct He as [msg ->]. cbn. eauto.
  - rewrite Hst.
    destruct (negb _) eqn:Hfin.
    + unfold machine_error. cbn. eauto.
    + apply negb_false_iff, eqb_prop in Hfin. congruence.
Qed.

Lemma enableStaged_matches (tr : PhaseTransition) (m : machine) (st : State) m' sent :
  TState (stagingTX m) = Some st ->
  enableStaged tr m = Returns None m' sent ->
  (TTo tr = Final <-> IsFinal st = true).
Proof.
  intros Hst H.
  destruct (bool_decide_reflect (TTo tr = Final)) as [Hto | Hto].
  - destruct (IsFinal st) eqn:Hf; [tauto |].
    destruct (enableStaged_mismatch tr m st Hst) as (e & msg & He & _).
    + rewrite Hf. rewrite bool_decide_eq_true_2 by exact Hto. discriminate.
    + congruence.
  - destruct (IsFinal st) eqn:Hf; [| split; [contradiction | discriminate]].
    destruct (enableStaged_mismatch tr m st Hst) as (e & msg & He & _).
    + rewrite Hf. rewrite bool_decide_eq_false_2 by exact Hto. discriminate.
    + congruence.
Qed.

(** C10.  When the staging state is final, EnableInit and EnableUpdate fail
    with a phase-transition error and leave the machine as it was; when it
    is not final, EnableFinal fails in the same way; and whenever a
    promotion succeeds, its target phase is Final if and only if the staging
    state is final. *)
Theorem enable_requires_matching_finality (m : machine) (st : State) :
  TState (stagingTX m) = Some st ->
  (IsFinal st = true ->
     (exists e msg, EnableInit m = Returns (Some e) m [] /\
        Cause e = PhaseTransitionError (ID_of m) (phase m)
                    {| TFrom := InitSigning; TTo := Funding |} msg) /\
     (exists e msg, EnableUpdate m = Returns (Some e) m [] /\
        Cause e = PhaseTransitionError (ID_of m) (phase m)
                    {| TFrom := Signing; TTo := Acting |} msg)) /\
  (IsFinal st = false ->
     exists e msg, EnableFinal m = Returns (Some e) m [] /\
       Cause e = PhaseTransitionError (ID_of m) (phase m)
                   {| TFrom := Signing; TTo := Final |} msg) /\
  (forall tr m' sent, enableStaged tr m = Returns None m' sent ->
     (TTo tr = Final <-> IsFinal st = true)).
Proof.
  intros Hst. split; [| split].
  - intros Hf. split; apply (enableStaged_mismatch _ m st Hst); rewrite Hf; discriminate.
  - intros Hf. apply (enableStaged_mismatch _ m st Hst). rewrite Hf. discriminate.
  - intros tr m' sent. apply enableStaged_matches. exact Hst.
Qed.

(** The machine with a final update staged and signed by both: EnableInit
    and EnableUpdate fail on it, EnableFinal promotes it. *)
Lemma enable_requires_matching_finality_witness :
  TState (stagingTX sim.m_signing_final) = Some (sim.state 1 90 110 true) /\
  ((IsFinal (sim.state 1 90 110 true) = true ->
     (exists e msg, EnableInit sim.m_signing_final = Returns (Some e) sim.m_signing_final [] /\
        Cause e = PhaseTransitionError (ID_of sim.m_signing_final) (phase sim.m_signing_final)
                    {| TFrom := InitSigning; TTo := Funding |} msg) /\
     (exists e msg, EnableUpdate sim.m_signing_final = Returns (Some e) sim.m_signing_final [] /\
        Cause e = PhaseTransitionError (ID_of sim.m_signing_final) (phase sim.m_signing_final)
                    {| TFrom := Signing; TTo := Acting |} msg)) /\
  (IsFinal (sim.state 1 90 110 true) = false ->
     exists e msg, EnableFinal sim.m_signing_final = Returns (Some e) sim.m_signing_final [] /\
       Cause e = PhaseTransitionError (ID_of sim.m_signing_final) (phase sim.m_signing_final)
                   {| TFrom := Signing; TTo := Final |} msg) /\
  (forall tr m' sent, enableStaged tr sim.m_signing_final = Returns None m' sent ->
     (TTo tr = Final <-> IsFinal (sim.state 1 90 110 true) = true))).
Proof.
  split; [reflexivity |].
  apply (enable_requires_matching_finality sim.m_signing_final (sim.state 1 90 110 true)).
  reflexivity.
Defined.

End PromotionProperties.

(** ** Signatures *)
Section SignatureProperties.

Import channel.

Variable Sign : wallet.Account -> Params -> option State -> wallet.Sig * option error.
Variable Verify : wallet.Address -> Params -> option State -> wallet.Sig -> bool * option error.

Lemma AddSig_signing (i : Index) (sig : wallet.Sig) (m : machine) :
  inPhase (phase m) signingPhases = true ->
  (forall m' sent,
     AddSig Verify i sig m = Returns None m' sent <->
     (Sigs (stagingTX m) !! i = Some None /\
      (exists part, Parts (params m) !! i = Some part /\
         Verify part (params m) (TState (stagingTX m)) sig = (true, None)) /\
      m' = with_sig i sig m /\ sent = [])) /\
  (forall m' sent,
     AddSig Verify i sig m = Returns None m' sent ->
     Sigs (stagingTX m') !! i = Some sig /\
     forall j, j <> i -> Sigs (stagingTX m') !! j = Sigs (stagingTX m) !! j) /\
  (forall s, Sigs (stagingTX m) !! i = Some (Some s) ->
     exists e, AddSig Verify i sig m = Returns (Some e) m []) /\
  (forall part, Sigs (stagingTX m) !! i = Some None ->
     Parts (params m) !! i = Some part ->
     Verify part (params m) (TState (stagingTX m)) sig <> (true, None) ->
     exists e, AddSig Verify i sig m = Returns (Some e) m []) /\
  (length (Sigs (stagingTX m)) <= i -> AddSig Verify i sig m = Panics m) /\
  (Sigs (stagingTX m) !! i = Some None -> length (Parts (params m)) <= i ->
     AddSig Verify i sig m = Panics m).
Proof.
  intros Hph. unfold AddSig. rewrite Hph. cbn [negb].
  split; [| split; [| split; [| split; [| split]]]].
  - intros m' sent. split.
    + intros H. repeat case_match; simplify_eq. eauto 10.
    + intros (Hs & (part & Hp & Hv) & -> & ->). rewrite Hs, Hp, Hv. reflexivity.
  - intros m' sent H. repeat case_match; simplify_eq. cbn. split.
    + apply list_lookup_insert_eq. eapply lookup_lt_Some; eassumption.
    + intros j Hj. apply list_lookup_insert_ne. congruence.
  - intros s Hs. rewrite Hs. eauto.
  - intros part Hs Hp Hv. rewrite Hs, Hp.
    destruct (Verify _ _ _ _) as [[|] [e|]]; eauto. contradiction.
  - intros Hlen. apply lookup_ge_None in Hlen. rewrite Hlen. reflexivity.
  - intros Hs Hlen. apply lookup_ge_None in Hlen. rewrite Hs, Hlen. reflexivity.
Qed.

Lemma AddSig_not_signing (i : Index) (sig : wallet.Sig) (m : machine) :
  inPhase (phase m) signingPhases = false ->
  exists msg, AddSig Verify i sig m =
    Returns (Some (PhaseTransitionError (ID_of m) (phase m) (selfTransition m) msg)) m [].
Proof. intros Hph. unfold AddSig, machine_error. rewrite Hph. cbn. eauto. Qed.

(** C5.  In a signing phase, [AddSig(idx, sig)] succeeds exactly when the
    slot [stagingTX.Sigs[idx]] is empty and [sig] verifies against
    [parts[idx]] over the staging state, and then the slot holds [sig] and
    no other slot has changed; when the slot is filled, or the signature
    does not verify, an error is returned and the machine is as it was; an
    index beyond the signature slots, or beyond the participants, panics.
    Outside of a signing phase it returns a phase-transition error and
    changes nothing. *)
Theorem AddSig_checks_slot_and_signature (i : Index) (sig : wallet.Sig) (m : machine) :
  (inPhase (phase m) signingPhases = true ->
   (forall m' sent,
      AddSig Verify i sig m = Returns None m' sent <->
      (Sigs (stagingTX m) !! i = Some None /\
       (exists part, Parts (params m) !! i = Some part /\
          Verify part (params m) (TState (stagingTX m)) sig = (true, None)) /\
       m' = with_sig i sig m /\ sent = [])) /\
   (forall m' sent,
      AddSig Verify i sig m = Returns None m' sent ->
      Sigs (stagingTX m') !! i = Some sig /\
      forall j, j <> i -> Sigs (stagingTX m') !! j = Sigs (stagingTX m) !! j) /\
   (forall s, Sigs (stagingTX m) !! i = Some (Some s) ->
      exists e, AddSig Verify i sig m = Returns (Some e) m []) /\
   (forall part, Sigs (stagingTX m) !! i = Some None ->
      Parts (params m) !! i = Some part ->
      Verify part (params m) (TState (stagingTX m)) sig <> (true, None) ->
      exists e, AddSig Verify i sig m = Returns (Some e) m []) /\
   (length (Sigs (stagingTX m)) <= i -> AddSig Verify i sig m = Panics m) /\
   (Sigs (stagingTX m) !! i = Some None -> length (Parts (params m)) <= i ->
      AddSig Verify i sig m = Panics m)) /\
  (inPhase (phase m) signingPhases = false ->
   exists msg, AddSig Verify i sig m =
     Returns (Some (PhaseTransitionError (ID_of m) (phase m) (selfTransition m) msg)) m []) /\
  (inPhase (phase m) signingPhases = true <-> phase m = InitSigning \/ phase m = Signing).
Proof.
  split; [apply AddSig_signing |].
  split; [apply AddSig_not_signing | apply inPhase_signing].
Qed.

Lemma Sig_signing (m : machine) :
  inPhase (phase m) signingPhases = true ->
  (forall sig, Sigs (stagingTX m) !! idx m = Some None ->
     Sign (acc m) (params m) (TState (stagingTX m)) = (sig, None) ->
     Sig Sign m = Returns (sig, None) (with_sig (idx m) sig m) [] /\
     Sigs (stagingTX (with_sig (idx m) sig m)) !! idx m = Some sig) /\
  (forall s, Sigs (stagingTX m) !! idx m = Some (Some s) ->
     Sig Sign m = Returns (Some s, None) m []) /\
  (forall s m' sent, Sig Sign m = Returns (Some s, None) m' sent ->
     forall Sign', Sig Sign' m' = Returns (Some s, None) m' []).
Proof.
  intros Hph. unfold Sig. rewrite Hph. cbn [negb].
  split; [| split].
  - intros sig Hs Hsign. rewrite Hs, Hsign. split; [reflexivity |].
    cbn. apply list_lookup_insert_eq. eapply lookup_lt_Some; eassumption.
  - intros s Hs. rewrite Hs. reflexivity.
  - intros s m' sent H Sign'.
    destruct (Sigs (stagingTX m) !! idx m) as [[s0 |] |] eqn:Hs; [| | discriminate H].
    + simplify_eq. rewrite Hph, Hs. reflexivity.
    + destruct (Sign _ _ _) as [sig [e |]]; simplify_eq.
      unfold with_sig, with_stagingTX. cbn [phase stagingTX idx Sigs].
      rewrite Hph. cbn [negb].
      rewrite list_lookup_insert_eq by (eapply lookup_lt_Some; eassumption).
      reflexivity.
Qed.

Lemma Sig_not_signing (m : machine) :
  inPhase (phase m) signingPhases = false ->
  exists msg, Sig Sign m =
    Returns (None, Some (PhaseTransitionError (ID_of m) (phase m) (selfTransition m) msg)) m [].
Proof. intros Hph. unfold Sig, machine_error. rewrite Hph. cbn. eauto. Qed.

(** C7.  In a signing phase, when the own slot is empty and signing
    succeeds, [Sig] returns the signature that [Sign] made with the
    machine's account over the staging state and stores it in
    [stagingTX.Sigs[idx]]; when the slot is filled it returns what the slot
    holds; and after any call that returned a signature, a second call
    returns the identical signature and leaves the machine as it is,
    whatever a signer would produce then.  In any other phase [Sig] returns
    a phase-transition error and changes nothing. *)
Theorem Sig_memoizes (m : machine) :
  (inPhase (phase m) signingPhases = true ->
   (forall sig, Sigs (stagingTX m) !! idx m = Some None ->
      Sign (acc m) (params m) (TState (stagingTX m)) = (sig, None) ->
      Sig Sign m = Returns (sig, None) (with_sig (idx m) sig m) [] /\
      Sigs (stagingTX (with_sig (idx m) sig m)) !! idx m = Some sig) /\
   (forall s, Sigs (stagingTX m) !! idx m = Some (Some s) ->
      Sig Sign m = Returns (Some s, None) m []) /\
   (forall s m' sent, Sig Sign m = Returns (Some s, None) m' sent ->
      forall Sign', Sig Sign' m' = Returns (Some s, None) m' [])) /\
  (inPhase (phase m) signingPhases = false ->
   exists msg, Sig Sign m =
     Returns (None, Some (PhaseTransitionError (ID_of m) (phase m) (selfTransition m) msg))
       m []) /\
  (inPhase (phase m) signingPhases = true <-> phase m = InitSigning \/ phase m = Signing).
Proof.
  split; [apply Sig_signing |].
  split; [apply Sig_not_signing | apply inPhase_signing].
Qed.

End SignatureProperties.

(** ** Responders *)
Section ResponderProperties.

Import client.

Variable proposal_side : ctxProposalAcc + ctxProposalRej -> option channel.error.
Variable update_side : Context_ + ctxUpdateRej -> option channel.error.

Lemma proposal_first (c : ProposalCall) (r : ProposalResponder) :
  pcalled r = false ->
  exists r',
    proposal_call proposal_side c r = Responded (proposal_side (proposal_handed c)) r' /\
    pcalled r' = true.
Proof.
  intros H. destruct r as [a j f]; cbn in H; subst f.
  destruct c; cbn; eauto.
Qed.

Lemma proposal_again (c : ProposalCall) (r : ProposalResponder) :
  pcalled r = true ->
  exists msg, proposal_call proposal_side c r = LogPanic msg r.
Proof.
  intros H. destruct r as [a j f]; cbn in H; subst f.
  destruct c; cbn; eauto.
Qed.

Lemma update_first (c : UpdateCall) (r : UpdateResponder) :
  ucalled r = false ->
  exists r',
    update_call update_side c r = Responded (update_side (update_handed c)) r' /\
    ucalled r' = true.
Proof.
  intros H. destruct r as [a j f]; cbn in H; subst f.
  destruct c; cbn; eauto.
Qed.

Lemma update_again (c : UpdateCall) (r : UpdateResponder) :
  ucalled r = true ->
  exists msg, update_call update_side c r = LogPanic msg r.
Proof.
  intros H. destruct r as [a j f]; cbn in H; subst f.
  destruct c; cbn; eauto.
Qed.

Lemma calls_all_panic {C R} (call : C -> R -> response R) (flag : R -> bool) :
  (forall c r, flag r = true -> exists msg, call c r = LogPanic msg r) ->
  forall cs r, flag r = true ->
    map proceeds (calls call cs r) = replicate (length cs) false.
Proof.
  intros Hcall cs. induction cs as [| c cs IH]; intros r Hr; [reflexivity |].
  cbn. destruct (Hcall c r Hr) as [msg ->]. cbn. f_equal. apply IH. exact Hr.
Qed.

Lemma calls_first {C R} (call : C -> R -> response R) (flag : R -> bool) :
  (forall c r, flag r = false -> exists e r', call c r = Responded e r' /\ flag r' = true) ->
  (forall c r, flag r = true -> exists msg, call c r = LogPanic msg r) ->
  forall c cs r, flag r = false ->
    map proceeds (calls call (c :: cs) r) = true :: replicate (length cs) false.
Proof.
  intros Hfirst Hagain c cs r Hr.
  cbn. destruct (Hfirst c r Hr) as (e & r' & -> & Hr'). cbn. f_equal.
  apply (calls_all_panic call flag Hagain). exact Hr'.
Qed.

(** C6.  On a proposal responder and on an update responder alike: a call
    of Accept or Reject that finds the flag unset sets it, hands its
    arguments to the protocol side and returns what that side answers; a
    call that finds the flag set panics and hands nothing over; so of any
    calls made on a new responder, of either kind and in any order, the
    first one proceeds and every later one panics. *)
Theorem responder_admits_one_call :
  (forall c r, pcalled r = false ->
     exists r',
       proposal_call proposal_side c r = Responded (proposal_side (proposal_handed c)) r' /\
       pcalled r' = true) /\
  (forall c r, pcalled r = true ->
     exists msg, proposal_call proposal_side c r = LogPanic msg r) /\
  (forall c cs,
     map proceeds (calls (proposal_call proposal_side) (c :: cs) newProposalResponder)
     = true :: replicate (length cs) false) /\
  (forall c r, ucalled r = false ->
     exists r',
       update_call update_side c r = Responded (update_side (update_handed c)) r' /\
       ucalled r' = true) /\
  (forall c r, ucalled r = true ->
     exists msg, update_call update_side c r = LogPanic msg r) /\
  (forall c cs,
     map proceeds (calls (update_call update_side) (c :: cs) newUpdateResponder)
     = true :: replicate (length cs) false).
Proof.
  split; [exact proposal_first |].
  split; [exact proposal_again |].
  split.
  { intros c cs. apply (calls_first _ pcalled); [| exact proposal_again | reflexivity].
    intros c0 r Hr. destruct (proposal_first c0 r Hr) as (r' & H & Hr'). eauto. }
  split; [exact update_first |].
  split; [exact update_again |].
  intros c cs. apply (calls_first _ ucalled); [| exact update_again | reflexivity].
  intros c0 r Hr. destruct (update_first c0 r Hr) as (r' & H & Hr'). eauto.
Qed.

End ResponderProperties.

(** ** The receiver *)
Section ReceiverProperties.

Import peer.

Variables Peer Msg : Type.

Lemma Next_entry (done1 done2 : bool) (r1 r2 : Receiver Peer Msg) :
  done1 = true \/ closed r1 = true ->
  Next done1 r1 done2 r2 = [(None, r1)].
Proof.
  unfold Next. intros [-> | Hc]; [reflexivity |].
  rewrite Hc. destruct done1; reflexivity.
Qed.

Lemma Next_results (done1 done2 : bool) (r1 r2 : Receiver Peer Msg) res r' :
  In (res, r') (Next done1 r1 done2 r2) ->
  (res = None /\ (done1 = true \/ closed r1 = true) /\ r' = r1) \/
  (res = None /\ (done2 = true \/ closed r2 = true) /\ r' = r2) \/
  (exists tuple q, buf (msgs r2) = tuple :: q /\ res = Some tuple /\
                   r' = with_buf q r2 /\ done1 = false /\ closed r1 = false).
Proof.
  unfold Next, ready.
  destruct done1; [intros [H | []]; inversion H; left; auto |].
  destruct (closed r1) eqn:Hc1; [intros [H | []]; inversion H; left; auto |].
  rewrite !map_app, !in_app_iff.
  intros [H | [H | H]].
  - destruct done2; cbn in H; [| contradiction].
    destruct H as [H | []]. inversion H. right; left; auto.
  - destruct (closed r2); cbn in H; [| contradiction].
    destruct H as [H | []]. inversion H. right; left; auto.
  - destruct (buf (msgs r2)) as [| t q] eqn:Hb; cbn in H; [contradiction |].
    destruct H as [H | []]. rewrite Hb in H. inversion H. right; right. eauto 10.
Qed.

Lemma Next_dequeues (r1 r2 : Receiver Peer Msg) tuple q :
  closed r1 = false -> closed r2 = false ->
  buf (msgs r2) = tuple :: q ->
  Next false r1 false r2 = [(Some tuple, with_buf q r2)].
Proof.
  intros H1 H2 Hb. unfold Next, ready, take_case. rewrite H1, H2, Hb. reflexivity.
Qed.

Lemma Next_iff (done1 done2 : bool) (r1 r2 : Receiver Peer Msg) res r' :
  In (res, r') (Next done1 r1 done2 r2) <->
  ((done1 = true \/ closed r1 = true) /\ res = None /\ r' = r1) \/
  (done1 = false /\ closed r1 = false /\
   (((done2 = true \/ closed r2 = true) /\ res = None /\ r' = r2) \/
    (exists t q, buf (msgs r2) = t :: q /\ res = Some t /\
       r' = {| msgs := {| buf := q; cap := cap (msgs r2) |}; closed := closed r2 |}))).
Proof.
  split.
  - intros H.
    destruct done1 eqn:Hd; [left; rewrite (Next_entry _ _ _ _ (or_introl eq_refl)) in H;
                            destruct H as [H | []]; inversion H; auto |].
    destruct (closed r1) eqn:Hc.
    { left. rewrite (Next_entry false done2 r1 r2 (or_intror Hc)) in H.
      destruct H as [H | []]; inversion H; auto. }
    right. split; [reflexivity |]. split; [reflexivity |].
    apply Next_results in H.
    destruct H as [(_ & [Hf | Hf] & _) | [H | (t & q & Hb & -> & -> & _)]];
      try congruence.
    + left. destruct H as (? & ? & ?). auto.
    + right. exists t, q. auto.
  - unfold Next, ready.
    intros [([-> | Hc] & -> & ->) | (-> & Hc & H)].
    + left. reflexivity.
    + rewrite Hc. destruct done1; left; reflexivity.
    + rewrite Hc, !map_app, !in_app_iff.
      destruct H as [([-> | Hc2] & -> & ->) | (t & q & Hb & -> & ->)].
      * left. left. reflexivity.
      * right. left. rewrite Hc2. left. reflexivity.
      * right. right. rewrite Hb. left. cbn [take_case]. rewrite Hb. reflexivity.
Qed.

Lemma Next_blocked (done1 done2 : bool) (r1 r2 : Receiver Peer Msg) :
  Next done1 r1 done2 r2 = [] <->
  done1 = false /\ closed r1 = false /\ done2 = false /\ closed r2 = false /\
  buf (msgs r2) = [].
Proof.
  unfold Next, ready. split.
  - destruct done1; [discriminate |]. destruct (closed r1); [discriminate |].
    destruct done2; [discriminate |]. destruct (closed r2); [discriminate |].
    destruct (buf (msgs r2)); [auto | discriminate].
  - intros (-> & -> & -> & -> & ->). reflexivity.
Qed.

Lemma Put_iff (p : Peer) (m : Msg) (r r' : Receiver Peer Msg) :
  In r' (Put p m r) <->
  (length (buf (msgs r)) < cap (msgs r) /\
   r' = {| msgs := {| buf := buf (msgs r) ++ [{| tuple_Peer := p; tuple_Msg := m |}];
                      cap := cap (msgs r) |};
           closed := closed r |}) \/
  (closed r = true /\ r' = r).
Proof.
  unfold Put. rewrite in_app_iff. split.
  - intros [H | H].
    + destruct (decide _) as [Hlt |]; [| contradiction].
      destruct H as [<- | []]. left. auto.
    + destruct (closed r); [| contradiction]. destruct H as [<- | []]. right. auto.
  - intros [[Hlt ->] | [Hc ->]].
    + left. destruct (decide _); [left; reflexivity | contradiction].
    + right. rewrite Hc. left. reflexivity.
Qed.

Lemma Put_blocked (p : Peer) (m : Msg) (r : Receiver Peer Msg) :
  Put p m r = [] <-> cap (msgs r) <= length (buf (msgs r)) /\ closed r = false.
Proof.
  unfold Put. split.
  - destruct (decide _) as [Hlt | Hge]; [discriminate |].
    destruct (closed r); [discriminate |]. split; [lia | reflexivity].
  - intros [Hge ->]. destruct (decide _); [lia | reflexivity].
Qed.

Lemma reachable_bounded (r : Receiver Peer Msg) :
  reachable r -> cap (msgs r) = 16 /\ length (buf (msgs r)) <= 16.
Proof.
  induction 1 as [| r _ IH | p m r r' _ IH Hin | d1 d2 r1 r2 res r' _ IH1 _ IH2 Hin].
  - split; [reflexivity | cbn; lia].
  - exact IH.
  - apply Put_iff in Hin. destruct IH as [Hcap Hlen].
    destruct Hin as [[Hlt ->] | [_ ->]]; [| auto].
    cbn [msgs buf cap]. rewrite length_app. cbn [length]. split; [exact Hcap | lia].
  - apply Next_iff in Hin.
    destruct Hin as [(_ & _ & ->) | (_ & _ & [(_ & _ & ->) | (t & q & Hb & _ & ->)])];
      [exact IH1 | exact IH2 |].
    destruct IH2 as [Hcap Hlen]. rewrite Hb in Hlen. cbn [msgs buf cap length] in *.
    split; [exact Hcap | lia].
Qed.

(** C8.  A new receiver is open and has an empty queue of capacity 16;
    whatever [Close], [Put] and [Next] make of it keeps that capacity and
    never holds more than 16 messages.  [Put] appends its tuple to the
    queue when there is room, may return without queueing when the receiver
    is closed, and blocks exactly when an open receiver is full.  [Next]
    returns [(nil, nil)], and leaves the queue alone, when the context is
    done or the receiver closed as it is entered, whatever is queued.
    Otherwise it blocks while the context is live, the receiver open and
    the queue empty, and returns once one of them changes: [(nil, nil)] if
    the context is done or the receiver closed by then, or the oldest
    queued tuple, which is taken off the queue, if there is one.  When
    both hold by then, either may happen: a message that was queued after
    the context expired or the receiver was closed is still returned in
    some runs.  No message is returned while none is queued. *)
Theorem Receiver_Next_and_capacity :
  NewReceiver Peer Msg = {| msgs := {| buf := []; cap := 16 |}; closed := false |} /\
  (forall r : Receiver Peer Msg,
     reachable r -> cap (msgs r) = 16 /\ length (buf (msgs r)) <= 16) /\
  (forall p m (r r' : Receiver Peer Msg),
     In r' (Put p m r) <->
     (length (buf (msgs r)) < cap (msgs r) /\
      r' = {| msgs := {| buf := buf (msgs r) ++ [{| tuple_Peer := p; tuple_Msg := m |}];
                         cap := cap (msgs r) |};
              closed := closed r |}) \/
     (closed r = true /\ r' = r)) /\
  (forall p m (r : Receiver Peer Msg),
     Put p m r = [] <-> cap (msgs r) <= length (buf (msgs r)) /\ closed r = false) /\
  (forall done1 done2 (r1 r2 : Receiver Peer Msg) res r',
     In (res, r') (Next done1 r1 done2 r2) <->
     ((done1 = true \/ closed r1 = true) /\ res = None /\ r' = r1) \/
     (done1 = false /\ closed r1 = false /\
      (((done2 = true \/ closed r2 = true) /\ res = None /\ r' = r2) \/
       (exists t q, buf (msgs r2) = t :: q /\ res = Some t /\
          r' = {| msgs := {| buf := q; cap := cap (msgs r2) |};
                  closed := closed r2 |})))) /\
  (forall done1 done2 (r1 r2 : Receiver Peer Msg),
     Next done1 r1 done2 r2 = [] <->
     done1 = false /\ closed r1 = false /\ done2 = false /\ closed r2 = false /\
     buf (msgs r2) = []) /\
  (forall events done (r : Receiver Peer Msg),
     done = true \/ closed r = true -> Next_after events done r = [(None, r)]) /\
  (forall events done (r : Receiver Peer Msg) res r',
     In (res, r') (Next_after events done r) ->
     buf (msgs (snd (after_events events done r))) = [] -> res = None) /\
  (forall p m (r : Receiver Peer Msg),
     closed r = false -> buf (msgs r) = [] -> 0 < cap (msgs r) ->
     In (Some {| tuple_Peer := p; tuple_Msg := m |}, r)
        (Next_after [Expires; Arrives p m] false r) /\
     In (Some {| tuple_Peer := p; tuple_Msg := m |}, Close r)
        (Next_after [Closes; Arrives p m] false r)).
Proof.
  split; [reflexivity |].
  split; [exact reachable_bounded |].
  split; [exact Put_iff |].
  split; [exact Put_blocked |].
  split; [exact Next_iff |].
  split; [exact Next_blocked |].
  split; [intros events done r H; apply Next_entry; exact H |].
  split.
  - intros events done r res r' Hin Hb. unfold Next_after in Hin.
    apply Next_iff in Hin.
    destruct Hin as [(_ & -> & _) | (_ & _ & [(_ & -> & _) | (t & q & Hq & _)])];
      try reflexivity.
    rewrite Hb in Hq. discriminate Hq.
  - intros p m [[q c] cl] Hc Hb Hcap. cbn [closed msgs buf cap] in Hc, Hb, Hcap. subst q cl.
    unfold Next_after, after_events. cbn [fold_left occur fst snd].
    unfold Put, Close, with_buf. cbn [closed msgs buf cap length].
    destruct (decide (0 < c)) as [_ | Hn]; [| contradiction].
    unfold Next, ready. cbn. auto.
Qed.

End ReceiverProperties.

(** [Next] does return a message after expiry was signalled before a
    message was available.  A call is entered with the context live and
    the queue of a new receiver empty; the context expires, and then a
    producer queues a message, both before the blocking [select] is
    decided: the message is among what the call may return. *)
Lemma Next_returns_message_queued_after_expiry :
  peer.buf (peer.msgs sim.idle) = [] /\
  peer.signalled_while_empty [peer.Expires; peer.Arrives 7 "late"%string] false sim.idle /\
  peer.Next_after [peer.Expires; peer.Arrives 7 "late"%string] false sim.idle
  = [(None, peer.with_buf [ {| peer.tuple_Peer := 7; peer.tuple_Msg := "late"%string |} ]
              sim.idle);
     (Some {| peer.tuple_Peer := 7; peer.tuple_Msg := "late"%string |}, sim.idle)].
Proof.
  split; [reflexivity |]. split; [| reflexivity].
  exists 1. split; [left; reflexivity | reflexivity].
Qed.

(** ** The wire format *)
Section WireProperties.

Import perunio.

Lemma byte_of_N_to_N (n : N) : (n < 256)%N -> Byte.to_N (wire.byte_of_N n) = n.
Proof.
  intros H. unfold wire.byte_of_N.
  destruct (Byte.of_N n) as [b |] eqn:Hb.
  - apply Byte.to_of_N. exact Hb.
  - apply Byte.of_N_None_iff in Hb. lia.
Qed.

Lemma be_bytes_length (w : nat) (n : N) : length (wire.be_bytes w n) = w.
Proof.
  revert n. induction w as [| w IH]; intros n; cbn; [reflexivity |].
  rewrite length_app, IH. cbn. lia.
Qed.

Lemma be_value_snoc (bytes : list Byte.byte) (b : Byte.byte) :
  wire.be_value (bytes ++ [b]) = (wire.be_value bytes * 256 + Byte.to_N b)%N.
Proof. unfold wire.be_value. rewrite fold_left_app. reflexivity. Qed.

Lemma be_value_be_bytes (w : nat) (n : N) :
  (n < 256 ^ N.of_nat w)%N -> wire.be_value (wire.be_bytes w n) = n.
Proof.
  revert n. induction w as [| w IH]; intros n Hn.
  - cbn in *. lia.
  - cbn [wire.be_bytes]. rewrite be_value_snoc.
    rewrite byte_of_N_to_N by (apply N.mod_lt; lia).
    rewrite IH.
    + rewrite N.mul_comm. symmetry. apply N.div_mod. lia.
    + apply N.Div0.div_lt_upper_bound.
      rewrite Nat2N.inj_succ, N.pow_succ_r' in Hn. exact Hn.
Qed.

Lemma read_exact (len : nat) (bytes rest : stream) :
  length bytes = len -> wire.read len (bytes ++ rest) = inr (bytes, rest).
Proof.
  intros <-. unfold wire.read.
  destruct (decide _) as [Hlt | _].
  - rewrite length_app in Hlt. lia.
  - rewrite take_app_length, drop_app_length. reflexivity.
Qed.

Lemma be_Decode_be_bytes (w : nat) (n : N) (rest : stream) :
  (n < 256 ^ N.of_nat w)%N ->
  wire.be_Decode w (wire.be_bytes w n ++ rest) = inr (n, rest).
Proof.
  intros Hn. unfold wire.be_Decode.
  rewrite read_exact by apply be_bytes_length.
  rewrite be_value_be_bytes by exact Hn. reflexivity.
Qed.

Lemma Uint64_lawful : Lawful wire.Uint64 wire.wf_Uint64.
Proof.
  intros n rest Hn. cbn [Encode Decode wire.Uint64]. apply be_Decode_be_bytes. exact Hn.
Qed.

Lemma Uint16_lawful : Lawful wire.Uint16 wire.wf_Uint16.
Proof.
  intros i rest Hi. cbn [Encode Decode wire.Uint16]. unfold wire.wf_Uint16 in Hi.
  rewrite be_Decode_be_bytes.
  - rewrite Nat2N.id. reflexivity.
  - exact Hi.
Qed.

Lemma ID_lawful : Lawful wire.ID wire.wf_ID.
Proof. intros cid rest Hc. cbn [Encode Decode wire.ID]. apply read_exact. exact Hc. Qed.

Lemma list_byte_of_string_length (s : string) :
  length (list_byte_of_string s) = String.length s.
Proof.
  induction s as [| a s IH]; cbn; [reflexivity |]. f_equal. exact IH.
Qed.

Lemma String_lawful : Lawful wire.String_ wire.wf_String.
Proof.
  intros s rest Hs. cbn [Encode Decode wire.String_]. unfold wire.wf_String in Hs.
  rewrite <- app_assoc, be_Decode_be_bytes.
  - rewrite Nat2N.id, read_exact by apply list_byte_of_string_length.
    rewrite string_of_list_byte_of_string. reflexivity.
  - exact Hs.
Qed.

Lemma Bytes_lawful : Lawful sim.Bytes sim.wf_Bytes.
Proof.
  intros bs rest Hbs. cbn [Encode Decode sim.Bytes]. unfold sim.wf_Bytes in Hbs.
  rewrite <- app_assoc, be_Decode_be_bytes by exact Hbs.
  cbn [sim.and_then]. rewrite Nat2N.id. apply read_exact. reflexivity.
Qed.

Lemma Bool_lawful : Lawful sim.Bool_ (fun _ => True).
Proof. intros [|] rest _; reflexivity. Qed.

Lemma BigInt_lawful : Lawful sim.BigInt sim.wf_BigInt.
Proof.
  intros z rest Hz. cbn [Encode Decode sim.BigInt]. unfold sim.wf_BigInt in Hz.
  rewrite <- app_assoc, (Bool_lawful _ _ I). cbn [sim.and_then].
  rewrite be_Decode_be_bytes by exact Hz. cbn [sim.and_then].
  f_equal. f_equal. rewrite N2Z.inj_abs_N.
  destruct (Z.ltb_spec z 0); lia.
Qed.

Lemma decode_n_encoded {A : Type} (S : Serializable A) (wf : A -> Prop)
  (l : list A) (rest : stream) :
  Lawful S wf -> Forall wf l ->
  sim.decode_n S (length l) (concat (map Encode l) ++ rest) = inr (l, rest).
Proof.
  intros LS Hl. induction Hl as [| a l Ha _ IH]; [reflexivity |].
  cbn [length map concat sim.decode_n]. rewrite <- app_assoc.
  rewrite (LS a _ Ha). cbn [sim.and_then]. rewrite IH. reflexivity.
Qed.

Lemma List_lawful {A : Type} (S : Serializable A) (wf : A -> Prop) :
  Lawful S wf -> Lawful (sim.List_ S) (sim.wf_List wf).
Proof.
  intros LS l rest [Hlen Hl]. cbn [Encode Decode sim.List_].
  rewrite <- app_assoc, be_Decode_be_bytes by exact Hlen.
  cbn [sim.and_then]. rewrite Nat2N.id. apply (decode_n_encoded S wf); assumption.
Qed.

Lemma SSubAlloc_lawful : Lawful sim.SSubAlloc sim.wf_SubAlloc.
Proof.
  intros a rest [Hid Hbals]. cbn [Encode Decode sim.SSubAlloc].
  rewrite <- app_assoc, read_exact by exact Hid. cbn [sim.and_then].
  rewrite (List_lawful _ _ BigInt_lawful _ _ Hbals). cbn [sim.and_then].
  destruct a. reflexivity.
Qed.

Lemma SState_lawful : Lawful sim.SState sim.wf_State.
Proof.
  intros st rest (Hid & Hv & Hdef & Hassets & Hparts & Hlocked & Hdata).
  cbn [Encode Decode sim.SState].
  rewrite <- !app_assoc, read_exact by exact Hid. cbn [sim.and_then].
  rewrite be_Decode_be_bytes by exact Hv. cbn [sim.and_then].
  rewrite (Bytes_lawful _ _ Hdef). cbn [sim.and_then].
  rewrite (List_lawful _ _ Bytes_lawful _ _ Hassets). cbn [sim.and_then].
  rewrite (List_lawful _ _ (List_lawful _ _ BigInt_lawful) _ _ Hparts). cbn [sim.and_then].
  rewrite (List_lawful _ _ SSubAlloc_lawful _ _ Hlocked). cbn [sim.and_then].
  rewrite (Bytes_lawful _ _ Hdata). cbn [sim.and_then].
  rewrite (Bool_lawful _ _ I). cbn [sim.and_then].
  destruct st as [c v [def] [assets parts locked] data final]. reflexivity.
Qed.

Lemma recovered_lawful {A : Type} (S : Serializable A) : Lawful S (recovered S).
Proof. intros a rest Ha. apply Ha. Qed.

Lemma DecodeSig_result (SigLen : nat) (r r' : stream) (sig : wallet.Sig) :
  backend.DecodeSig SigLen r = inr (sig, r') -> backend.wf_Sig SigLen sig.
Proof.
  unfold backend.DecodeSig, backend.ByteSlice_Decode.
  destruct (decide _) as [Hlt | Hge]; [discriminate |].
  intros H. inversion H. exists (take SigLen r). split; [reflexivity |].
  rewrite length_take. lia.
Qed.

Lemma DecodeSig_roundtrip (SigLen : nat) (sig : wallet.Sig) (rest : stream) :
  backend.wf_Sig SigLen sig ->
  backend.DecodeSig SigLen (backend.ByteSlice_Encode sig ++ rest) = inr (sig, rest).
Proof.
  intros (bytes & -> & Hlen). cbn.
  unfold backend.DecodeSig, backend.ByteSlice_Decode.
  destruct (decide _) as [Hlt | _].
  - rewrite length_app in Hlt. lia.
  - rewrite <- Hlen, take_app_length, drop_app_length. reflexivity.
Qed.

Lemma Decode2_roundtrip {A B : Type} (SA : Serializable A) (SB : Serializable B)
  (wfA : A -> Prop) (wfB : B -> Prop) (a : A) (b : B) (rest : stream) :
  Lawful SA wfA -> Lawful SB wfB -> wfA a -> wfB b ->
  Decode2 (Encode a ++ Encode b ++ rest) = inr (a, b, rest).
Proof.
  intros LA LB Ha Hb. unfold Decode2.
  rewrite (LA a _ Ha), (LB b _ Hb). reflexivity.
Qed.

Lemma Decode3_roundtrip {A B C : Type}
  (SA : Serializable A) (SB : Serializable B) (SC : Serializable C)
  (wfA : A -> Prop) (wfB : B -> Prop) (wfC : C -> Prop)
  (a : A) (b : B) (c : C) (rest : stream) :
  Lawful SA wfA -> Lawful SB wfB -> Lawful SC wfC -> wfA a -> wfB b -> wfC c ->
  Decode3 (Encode a ++ Encode b ++ Encode c ++ rest) = inr (a, b, c, rest).
Proof.
  intros LA LB LC Ha Hb Hc. unfold Decode3.
  rewrite (Decode2_roundtrip SA SB wfA wfB a b _ LA LB Ha Hb), (LC c _ Hc). reflexivity.
Qed.

Section Messages.

Import client.

Variable SState : Serializable channel.State.
Variable SUint16 : Serializable channel.Index.
Variable SUint64 : Serializable N.
Variable SID : Serializable channel.ID.
Variable SString : Serializable string.
Variable SigLen : nat.

Variable wfState : channel.State -> Prop.
Variable wfUint16 : channel.Index -> Prop.
Variable wfUint64 : N -> Prop.
Variable wfID : channel.ID -> Prop.
Variable wfString : string -> Prop.

Lemma ChannelMsg_Decode_result (t : MsgType) (r r' : stream) (m : ChannelMsg) :
  ChannelMsg_Decode SState SUint16 SUint64 SID SString SigLen t r = inr (m, r') ->
  ChannelMsg_Type m = t /\ backend.wf_Sig SigLen (ChannelMsg_Sig m).
Proof.
  destruct t; cbn [ChannelMsg_Decode];
    unfold msgChannelUpdate_Decode, msgChannelUpdateAcc_Decode, msgChannelUpdateRej_Decode;
    intros H.
  - destruct (Decode2 r) as [e | [[st actor] r1]]; [discriminate H |].
    destruct (backend.DecodeSig SigLen r1) as [e | [sig r2]] eqn:Hs; [discriminate H |].
    inversion H. split; [reflexivity |]. eapply DecodeSig_result. exact Hs.
  - destruct (Decode2 r) as [e | [[cid version] r1]]; [discriminate H |].
    destruct (backend.DecodeSig SigLen r1) as [e | [sig r2]] eqn:Hs; [discriminate H |].
    inversion H. split; [reflexivity |]. eapply DecodeSig_result. exact Hs.
  - destruct (Decode3 r) as [e | [[[reason alt] actor] r1]]; [discriminate H |].
    destruct (backend.DecodeSig SigLen r1) as [e | [sig r2]] eqn:Hs; [discriminate H |].
    inversion H. split; [reflexivity |]. eapply DecodeSig_result. exact Hs.
Qed.

(** C9.  Given formats of the integers, the channel id and the string
    that are lawful on the values of their wire types, a channel-update
    message (update, acceptance, rejection) whose fields are such values
    and whose state, if it carries one, is recovered by the format of
    states, is decoded by the decoder registered for its type, from its
    encoding followed by any further bytes, to the very same message with
    exactly those bytes left over, if and only if its signature has the
    length that the backend fixes.  Whatever a registered decoder returns,
    on any input, is a message of the decoder's type with a signature of
    that length. *)
Theorem channel_update_messages_roundtrip (m : ChannelMsg) (rest : stream) :
  Lawful SUint16 wfUint16 ->
  Lawful SUint64 wfUint64 ->
  Lawful SID wfID ->
  Lawful SString wfString ->
  wf_fields (recovered SState) wfUint16 wfUint64 wfID wfString m ->
  (ChannelMsg_Decode SState SUint16 SUint64 SID SString SigLen (ChannelMsg_Type m)
     (ChannelMsg_Encode SState SUint16 SUint64 SID SString m ++ rest) = inr (m, rest)
   <-> backend.wf_Sig SigLen (ChannelMsg_Sig m)) /\
  (forall t r m' r',
     ChannelMsg_Decode SState SUint16 SUint64 SID SString SigLen t r = inr (m', r') ->
     ChannelMsg_Type m' = t /\ backend.wf_Sig SigLen (ChannelMsg_Sig m')).
Proof.
  intros LUint16 LUint64 LID LString Hwf.
  split; [| intros t r m' r'; apply ChannelMsg_Decode_result].
  split; [intros H; apply ChannelMsg_Decode_result in H; apply H |].
  pose proof (recovered_lawful SState) as LState.
  destruct m as [[[st actor] sig] | [cid version sig] | [reason alt actor sig]];
    cbn [wf_fields State ActorIdx Proposal UpSig ChannelID AccVersion AccSig
           Reason Alt RejActorIdx RejSig] in Hwf;
    cbn [ChannelMsg_Decode ChannelMsg_Encode ChannelMsg_Type ChannelMsg_Sig
           UpSig AccSig RejSig]; intros Hsig.
  - destruct Hwf as (Hst & Hactor).
    unfold msgChannelUpdate_Decode, msgChannelUpdate_Encode.
    cbn [State ActorIdx Proposal UpSig]. rewrite <- !app_assoc.
    rewrite (Decode2_roundtrip _ _ _ _ st actor _ LState LUint16 Hst Hactor).
    rewrite (DecodeSig_roundtrip _ _ _ Hsig). reflexivity.
  - destruct Hwf as (Hcid & Hversion).
    unfold msgChannelUpdateAcc_Decode, msgChannelUpdateAcc_Encode.
    cbn [ChannelID AccVersion AccSig]. rewrite <- !app_assoc.
    rewrite (Decode2_roundtrip _ _ _ _ cid version _ LID LUint64 Hcid Hversion).
    rewrite (DecodeSig_roundtrip _ _ _ Hsig). reflexivity.
  - destruct Hwf as (Hreason & Halt & Hactor).
    unfold msgChannelUpdateRej_Decode, msgChannelUpdateRej_Encode.
    cbn [Reason Alt RejActorIdx RejSig]. rewrite <- !app_assoc.
    rewrite (Decode3_roundtrip _ _ _ _ _ _ reason alt actor _
               LString LState LUint16 Hreason Halt Hactor).
    rewrite (DecodeSig_roundtrip _ _ _ Hsig). reflexivity.
Qed.

End Messages.

End WireProperties.

(** The sample update, which carries a state with funds, encoded with the
    big-endian integer formats and the example format of states, and
    decoded with the Ethereum backend's signature length. *)
Lemma channel_update_messages_roundtrip_witness :
  perunio.Lawful wire.Uint16 wire.wf_Uint16 /\
  perunio.Lawful wire.Uint64 wire.wf_Uint64 /\
  perunio.Lawful wire.ID wire.wf_ID /\
  perunio.Lawful wire.String_ wire.wf_String /\
  client.wf_fields (perunio.recovered sim.SState)
    wire.wf_Uint16 wire.wf_Uint64 wire.wf_ID wire.wf_String sim.msg_update /\
  client.ChannelMsg_Decode sim.SState wire.Uint16 wire.Uint64 wire.ID wire.String_
    backend.ethereum_SigLen (client.ChannelMsg_Type sim.msg_update)
    (client.ChannelMsg_Encode sim.SState wire.Uint16 wire.Uint64 wire.ID wire.String_
       sim.msg_update ++ []) = inr (sim.msg_update, []).
Proof.
  assert (Hst : sim.wf_State (sim.state 1 90 110 false)).
  { split; [reflexivity |]. split; [reflexivity |]. split; [reflexivity |].
    split; [split; [reflexivity | repeat constructor] |].
    split; [split; [reflexivity | repeat constructor] |].
    split; [split; [reflexivity | constructor] | reflexivity]. }
  assert (Hwf : client.wf_fields (perunio.recovered sim.SState)
            wire.wf_Uint16 wire.wf_Uint64 wire.wf_ID wire.wf_String sim.msg_update).
  { split; [| reflexivity]. intros more. apply SState_lawful. exact Hst. }
  split; [exact Uint16_lawful |].
  split; [exact Uint64_lawful |].
  split; [exact ID_lawful |].
  split; [exact String_lawful |].
  split; [exact Hwf |].
  apply (channel_update_messages_roundtrip
           sim.SState wire.Uint16 wire.Uint64 wire.ID wire.String_ backend.ethereum_SigLen
           wire.wf_Uint16 wire.wf_Uint64 wire.wf_ID wire.wf_String
           sim.msg_update []
           Uint16_lawful Uint64_lawful ID_lawful String_lawful Hwf).
  exists (replicate 65 Byte.x07). split; reflexivity.
Defined.

(** The round trip does not hold of every message.  An acceptance whose
    signature is empty has fields that are values of their wire types and
    is encoded to 40 bytes; the decoder of its type runs out of input where
    the signature should be, and with enough further bytes behind the
    encoding it takes 65 of them for the signature: either way the message
    that was encoded does not come back. *)
Lemma signature_of_other_length_is_not_recovered :
  client.wf_fields (perunio.recovered sim.SState)
    wire.wf_Uint16 wire.wf_Uint64 wire.wf_ID wire.wf_String sim.msg_unsigned /\
  length (client.ChannelMsg_Encode sim.SState wire.Uint16 wire.Uint64 wire.ID wire.String_
            sim.msg_unsigned) = 40 /\
  client.ChannelMsg_Decode sim.SState wire.Uint16 wire.Uint64 wire.ID wire.String_
    backend.ethereum_SigLen (client.ChannelMsg_Type sim.msg_unsigned)
    (client.ChannelMsg_Encode sim.SState wire.Uint16 wire.Uint64 wire.ID wire.String_
       sim.msg_unsigned)
  = inl (channel.Foreign "unexpected EOF") /\
  client.ChannelMsg_Decode sim.SState wire.Uint16 wire.Uint64 wire.ID wire.String_
    backend.ethereum_SigLen (client.ChannelMsg_Type sim.msg_unsigned)
    (client.ChannelMsg_Encode sim.SState wire.Uint16 wire.Uint64 wire.ID wire.String_
       sim.msg_unsigned ++ replicate 70 Byte.x09)
  = inr (client.MsgUpdateAcc
           {| client.ChannelID := sim.cid; client.AccVersion := 1;
              client.AccSig := Some (replicate 65 Byte.x09) |},
         replicate 5 Byte.x09).
Proof.
  split; [split; reflexivity |].
  split; [vm_compute; reflexivity |].
  split; vm_compute; reflexivity.
Qed.

(** ** The update protocol, proposer side *)
Section UpdateProperties.

Import channel.

Variable Sign : wallet.Account -> Params -> option State -> wallet.Sig * option error.
Variable Equals : wallet.Address -> wallet.Address -> bool.
Variable Valid : Allocation -> option error.
Variable equalSum : Allocation -> Allocation -> bool * option error.
Variable AppValidTransition : Params -> option State -> State -> Index -> option error.
Variable send : client.ChannelMsg -> option error.

Lemma machine_Update_stages (st : State) (actor : Index) (m m' : machine) sent :
  Update Equals Valid equalSum AppValidTransition st actor m = Returns None m' sent ->
  phase m = Acting /\ phase m' = Signing /\
  stagingTX m' = {| TState := Some st; Sigs := replicate (N_of m) None |} /\
  currentTX m' = currentTX m /\ prevTXs m' = prevTXs m.
Proof.
  unfold Update, setStaging, setPhase. intros H.
  destruct (expect m _) eqn:He; [discriminate H |].
  apply expect_None in He. destruct He as [He _].
  destruct (validTransition_pure Equals Valid equalSum st m) as [_ Hp].
  destruct (validTransition Equals Valid equalSum st m) as [[e |] m1 s1 | m1] eqn:Hv;
    try discriminate H.
  destruct (Hp _ _ _ eq_refl) as [-> ->].
  destruct (AppValidTransition _ _ _ _); [discriminate H |].
  simplify_eq. cbn [phase stagingTX currentTX prevTXs with_phase with_stagingTX]. auto.
Qed.

Lemma Sig_keeps_phase (m m' : machine) ret sent :
  Sig Sign m = Returns ret m' sent ->
  phase m' = phase m /\ currentTX m' = currentTX m /\ prevTXs m' = prevTXs m /\ sent = [].
Proof.
  unfold Sig. intros H. repeat case_match; simplify_eq; cbn; auto.
Qed.

Lemma notes_no_receive (sent : list (SubChan * PhaseTransition)) :
  Forall client.no_receive (client.notes sent).
Proof.
  unfold client.notes. induction sent as [| n sent IH]; cbn; constructor; [exact I | exact IH].
Qed.

(** However [Channel.Update] ends, it has taken no message from the
    connection and whatever it sent was an acceptance message. *)
Lemma Channel_Update_trace (up : client.ChannelUpdate) (m : machine) :
  Forall client.no_receive
    (client.trace (client.Update Sign Equals Valid equalSum AppValidTransition send up m)).
Proof.
  unfold client.Update.
  repeat case_match; cbn [client.trace];
    repeat (apply Forall_app; split); try apply notes_no_receive;
    repeat constructor.
Qed.

(** When [Channel.Update] returns nil the machine was in phase Acting, is in
    phase Signing and has the current transaction it had before. *)
Lemma Channel_Update_returns_in_Signing (up : client.ChannelUpdate) (m : machine) :
  client.ended (client.Update Sign Equals Valid equalSum AppValidTransition send up m)
    = client.Return None ->
  phase m = Acting /\
  phase (client.machine_now
           (client.Update Sign Equals Valid equalSum AppValidTransition send up m)) = Signing /\
  currentTX (client.machine_now
           (client.Update Sign Equals Valid equalSum AppValidTransition send up m))
    = currentTX m.
Proof.
  unfold client.Update.
  destruct (client.validTwoPartyUpdate up (idx m)); [discriminate |].
  destruct (Update Equals Valid equalSum AppValidTransition _ _ m)
    as [[err |] m1 sent1 | m1] eqn:Hu; try discriminate.
  destruct (Sig Sign m1) as [[sig [err |]] m2 sent2 | m2] eqn:Hs; try discriminate.
  - destruct (DiscardUpdate m2) as [[derr |] m3 sent3 | m3]; discriminate.
  - intros _. cbn [client.machine_now].
    apply machine_Update_stages in Hu. destruct Hu as (Ha & Hp1 & _ & Hc1 & _).
    apply Sig_keeps_phase in Hs. destruct Hs as (Hp2 & Hc2 & _).
    split; [exact Ha |]. split; congruence.
Qed.

End UpdateProperties.

(** ** The sample channel *)
Section Samples.

Import channel.

(** C1.  [Channel.Update] does not complete the round of the update
    protocol.  On Alice's funded machine at version 0, with a valid update to version
    1 of which she is the actor and a connection that sends without error,
    the call locks the mutex, sends one message, an acceptance
    [msgChannelUpdateAcc] with the channel id, the version and her
    signature (not a [msgChannelUpdate] with the state and the actor),
    unlocks and returns nil.  It takes no reply from the connection and
    calls neither AddSig nor EnableUpdate: the machine is left in phase
    Signing, the peer's slot empty, the current transaction the old one.
    The steps that are missing would have brought the machine to Acting:
    adding Bob's signature and enabling the update succeed on the machine
    the call leaves behind.  As it is, a further update is refused. *)
Theorem Channel_Update_stops_after_sending :
  let r := client.Update sim.Sign sim.Equals sim.Valid sim.equalSum sim.AppValidTransition
             sim.send_ok sim.up1 sim.m_acting in
  client.ended r = client.Return None /\
  client.trace r =
    [client.MtxLock;
     client.ConnSend (client.MsgUpdateAcc
       {| client.ChannelID := sim.cid; client.AccVersion := 1;
          client.AccSig := Some (wallet.Address_of sim.alice) |});
     client.MtxUnlock] /\
  ~ In client.ConnRecv (client.trace r) /\
  phase (client.machine_now r) = Signing /\
  Sigs (stagingTX (client.machine_now r)) = [Some (wallet.Address_of sim.alice); None] /\
  currentTX (client.machine_now r) = currentTX sim.m_acting /\
  (exists m2 m3,
     AddSig sim.Verify 1 (Some (wallet.Address_of sim.bob)) (client.machine_now r)
       = Returns None m2 [] /\
     EnableUpdate m2 = Returns None m3 [] /\
     phase m3 = Acting /\
     currentTX m3 = sim.signed (sim.state 1 90 110 false)) /\
  (exists e,
     client.ended (client.Update sim.Sign sim.Equals sim.Valid sim.equalSum
                     sim.AppValidTransition sim.send_ok sim.up1 (client.machine_now r))
     = client.Return (Some e) /\
     Cause e = PhaseTransitionError sim.cid Signing {| TFrom := Acting; TTo := Signing |}
                 "not in correct phase").
Proof.
  cbv zeta.
  split; [vm_compute; reflexivity |].
  split; [vm_compute; reflexivity |].
  split.
  { intros H. vm_compute in H. intuition discriminate. }
  split; [vm_compute; reflexivity |].
  split; [vm_compute; reflexivity |].
  split; [vm_compute; reflexivity |].
  split.
  - eexists _, _. split; [vm_compute; reflexivity |].
    split; [vm_compute; reflexivity |]. split; vm_compute; reflexivity.
  - eexists. split; vm_compute; reflexivity.
Qed.

(** The first update of the sample channel passes [validTransition], and one
    that takes funds out of the channel does not. *)
Example validTransition_sample :
  validTransition sim.Equals sim.Valid sim.equalSum (sim.state 1 90 110 false) sim.m_acting
    = Returns None sim.m_acting [] /\
  validTransition sim.Equals sim.Valid sim.equalSum (sim.state 1 90 100 false) sim.m_acting
    = Returns (Some (StateTransitionError sim.cid "allocations must be preserved"))
        sim.m_acting [].
Proof. split; vm_compute; reflexivity. Qed.

(** The version is a [uint64]: after the largest version comes version 0. *)
Example validTransition_wraps_version :
  let last := with_stagingTX Transaction_zero
                {| phase := Acting; acc := sim.alice; idx := 0; params := sim.params0;
                   stagingTX := Transaction_zero;
                   currentTX := sim.signed (sim.state (2 ^ 64 - 1) 100 100 false);
                   prevTXs := []; subs := fun _ => [] |} in
  validTransition sim.Equals sim.Valid sim.equalSum (sim.state 0 90 110 false) last
    = Returns None last [].
Proof. vm_compute. reflexivity. Qed.

(** With both signatures in, EnableUpdate promotes the staged update; with
    one missing it fails and changes nothing. *)
Example EnableUpdate_sample :
  (exists m', EnableUpdate sim.m_signed = Returns None m' [] /\
     phase m' = Acting /\
     currentTX m' = sim.signed (sim.state 1 90 110 false) /\
     stagingTX m' = Transaction_zero /\
     prevTXs m' = [Transaction_zero; sim.signed (sim.state 0 100 100 false)]) /\
  (exists e, EnableUpdate sim.m_signing = Returns (Some e) sim.m_signing []).
Proof.
  split.
  - eexists. split; [vm_compute; reflexivity |]. repeat split.
  - eexists. vm_compute. reflexivity.
Qed.

(** Signing twice gives the same signature and the same machine; a
    signature of the wrong participant is refused; an index beyond the
    slots panics. *)
Example Sig_AddSig_sample :
  (exists m', Sig sim.Sign sim.m_signing
              = Returns (Some (wallet.Address_of sim.alice), None) m' [] /\
     Sig sim.Sign m' = Returns (Some (wallet.Address_of sim.alice), None) m' []) /\
  AddSig sim.Verify 1 (Some (wallet.Address_of sim.alice)) sim.m_signing
    = Returns (Some (New "invalid signature for idx %d (ID: %x)")) sim.m_signing [] /\
  AddSig sim.Verify 2 (Some (wallet.Address_of sim.bob)) sim.m_signing = Panics sim.m_signing.
Proof.
  split; [| split; vm_compute; reflexivity].
  eexists. split; vm_compute; reflexivity.
Qed.

End Samples.

(** ** The sample responder and receiver *)
Section MoreSamples.

(** Accept and then Reject on one responder: the first call proceeds, the
    second panics; likewise in the other order. *)
Example responder_sample :
  map client.proceeds
    (client.calls (client.update_call (fun _ => None))
       [client.UAccept 1; client.UReject 2 "too large"] client.newUpdateResponder)
  = [true; false] /\
  map client.proceeds
    (client.calls (client.proposal_call (fun _ => None))
       [client.PReject 1 "no"; client.PAccept 2 {| client.Participant := Some sim.bob |};
        client.PReject 3 "no"] client.newProposalResponder)
  = [true; false; false].
Proof. split; reflexivity. Qed.

(** [Next] on the sample receiver: the oldest message first; nothing but
    [(nil, nil)] once the context is done or the receiver closed on entry;
    blocked while nothing is queued; and, when the context expires only
    after entry while a message is queued, either case of the blocking
    [select] may be taken. *)
Example Next_sample :
  peer.Next false sim.queued false sim.queued
    = [(Some {| peer.tuple_Peer := 7; peer.tuple_Msg := "first"%string |},
        peer.with_buf [ {| peer.tuple_Peer := 7; peer.tuple_Msg := "second"%string |} ]
          sim.queued)] /\
  peer.Next true sim.queued true sim.queued = [(None, sim.queued)] /\
  peer.Next false (peer.Close sim.queued) false (peer.Close sim.queued)
    = [(None, peer.Close sim.queued)] /\
  peer.Next false sim.idle false sim.idle = [] /\
  peer.Next false sim.idle true sim.idle = [(None, sim.idle)] /\
  peer.Next false sim.idle true sim.queued
    = [(None, sim.queued);
       (Some {| peer.tuple_Peer := 7; peer.tuple_Msg := "first"%string |},
        peer.with_buf [ {| peer.tuple_Peer := 7; peer.tuple_Msg := "second"%string |} ]
          sim.queued)].
Proof. repeat split. Qed.

End MoreSamples.

(** ** More of the machine *)
Section AutomatonProperties.

Import channel automaton.

Variable Sign : wallet.Account -> Params -> option State -> wallet.Sig * option error.
Variable Verify : wallet.Address -> Params -> option State -> wallet.Sig -> bool * option error.

Ltac open_op :=
  unfold Sig, AddSig, EnableInit, EnableUpdate, EnableFinal, enableStaged,
    DiscardUpdate, SetFunded, SetSettled, error_of, setPhase.

Lemma call_frame (op : Op) (m : machine) :
  acc (machine_after (call Sign Verify op m)) = acc m /\
  idx (machine_after (call Sign Verify op m)) = idx m /\
  params (machine_after (call Sign Verify op m)) = params m /\
  subs (machine_after (call Sign Verify op m)) = subs m.
Proof.
  destruct op; cbn [call]; open_op;
    repeat case_match; simplify_eq; cbn; auto.
Qed.

Lemma after_steps_snoc (steps : list Step) (s : Step) (m : machine) :
  after_steps Sign Verify (steps ++ [s]) m
  = step Sign Verify s (after_steps Sign Verify steps m).
Proof. unfold after_steps. rewrite fold_left_app. reflexivity. Qed.

Lemma for_signing_snoc (steps : list Step) (s : Step) :
  forallb for_signing (steps ++ [s]) = true ->
  forallb for_signing steps = true /\ for_signing s = true.
Proof.
  rewrite forallb_app. cbn [forallb]. rewrite andb_true_r.
  intros H. apply andb_true_iff in H. exact H.
Qed.

Lemma N_of_params (m m' : machine) : params m' = params m -> N_of m' = N_of m.
Proof. unfold N_of. intros ->. reflexivity. Qed.

Lemma not_signing_after (ph : Phase) :
  ph = Funding \/ ph = Acting \/ ph = Final \/ ph = Settled ->
  inPhase ph signingPhases = false.
Proof. intros [-> | [-> | [-> | ->]]]; reflexivity. Qed.

Lemma consistent_with_sig (i : nat) (sig : wallet.Sig) (m : machine) :
  consistent m -> consistent (with_sig i sig m).
Proof.
  intros [Hout Hin]. unfold consistent, with_sig, with_stagingTX.
  cbn [phase stagingTX Sigs]. split; intros Hph.
  - rewrite (Hout Hph). reflexivity.
  - rewrite length_insert. apply Hin. exact Hph.
Qed.

Lemma consistent_step (op : Op) (m : machine) :
  consistent m -> consistent (machine_after (call Sign Verify op m)).
Proof.
  intros Hc. pose proof Hc as [Hout Hin].
  assert (Hsame : forall m', m' = m -> consistent m') by (intros m' ->; exact Hc).
  destruct op; cbn [call].
  - (* Sig *)
    unfold Sig, error_of.
    destruct (inPhase (phase m) signingPhases) eqn:Hph; cbn [negb]; [| apply Hsame; reflexivity].
    destruct (Sigs (stagingTX m) !! idx m) as [[s |] |]; try (apply Hsame; reflexivity).
    destruct (Sign _ _ _) as [sig [e |]]; [apply Hsame; reflexivity |].
    cbn [machine_after]. apply consistent_with_sig. exact Hc.
  - (* AddSig *)
    unfold AddSig.
    destruct (inPhase (phase m) signingPhases) eqn:Hph; cbn [negb]; [| apply Hsame; reflexivity].
    destruct (Sigs (stagingTX m) !! i) as [[s |] |]; try (apply Hsame; reflexivity).
    destruct (Parts (params m) !! i); [| apply Hsame; reflexivity].
    destruct (Verify _ _ _ _) as [[|] [e |]]; try (apply Hsame; reflexivity).
    cbn [machine_after]. apply consistent_with_sig. exact Hc.
  - unfold EnableInit, enableStaged, setPhase.
    repeat case_match; simplify_eq; cbn [machine_after]; try (apply Hsame; reflexivity).
    split; cbn; [reflexivity | discriminate].
  - unfold EnableUpdate, enableStaged, setPhase.
    repeat case_match; simplify_eq; cbn [machine_after]; try (apply Hsame; reflexivity).
    split; cbn; [reflexivity | discriminate].
  - unfold EnableFinal, enableStaged, setPhase.
    repeat case_match; simplify_eq; cbn [machine_after]; try (apply Hsame; reflexivity).
    split; cbn; [reflexivity | discriminate].
  - unfold DiscardUpdate, setPhase.
    repeat case_match; simplify_eq; cbn [machine_after]; try (apply Hsame; reflexivity).
    split; cbn; [reflexivity | discriminate].
  - unfold SetFunded, setPhase.
    destruct (expect m _) eqn:He; cbn [machine_after]; [apply Hsame; reflexivity |].
    apply expect_None in He. destruct He as [He _]. cbn in He.
    split; cbn; [intros _ | discriminate].
    apply Hout. rewrite He. reflexivity.
  - unfold SetSettled, setPhase.
    destruct (expect m _) eqn:He; cbn [machine_after]; [apply Hsame; reflexivity |].
    apply expect_None in He. destruct He as [He _]. cbn in He.
    split; cbn; [intros _ | discriminate].
    apply Hout. rewrite He. reflexivity.
Qed.

Lemma setStaging_consistent (ph : Phase) (st : option State) (m : machine) :
  inPhase ph signingPhases = true -> consistent (fst (setStaging ph st m)).
Proof.
  intros Hph. unfold setStaging, setPhase. split; cbn [fst phase with_phase]; rewrite Hph.
  - discriminate.
  - intros _. cbn [stagingTX with_phase with_stagingTX Sigs].
    rewrite length_replicate. reflexivity.
Qed.

Lemma step_consistent (s : Step) (m : machine) :
  for_signing s = true -> consistent m -> consistent (step Sign Verify s m).
Proof.
  destruct s as [op | ph st]; cbn [step for_signing]; intros Hs Hc.
  - apply consistent_step. exact Hc.
  - apply setStaging_consistent. exact Hs.
Qed.

(** X1.  The staging transaction is empty whenever the machine is outside
    of the signing phases, and has one signature slot per participant inside
    of them: when this holds of a machine, it holds after any operations
    on it and any staging of states for a signing phase. *)
Theorem staging_stays_consistent (m : machine) (steps : list Step) :
  consistent m ->
  forallb for_signing steps = true ->
  consistent (after_steps Sign Verify steps m).
Proof.
  intros Hm. induction steps as [| s steps IH] using rev_ind; intros Hs; [exact Hm |].
  apply for_signing_snoc in Hs. destruct Hs as [Hs1 Hs2].
  rewrite after_steps_snoc. apply step_consistent; auto.
Qed.

Lemma vouched_with_sig_own (m : machine) (sig : wallet.Sig) :
  Sign (acc m) (params m) (TState (stagingTX m)) = (sig, None) ->
  vouched Sign Verify m (stagingTX m) ->
  vouched Sign Verify (with_sig (idx m) sig m) (stagingTX (with_sig (idx m) sig m)).
Proof.
  intros Hsign Hv i s. unfold with_sig, with_stagingTX.
  cbn [stagingTX Sigs TState acc idx params]. intros Hi.
  destruct (decide (i = idx m)) as [-> | Hne].
  - left. split; [reflexivity |].
    apply lookup_lt_Some in Hi as Hlt. rewrite length_insert in Hlt.
    rewrite list_lookup_insert_eq in Hi by exact Hlt. simplify_eq. exact Hsign.
  - rewrite list_lookup_insert_ne in Hi by congruence. apply Hv. exact Hi.
Qed.

Lemma vouched_with_sig_peer (m : machine) (i : nat) (sig : wallet.Sig) part :
  Parts (params m) !! i = Some part ->
  Verify part (params m) (TState (stagingTX m)) sig = (true, None) ->
  vouched Sign Verify m (stagingTX m) ->
  vouched Sign Verify (with_sig i sig m) (stagingTX (with_sig i sig m)).
Proof.
  intros Hp Hver Hv j s. unfold with_sig, with_stagingTX.
  cbn [stagingTX Sigs TState acc idx params]. intros Hj.
  destruct (decide (j = i)) as [-> | Hne].
  - right. exists part. split; [exact Hp |].
    apply lookup_lt_Some in Hj as Hlt. rewrite length_insert in Hlt.
    rewrite list_lookup_insert_eq in Hj by exact Hlt. simplify_eq. exact Hver.
  - rewrite list_lookup_insert_ne in Hj by congruence. apply Hv. exact Hj.
Qed.

Lemma vouched_zero (m : machine) : vouched Sign Verify m Transaction_zero.
Proof. intros i s H. cbn in H. rewrite lookup_nil in H. discriminate H. Qed.

Lemma vouched_frame (m m' : machine) (tx : Transaction) :
  acc m' = acc m -> idx m' = idx m -> params m' = params m ->
  vouched Sign Verify m tx -> vouched Sign Verify m' tx.
Proof. unfold vouched. intros -> -> -> H. exact H. Qed.

Lemma vouched_step (op : Op) (m : machine) :
  vouched Sign Verify m (stagingTX m) -> vouched Sign Verify m (currentTX m) ->
  vouched Sign Verify (machine_after (call Sign Verify op m))
    (stagingTX (machine_after (call Sign Verify op m))) /\
  vouched Sign Verify (machine_after (call Sign Verify op m))
    (currentTX (machine_after (call Sign Verify op m))).
Proof.
  intros Hs Hc.
  assert (Hsame : forall m', m' = m ->
            vouched Sign Verify m' (stagingTX m') /\ vouched Sign Verify m' (currentTX m'))
    by (intros m' ->; split; assumption).
  destruct op; cbn [call].
  - unfold Sig, error_of.
    destruct (negb _); [apply Hsame; reflexivity |].
    destruct (Sigs (stagingTX m) !! idx m) as [[s |] |]; try (apply Hsame; reflexivity).
    destruct (Sign _ _ _) as [sig [e |]] eqn:Hsign; [apply Hsame; reflexivity |].
    cbn [machine_after]. split; [apply vouched_with_sig_own; assumption |].
    exact Hc.
  - unfold AddSig.
    destruct (negb _); [apply Hsame; reflexivity |].
    destruct (Sigs (stagingTX m) !! i) as [[s |] |]; try (apply Hsame; reflexivity).
    destruct (Parts (params m) !! i) as [part |] eqn:Hp; [| apply Hsame; reflexivity].
    destruct (Verify _ _ _ _) as [[|] [e |]] eqn:Hver; try (apply Hsame; reflexivity).
    cbn [machine_after]. split; [eapply vouched_with_sig_peer; eassumption |].
    exact Hc.
  - unfold EnableInit, enableStaged, setPhase.
    repeat case_match; simplify_eq; cbn [machine_after]; try (apply Hsame; reflexivity).
    split; [apply vouched_zero | exact Hs].
  - unfold EnableUpdate, enableStaged, setPhase.
    repeat case_match; simplify_eq; cbn [machine_after]; try (apply Hsame; reflexivity).
    split; [apply vouched_zero | exact Hs].
  - unfold EnableFinal, enableStaged, setPhase.
    repeat case_match; simplify_eq; cbn [machine_after]; try (apply Hsame; reflexivity).
    split; [apply vouched_zero | exact Hs].
  - unfold DiscardUpdate, setPhase.
    repeat case_match; simplify_eq; cbn [machine_after]; try (apply Hsame; reflexivity).
    split; [apply vouched_zero | exact Hc].
  - unfold SetFunded, setPhase.
    repeat case_match; simplify_eq; cbn [machine_after]; try (apply Hsame; reflexivity).
    split; assumption.
  - unfold SetSettled, setPhase.
    repeat case_match; simplify_eq; cbn [machine_after]; try (apply Hsame; reflexivity).
    split; assumption.
Qed.

Lemma step_frame (s : Step) (m : machine) :
  acc (step Sign Verify s m) = acc m /\
  idx (step Sign Verify s m) = idx m /\
  params (step Sign Verify s m) = params m.
Proof.
  destruct s as [op | ph st]; cbn [step].
  - destruct (call_frame op m) as (? & ? & ? & _). auto.
  - unfold setStaging, setPhase. cbn. auto.
Qed.

Lemma step_vouched (s : Step) (m : machine) :
  vouched Sign Verify m (stagingTX m) -> vouched Sign Verify m (currentTX m) ->
  vouched Sign Verify (step Sign Verify s m) (stagingTX (step Sign Verify s m)) /\
  vouched Sign Verify (step Sign Verify s m) (currentTX (step Sign Verify s m)).
Proof.
  destruct s as [op | ph st]; cbn [step]; intros Hs Hc.
  - apply vouched_step; assumption.
  - unfold setStaging, setPhase. cbn [fst stagingTX currentTX with_phase with_stagingTX].
    split.
    + intros i sg H. cbn [Sigs] in H. apply lookup_replicate in H. destruct H as [H _].
      discriminate H.
    + exact Hc.
Qed.

(** X2.  No signature gets into a transaction unchecked: when every
    signature of the staging and of the current transaction was made by the
    own account or accepted by [Verify] for the participant of its slot,
    the same holds after any operations and any staging of states, so in
    particular for every transaction that is promoted. *)
Theorem signatures_stay_vouched (m : machine) (steps : list Step) :
  vouched Sign Verify m (stagingTX m) ->
  vouched Sign Verify m (currentTX m) ->
  vouched Sign Verify (after_steps Sign Verify steps m)
    (stagingTX (after_steps Sign Verify steps m)) /\
  vouched Sign Verify (after_steps Sign Verify steps m)
    (currentTX (after_steps Sign Verify steps m)).
Proof.
  intros Hs Hc.
  induction steps as [| s steps IH] using rev_ind; [split; assumption |].
  rewrite after_steps_snoc. destruct IH as [IHs IHc]. apply step_vouched; assumption.
Qed.

Lemma history_step (op : Op) (m : machine) :
  (prevTXs (machine_after (call Sign Verify op m)) = prevTXs m /\
   currentTX (machine_after (call Sign Verify op m)) = currentTX m) \/
  (prevTXs (machine_after (call Sign Verify op m)) = prevTXs m ++ [currentTX m]).
Proof.
  destruct op; cbn [call]; open_op;
    repeat case_match; simplify_eq; cbn; auto.
Qed.

Lemma step_history (s : Step) (m : machine) :
  (prevTXs (step Sign Verify s m) = prevTXs m /\
   currentTX (step Sign Verify s m) = currentTX m) \/
  (prevTXs (step Sign Verify s m) = prevTXs m ++ [currentTX m]).
Proof.
  destruct s as [op | ph st]; cbn [step]; [apply history_step |].
  left. unfold setStaging, setPhase. cbn. auto.
Qed.

Lemma step_retires (s : Step) (m : machine) :
  if promoting Sign Verify s m
  then prevTXs (step Sign Verify s m) = prevTXs m ++ [currentTX m] /\
       currentTX (step Sign Verify s m) = stagingTX m
  else prevTXs (step Sign Verify s m) = prevTXs m /\
       currentTX (step Sign Verify s m) = currentTX m.
Proof.
  destruct s as [op | ph st]; [| cbn; unfold setStaging, setPhase; cbn; auto].
  destruct op; cbn [promoting step call];
    open_op; repeat case_match; simplify_eq; cbn; auto.
Qed.

Lemma after_steps_cons (s : Step) (steps : list Step) (m : machine) :
  after_steps Sign Verify (s :: steps) m
  = after_steps Sign Verify steps (step Sign Verify s m).
Proof. reflexivity. Qed.

Lemma retired_history (steps : list Step) (m : machine) :
  prevTXs (after_steps Sign Verify steps m) = prevTXs m ++ retired Sign Verify steps m /\
  (retired Sign Verify steps m = [] ->
   currentTX (after_steps Sign Verify steps m) = currentTX m).
Proof.
  revert m. induction steps as [| s steps IH]; intros m.
  - cbn. rewrite app_nil_r. auto.
  - rewrite after_steps_cons. cbn [retired].
    destruct (IH (step Sign Verify s m)) as [IHp IHc].
    pose proof (step_retires s m) as Hs.
    destruct (promoting Sign Verify s m).
    + destruct Hs as [Hp Hc]. rewrite IHp, Hp, <- app_assoc.
      split; [reflexivity | discriminate].
    + destruct Hs as [Hp Hc]. rewrite IHp, Hp. cbn [app].
      split; [reflexivity |]. intros Hr. rewrite (IHc Hr). exact Hc.
Qed.

(** X3.  The history is never rewritten.  After any operations and any
    staging of states, [prevTXs] is what it was, followed by exactly the
    transactions that were current when EnableInit, EnableUpdate or
    EnableFinal succeeded and put the staging transaction in their place,
    one for each such call and in the order of the calls; every one of
    them was the current transaction of the machine at that step; when
    there was no such call the current transaction is the one of the
    start; and in any case the transaction that was current at the start
    is still the current one or is found in [prevTXs]. *)
Theorem history_is_kept (m : machine) (steps : list Step) :
  prevTXs (after_steps Sign Verify steps m) = prevTXs m ++ retired Sign Verify steps m /\
  (forall tx, In tx (retired Sign Verify steps m) ->
     exists k, k < length steps /\
       tx = currentTX (after_steps Sign Verify (take k steps) m) /\
       (forall s, steps !! k = Some s ->
          promoting Sign Verify s (after_steps Sign Verify (take k steps) m) = true /\
          currentTX (after_steps Sign Verify (take (S k) steps) m)
          = stagingTX (after_steps Sign Verify (take k steps) m))) /\
  (retired Sign Verify steps m = [] ->
   currentTX (after_steps Sign Verify steps m) = currentTX m) /\
  (currentTX (after_steps Sign Verify steps m) = currentTX m \/
   In (currentTX m) (prevTXs (after_steps Sign Verify steps m))).
Proof.
  destruct (retired_history steps m) as [Hprev Hnone].
  split; [exact Hprev |]. split; [| split; [exact Hnone |]].
  - clear Hprev Hnone. revert m. induction steps as [| s steps IH]; intros m tx Hin.
    + destruct Hin.
    + cbn [retired] in Hin. pose proof (step_retires s m) as Hs.
      revert Hin Hs. destruct (promoting Sign Verify s m) eqn:Hpr; intros Hin Hs.
      * destruct Hin as [<- | Hin].
        -- exists 0. split; [cbn; lia |]. split; [reflexivity |].
           intros s' Hs'. cbn in Hs'. simplify_eq. split; [exact Hpr | apply Hs].
        -- destruct (IH (step Sign Verify s m) tx Hin) as (k & Hk & Htx & Hstep).
           exists (S k). split; [cbn; lia |]. split; [exact Htx | exact Hstep].
      * destruct (IH (step Sign Verify s m) tx Hin) as (k & Hk & Htx & Hstep).
        exists (S k). split; [cbn; lia |]. split; [exact Htx | exact Hstep].
  - clear Hprev Hnone. induction steps as [| s steps IH] using rev_ind; [left; reflexivity |].
    rewrite after_steps_snoc.
    destruct (step_history s (after_steps Sign Verify steps m)) as [[Hp Hcur] | Hp];
      rewrite Hp.
    + rewrite Hcur. exact IH.
    + right. rewrite in_app_iff.
      destruct IH as [<- | Hin]; [right; left; reflexivity | auto].
Qed.

Lemma promote_step (op : Op) (m : machine) :
  (prevTXs (machine_after (call Sign Verify op m)) = prevTXs m /\
   currentTX (machine_after (call Sign Verify op m)) = currentTX m) \/
  (prevTXs (machine_after (call Sign Verify op m)) = prevTXs m ++ [currentTX m] /\
   currentTX (machine_after (call Sign Verify op m)) = stagingTX m /\
   filled (Sigs (stagingTX m)) /\
   inPhase (phase m) signingPhases = true).
Proof.
  assert (Hen : forall tr, legal (TFrom tr) (TTo tr) ->
            inPhase (TFrom tr) signingPhases = true ->
            (prevTXs (machine_after (enableStaged tr m)) = prevTXs m /\
             currentTX (machine_after (enableStaged tr m)) = currentTX m) \/
            (prevTXs (machine_after (enableStaged tr m)) = prevTXs m ++ [currentTX m] /\
             currentTX (machine_after (enableStaged tr m)) = stagingTX m /\
             filled (Sigs (stagingTX m)) /\
             inPhase (phase m) signingPhases = true)).
  { intros tr Hl Hsig.
    destruct (enableStaged_promotes tr m Hl) as (Hs & _ & He & Hp).
    destruct (enableStaged tr m) as [[e |] m' sent | m'] eqn:H; cbn [machine_after].
    - destruct (He _ _ _ eq_refl) as [-> _]. auto.
    - destruct (Hs _ _ eq_refl) as (Hfrom & Hfill & _ & Hprev & Hcur & _).
      right. rewrite Hfrom. auto.
    - rewrite (Hp _ eq_refl). auto. }
  destruct op; cbn [call];
    try (apply Hen; [constructor | reflexivity]);
    left; open_op; repeat case_match; simplify_eq; cbn; auto.
Qed.

Lemma complete_frame (m m' : machine) (tx : Transaction) :
  params m' = params m -> complete m tx -> complete m' tx.
Proof.
  unfold complete. intros Hp [-> | H]; [left; reflexivity | right].
  rewrite (N_of_params m m' Hp). exact H.
Qed.

Lemma step_settled (s : Step) (m : machine) :
  for_signing s = true ->
  consistent m ->
  vouched Sign Verify m (stagingTX m) ->
  Forall (fun tx => complete m tx /\ vouched Sign Verify m tx) (currentTX m :: prevTXs m) ->
  Forall (fun tx => complete (step Sign Verify s m) tx /\
                    vouched Sign Verify (step Sign Verify s m) tx)
    (currentTX (step Sign Verify s m) :: prevTXs (step Sign Verify s m)).
Proof.
  intros Hs [_ Hin] Hv Hall.
  destruct (step_frame s m) as (Ha & Hi & Hp).
  assert (Hkeep : forall tx, complete m tx /\ vouched Sign Verify m tx ->
            complete (step Sign Verify s m) tx /\ vouched Sign Verify (step Sign Verify s m) tx).
  { intros tx [Hc Hvv]. split; [eapply complete_frame | eapply vouched_frame]; eassumption. }
  assert (Hall' : Forall (fun tx => complete (step Sign Verify s m) tx /\
                            vouched Sign Verify (step Sign Verify s m) tx)
                    (currentTX m :: prevTXs m)).
  { eapply Forall_impl; [exact Hall | exact Hkeep]. }
  destruct s as [op | ph st].
  - cbn [step] in *.
    destruct (promote_step op m) as [[-> ->] | (-> & -> & Hfill & Hph)]; [exact Hall' |].
    constructor.
    + apply Hkeep. split; [| exact Hv]. right. auto.
    + inversion Hall' as [| ? ? Hcur Hprev]; subst.
      apply Forall_app. split; [exact Hprev |]. constructor; [exact Hcur | constructor].
  - cbn [step] in *. unfold setStaging, setPhase in *.
    cbn [fst currentTX prevTXs with_phase with_stagingTX] in *. exact Hall'.
Qed.

(** X4.  Whatever a machine holds as its current transaction has been
    signed by everyone.  A machine made by [newMachine], for an account
    that is among the participants, starts in phase InitActing with the
    index of the account (in its low 16 bits) and no transactions; and
    after any operations on it and any staging of states for a signing
    phase, its current transaction and each of the previous ones is the
    zero value or has one signature per participant, none missing, each of
    them made by the own account in the own slot or accepted by [Verify]
    for the participant of its slot over the state of that transaction;
    the staging transaction is empty outside of the signing phases; and
    the account, the index and the parameters are the ones it was made
    with.  For an account that is not among the participants no machine is
    made. *)
Theorem current_transaction_is_signed_by_all
  (IndexOfAddr : list wallet.Address -> wallet.Address -> Z)
  (account : wallet.Account) (params_ : Params) (steps : list Step) :
  forallb for_signing steps = true ->
  ((IndexOfAddr (Parts params_) (wallet.Address_of account) < 0)%Z ->
   exists e, newMachine IndexOfAddr account params_ = inl e) /\
  ((0 <= IndexOfAddr (Parts params_) (wallet.Address_of account))%Z ->
   exists m0,
     newMachine IndexOfAddr account params_ = inr m0 /\
     phase m0 = InitActing /\
     Z.of_nat (idx m0)
     = (IndexOfAddr (Parts params_) (wallet.Address_of account) mod 2 ^ 16)%Z /\
     let m := after_steps Sign Verify steps m0 in
     acc m = account /\ idx m = idx m0 /\ params m = params_ /\
     consistent m /\
     vouched Sign Verify m (stagingTX m) /\
     Forall (fun tx => complete m tx /\ vouched Sign Verify m tx)
       (currentTX m :: prevTXs m)).
Proof.
  intros Hs. unfold newMachine. split.
  - intros Hneg. apply Z.ltb_lt in Hneg. rewrite Hneg. eauto.
  - intros Hpos. apply Z.ltb_ge in Hpos. rewrite Hpos.
    eexists. split; [reflexivity |]. split; [reflexivity |].
    split.
    { cbn [idx]. rewrite Z2Nat.id; [reflexivity |]. apply Z.mod_pos_bound. lia. }
    cbv zeta.
    induction steps as [| s steps IH] using rev_ind.
    + cbn [after_steps fold_left acc idx params stagingTX currentTX prevTXs].
      split; [reflexivity |]. split; [reflexivity |]. split; [reflexivity |].
      split; [split; [reflexivity | discriminate] |].
      split; [apply vouched_zero |].
      constructor; [| constructor]. split; [left; reflexivity | apply vouched_zero].
    + apply for_signing_snoc in Hs. destruct Hs as [Hs1 Hs2].
      destruct (IH Hs1) as (Ha & Hi & Hp & Hc & Hv & Hall).
      rewrite after_steps_snoc.
      destruct (step_frame s (after_steps Sign Verify steps
                  {| phase := InitActing; acc := account;
                     idx := Z.to_nat
                              (IndexOfAddr (Parts params_) (wallet.Address_of account)
                               mod 2 ^ 16);
                     params := params_; stagingTX := Transaction_zero;
                     currentTX := Transaction_zero; prevTXs := [];
                     subs := fun _ => [] |})) as (Ha' & Hi' & Hp').
      split; [congruence |]. split; [congruence |]. split; [congruence |].
      split; [apply step_consistent; assumption |].
      split.
      { destruct (step_vouched s _ Hv) as [Hv' _]; [| exact Hv'].
        inversion Hall as [| ? ? [_ Hcur] _]. exact Hcur. }
      apply step_settled; assumption.
Qed.

(** X5.  Discarding undoes staging: on a machine in phase Acting with an
    empty staging transaction, staging any state for signing and then
    calling DiscardUpdate succeeds and gives the machine back exactly as it
    was. *)
Theorem DiscardUpdate_undoes_staging (m : machine) (st : option State) :
  phase m = Acting ->
  stagingTX m = Transaction_zero ->
  exists sent, DiscardUpdate (fst (setStaging Signing st m)) = Returns None m sent.
Proof.
  intros Hph Hst. destruct m as [ph a i p stg cur prev sb]. cbn in Hph, Hst. subst.
  unfold setStaging, DiscardUpdate, setPhase, expect.
  cbn [fst phase with_phase with_stagingTX TFrom TTo].
  destruct (decide (Signing = Signing)) as [_ | Hne]; [| contradiction].
  eexists. reflexivity.
Qed.

Lemma map_set_In (who : string) (sub : SubChan) (entries : list (string * SubChan)) :
  In (who, sub) (map_set who sub entries).
Proof.
  induction entries as [| [w s] rest IH]; cbn; [auto |].
  destruct (string_dec w who); cbn; auto.
Qed.

Lemma map_set_other (who : string) (sub : SubChan) (entries : list (string * SubChan)) w s :
  w <> who -> (In (w, s) (map_set who sub entries) <-> In (w, s) entries).
Proof.
  intros Hne. induction entries as [| [w0 s0] rest IH]; cbn.
  - split; [intros [H | []]; congruence | intros []].
  - destruct (string_dec w0 who) as [-> | Hw]; cbn.
    + split; intros [H | H]; auto; congruence.
    + rewrite IH. reflexivity.
Qed.

Lemma map_set_keys (who : string) (sub : SubChan) (entries : list (string * SubChan)) :
  map fst (map_set who sub entries)
  = if in_dec string_dec who (map fst entries) then map fst entries
    else map fst entries ++ [who].
Proof.
  induction entries as [| [w s] rest IH]; cbn [map_set map fst]; [reflexivity |].
  destruct (string_dec w who) as [-> | Hw].
  - cbn [map fst]. clear IH.
    destruct (in_dec string_dec who (who :: map fst rest)) as [_ | Hn]; [reflexivity |].
    exfalso. apply Hn. left. reflexivity.
  - cbn [map fst]. rewrite IH.
    destruct (in_dec string_dec who (map fst rest)) as [Hin | Hnin];
      destruct (in_dec string_dec who (w :: map fst rest)) as [Hin' | Hnin'];
      try reflexivity.
    + exfalso. apply Hnin'. right. exact Hin.
    + destruct Hin' as [-> | Hin']; [congruence | contradiction].
Qed.

Lemma map_set_unique (who : string) (sub : SubChan) (entries : list (string * SubChan)) s :
  List.NoDup (map fst entries) -> In (who, s) (map_set who sub entries) -> s = sub.
Proof.
  induction entries as [| [w0 s0] rest IH]; cbn; intros Hnd H.
  - destruct H as [H | []]. congruence.
  - inversion Hnd as [| ? ? Hnotin Hnd']; subst.
    destruct (string_dec w0 who) as [-> | Hw]; cbn in H.
    + destruct H as [H | H]; [congruence |].
      exfalso. apply Hnotin. apply (in_map fst) in H. exact H.
    + destruct H as [H | H]; [congruence | auto].
Qed.

(** X6.  Subscribing and being notified: after [Subscribe(phase, who, sub)],
    entering [phase] sends the transition to [sub]; entering any other
    phase notifies whom it notified before; the subscriptions of other names
    are untouched; where names were unique they stay unique and [who] has
    the one subscription [sub], an earlier one being overwritten; and the
    number of notifications grows by one exactly when [who] is a new
    name. *)
Theorem Subscribe_then_notify (ph : Phase) (who : string) (sub : SubChan) (m : machine) :
  In (sub, {| TFrom := phase m; TTo := ph |}) (snd (setPhase ph (Subscribe ph who sub m))) /\
  (forall p, p <> ph -> snd (setPhase p (Subscribe ph who sub m)) = snd (setPhase p m)) /\
  (forall w s, w <> who ->
     (In (w, s) (subs (Subscribe ph who sub m) ph) <-> In (w, s) (subs m ph))) /\
  (List.NoDup (subscribers m ph) ->
     List.NoDup (subscribers (Subscribe ph who sub m) ph) /\
     forall s, In (who, s) (subs (Subscribe ph who sub m) ph) -> s = sub) /\
  length (snd (setPhase ph (Subscribe ph who sub m)))
  = (if in_dec string_dec who (subscribers m ph)
     then length (snd (setPhase ph m)) else S (length (snd (setPhase ph m)))).
Proof.
  assert (Hsubs : subs (Subscribe ph who sub m) ph = map_set who sub (subs m ph)).
  { cbn. destruct (decide (ph = ph)); [reflexivity | contradiction]. }
  split; [| split; [| split; [| split]]].
  - unfold setPhase, notifySubs. cbn [snd phase with_phase subs].
    change (subs (Subscribe ph who sub m) ph) with
      (if decide (ph = ph) then map_set who sub (subs m ph) else subs m ph).
    destruct (decide (ph = ph)); [| contradiction].
    apply (in_map (fun ws : string * SubChan => (snd ws, {| TFrom := phase m; TTo := ph |}))
             _ (who, sub)).
    apply map_set_In.
  - intros p Hp. unfold setPhase, notifySubs. cbn [snd phase with_phase subs Subscribe].
    destruct (decide (p = ph)); [contradiction | reflexivity].
  - intros w s Hne. rewrite Hsubs. apply map_set_other. exact Hne.
  - intros Hnd. unfold subscribers in *. rewrite Hsubs. split.
    + rewrite map_set_keys. destruct (in_dec _ _ _) as [_ | Hn]; [exact Hnd |].
      apply NoDup_ListNoDup. apply NoDup_ListNoDup in Hnd.
      apply NoDup_app. split; [exact Hnd |]. split.
      * intros x Hx Hx'. apply list_elem_of_In in Hx, Hx'.
        destruct Hx' as [<- | []]. contradiction.
      * apply NoDup_singleton.
    + intros s. apply map_set_unique. exact Hnd.
  - unfold setPhase, notifySubs. cbn [snd phase with_phase].
    change (subs (with_phase ph (Subscribe ph who sub m)) ph)
      with (subs (Subscribe ph who sub m) ph).
    change (subs (with_phase ph m) ph) with (subs m ph).
    rewrite Hsubs, !length_map.
    rewrite <- (length_map fst (map_set who sub (subs m ph))), map_set_keys.
    unfold subscribers.
    destruct (in_dec _ _ _); [apply length_map |].
    rewrite length_app, length_map. cbn. lia.
Qed.

End AutomatonProperties.

Lemma staging_stays_consistent_witness :
  automaton.consistent scenario.m_new /\
  forallb automaton.for_signing scenario.opening = true /\
  automaton.consistent
    (automaton.after_steps sim.Sign sim.Verify scenario.opening scenario.m_new).
Proof.
  assert (H : automaton.consistent scenario.m_new) by (split; [reflexivity | discriminate]).
  split; [exact H |]. split; [reflexivity |].
  apply (staging_stays_consistent sim.Sign sim.Verify scenario.m_new scenario.opening H).
  reflexivity.
Defined.

Lemma signatures_stay_vouched_witness :
  automaton.vouched sim.Sign sim.Verify scenario.m_new (channel.stagingTX scenario.m_new) /\
  automaton.vouched sim.Sign sim.Verify scenario.m_new (channel.currentTX scenario.m_new) /\
  automaton.vouched sim.Sign sim.Verify
    (automaton.after_steps sim.Sign sim.Verify scenario.opening scenario.m_new)
    (channel.currentTX
       (automaton.after_steps sim.Sign sim.Verify scenario.opening scenario.m_new)).
Proof.
  pose proof (vouched_zero sim.Sign sim.Verify scenario.m_new) as H.
  split; [exact H |]. split; [exact H |].
  apply (signatures_stay_vouched sim.Sign sim.Verify scenario.m_new scenario.opening H H).
Defined.

Lemma current_transaction_is_signed_by_all_witness :
  forallb automaton.for_signing scenario.opening = true /\
  (0 <= scenario.IndexOfAddr (channel.Parts sim.params0) (wallet.Address_of sim.alice))%Z /\
  exists m0,
    automaton.newMachine scenario.IndexOfAddr sim.alice sim.params0 = inr m0 /\
    channel.phase m0 = channel.InitActing.
Proof.
  split; [reflexivity |]. split; [vm_compute; discriminate |].
  destruct (current_transaction_is_signed_by_all sim.Sign sim.Verify scenario.IndexOfAddr
              sim.alice sim.params0 scenario.opening eq_refl) as [_ H].
  destruct H as (m0 & Hnew & Hph & _); [vm_compute; discriminate |].
  exists m0. split; assumption.
Defined.

Lemma DiscardUpdate_undoes_staging_witness :
  channel.phase sim.m_acting = channel.Acting /\
  channel.stagingTX sim.m_acting = channel.Transaction_zero /\
  exists sent,
    channel.DiscardUpdate
      (fst (channel.setStaging channel.Signing (Some (sim.state 1 90 110 false)) sim.m_acting))
    = channel.Returns None sim.m_acting sent.
Proof.
  split; [reflexivity |]. split; [reflexivity |].
  apply (DiscardUpdate_undoes_staging sim.m_acting (Some (sim.state 1 90 110 false)));
    reflexivity.
Defined.

(** ** The mutex *)
Section MutexProperties.

Import perunsync.

(** X7.  Locking and unlocking: a free mutex (a new one is free) is taken
    by [Lock] and by [TryLock] with a nil context alike; while it is held
    [Lock] blocks and [TryLock(nil)] returns false at once; [Unlock] frees
    it, so that it can be taken again; and a second [Unlock], like an
    [Unlock] of a mutex that was never locked, ends the program. *)
Theorem Mutex_round_trip (m : Mutex) :
  locked m = false ->
  Lock m = Some (Some true) /\
  TryLock None m false m = [(true, Some true)] /\
  Lock (Some true) = None /\
  TryLock None (Some true) false (Some true) = [(false, Some true)] /\
  Unlock (Some true) = Some (Some false) /\
  Lock (Some false) = Some (Some true) /\
  Unlock (Some false) = None /\
  Unlock m = None.
Proof.
  destruct m as [[|] |]; intros H; try discriminate H; repeat split.
Qed.

Lemma Mutex_round_trip_witness :
  locked zero = false /\
  (Lock zero = Some (Some true) /\
   TryLock None zero false zero = [(true, Some true)] /\
   Lock (Some true) = None /\
   TryLock None (Some true) false (Some true) = [(false, Some true)] /\
   Unlock (Some true) = Some (Some false) /\
   Lock (Some false) = Some (Some true) /\
   Unlock (Some false) = None /\
   Unlock zero = None).
Proof. split; [reflexivity | apply (Mutex_round_trip zero); reflexivity]. Defined.

(** X8.  [TryLock] under a context: when the context is done on entry it
    returns false and does not take the mutex, not even a free one, which
    can still be taken afterwards; with a live context it returns true
    once the mutex is free, false once the context is done, either of the
    two when both hold, and stays blocked while neither does. *)
Theorem TryLock_under_context (m m2 : Mutex) (done2 : bool) :
  TryLock (Some true) m done2 m2 = [(false, initOnce m)] /\
  locked (initOnce m) = locked m /\
  (locked m = false -> TryLock None (initOnce m) false (initOnce m) = [(true, Some true)]) /\
  (locked m2 = false -> done2 = false ->
     TryLock (Some false) m done2 m2 = [(true, Some true)]) /\
  (locked m2 = true -> done2 = true ->
     TryLock (Some false) m done2 m2 = [(false, m2)]) /\
  (locked m2 = true -> done2 = false -> TryLock (Some false) m done2 m2 = []) /\
  (locked m2 = false -> done2 = true ->
     TryLock (Some false) m done2 m2 = [(true, Some true); (false, initOnce m2)]).
Proof.
  destruct m as [[|] |], m2 as [[|] |], done2; repeat split; intros;
    try discriminate; reflexivity.
Qed.

Lemma calls_alternate (cs : list Call) (m : Mutex) :
  alternate (negb (locked m)) (calls cs m).
Proof.
  revert m. induction cs as [| [|] cs IH]; intros m; [exact I | |].
  - destruct m as [[|] |]; cbn.
    + apply (IH (Some true)).
    + split; [reflexivity | apply (IH (Some true))].
    + split; [reflexivity | apply (IH (Some true))].
  - destruct m as [[|] |]; cbn; auto.
    split; [reflexivity | apply (IH (Some false))].
Qed.

(** X9.  Mutual exclusion: whatever calls of [TryLock(nil)] and [Unlock]
    are made, by whomever, acquisitions and releases take turns, starting
    with an acquisition on a mutex that is free (as a new one is): the
    mutex is never acquired twice without a release in between, and nothing
    is released that was not acquired. *)
Theorem Mutex_is_exclusive (cs : list Call) (m : Mutex) :
  alternate (negb (locked m)) (calls cs m) /\ alternate true (calls cs zero).
Proof. split; [apply calls_alternate | apply (calls_alternate cs zero)]. Qed.

End MutexProperties.

(** ** Peers and the channel connection *)
Section GetPeersProperties.

Import conn.

Variable Registry : Type.
Variable Get : Registry -> wallet.Address -> option nat * Registry.
Variable IndexOfAddr : list wallet.Address -> wallet.Address -> Z.

Lemma get_all_length (addrs : list wallet.Address) (r : Registry) :
  length (fst (get_all Registry Get addrs r)) = length addrs.
Proof.
  revert r. induction addrs as [| a rest IH]; intros r; cbn; [reflexivity |].
  destruct (Get r a) as [p r']. specialize (IH r').
  destruct (get_all Registry Get rest r') as [ps r'']. cbn in *. lia.
Qed.

(** The loop when no address is left out any more: it fills the slots
    from [length filled] on. *)
Lemma getPeers_loop_rest (idx : Z) (i : nat) (addrs : list wallet.Address)
  (filled : list (option nat)) (r : Registry) (shift : nat) :
  (idx = (-1)%Z /\ shift = 0) \/ ((idx < Z.of_nat i)%Z /\ (0 <= idx)%Z /\ shift = 1) ->
  i = length filled + shift ->
  getPeers_loop Registry Get idx i addrs (filled ++ replicate (length addrs) None) r
  = Some (filled ++ fst (get_all Registry Get addrs r), snd (get_all Registry Get addrs r)).
Proof.
  revert i filled r. induction addrs as [| a rest IH]; intros i filled r Hidx Hi.
  - cbn. reflexivity.
  - cbn [getPeers_loop get_all length replicate].
    destruct (Get r a) as [p r'] eqn:HG.
    destruct (get_all Registry Get rest r') as [ps r''] eqn:Hall.
    cbn [fst snd].
    destruct Hidx as [[-> ->] | (Hlt & Hge & ->)].
    + cbn [Z.eqb orb]. destruct (decide _) as [_ | Hn].
      2:{ exfalso. apply Hn. rewrite length_app. cbn. lia. }
      replace i with (length filled + 0) by lia.
      rewrite insert_app_r. cbn [list_insert insert].
      replace (filled ++ p :: replicate (length rest) None)
        with ((filled ++ [p]) ++ replicate (length rest) None)
        by (rewrite <- app_assoc; reflexivity).
      rewrite (IH (S (length filled + 0)) (filled ++ [p]) r').
      * rewrite Hall. cbn. rewrite <- app_assoc. reflexivity.
      * left. split; reflexivity.
      * rewrite length_app. cbn. lia.
    + assert (Hne : (idx =? -1)%Z = false) by (apply Z.eqb_neq; lia).
      assert (Hnl : (Z.of_nat i <? idx)%Z = false) by (apply Z.ltb_ge; lia).
      assert (Hgt : (Z.of_nat i >? idx)%Z = true) by (apply Z.gtb_lt; lia).
      rewrite Hne, Hnl, Hgt. cbn [orb].
      destruct (decide _) as [_ | Hn].
      2:{ exfalso. apply Hn. rewrite length_app. cbn. lia. }
      replace (i - 1) with (length filled + 0) by lia.
      rewrite insert_app_r. cbn [list_insert insert].
      replace (filled ++ p :: replicate (length rest) None)
        with ((filled ++ [p]) ++ replicate (length rest) None)
        by (rewrite <- app_assoc; reflexivity).
      rewrite (IH (S i) (filled ++ [p]) r').
      * rewrite Hall. cbn. rewrite <- app_assoc. reflexivity.
      * right. split; [lia | split; [lia | reflexivity]].
      * rewrite length_app. cbn. lia.
Qed.

Lemma insert_at_end {A} (l l2 : list A) (x y : A) (i : nat) :
  i = length l -> <[i := x]> (l ++ y :: l2) = l ++ x :: l2.
Proof.
  intros ->. induction l as [| a l IH]; cbn; [reflexivity |]. f_equal. exact IH.
Qed.

(** The loop up to the address that is left out. *)
Lemma getPeers_loop_before (idx : Z) (i : nat) (addrs : list wallet.Address)
  (filled : list (option nat)) (r : Registry) :
  (Z.of_nat i <= idx)%Z -> (idx - Z.of_nat i < Z.of_nat (length addrs))%Z ->
  i = length filled ->
  getPeers_loop Registry Get idx i addrs (filled ++ replicate (length addrs - 1) None) r
  = Some (filled ++ fst (get_all Registry Get (delete (Z.to_nat idx - i) addrs) r),
          snd (get_all Registry Get (delete (Z.to_nat idx - i) addrs) r)).
Proof.
  revert i filled r. induction addrs as [| a rest IH]; intros i filled r Hle Hlt Hi.
  - cbn in Hlt. lia.
  - cbn [getPeers_loop length].
    assert (Hne : (idx =? -1)%Z = false) by (apply Z.eqb_neq; lia).
    rewrite Hne. cbn [orb].
    destruct (Z.of_nat i <? idx)%Z eqn:Hcmp.
    + apply Z.ltb_lt in Hcmp.
      destruct (Get r a) as [p r'] eqn:HG.
      replace (Z.to_nat idx - i) with (S (Z.to_nat idx - S i)) by lia.
      change (delete (S (Z.to_nat idx - S i)) (a :: rest))
        with (a :: delete (Z.to_nat idx - S i) rest).
      cbn [get_all]. rewrite HG.
      destruct (get_all Registry Get (delete (Z.to_nat idx - S i) rest) r') as [ps r''] eqn:Hall.
      cbn [fst snd].
      assert (Hrest : 1 <= length rest) by (cbn in Hlt; lia).
      destruct (decide _) as [_ | Hn].
      2:{ exfalso. apply Hn. rewrite length_app, length_replicate. cbn. lia. }
      replace (S (length rest) - 1) with (S (length rest - 1)) by lia.
      cbn [replicate]. rewrite (insert_at_end filled _ p None i Hi).
      replace (filled ++ p :: replicate (length rest - 1) None)
        with ((filled ++ [p]) ++ replicate (length rest - 1) None)
        by (rewrite <- app_assoc; reflexivity).
      rewrite (IH (S i) (filled ++ [p]) r').
      * rewrite Hall. cbn. rewrite <- app_assoc. reflexivity.
      * lia.
      * cbn in Hlt. lia.
      * rewrite length_app. cbn. lia.
    + apply Z.ltb_ge in Hcmp.
      assert (Hgt : (Z.of_nat i >? idx)%Z = false) by (rewrite Z.gtb_ltb; apply Z.ltb_ge; lia).
      rewrite Hgt.
      replace (Z.to_nat idx - i) with 0 by lia.
      change (delete 0 (a :: rest)) with rest.
      replace (S (length rest) - 1) with (length rest) by lia.
      apply (getPeers_loop_rest idx (S i) rest filled r 1).
      * right. split; [lia | split; [lia | reflexivity]].
      * lia.
Qed.

Lemma getPeers_spec (own : wallet.Address) (addrs : list wallet.Address) (r : Registry) :
  IndexOfAddr addrs own = (-1)%Z \/
  (0 <= IndexOfAddr addrs own < Z.of_nat (length addrs))%Z ->
  getPeers Registry Get IndexOfAddr own addrs r
  = Some (get_all Registry Get (others (IndexOfAddr addrs own) addrs) r).
Proof.
  intros Hidx. unfold getPeers, others.
  destruct Hidx as [-> | [Hge Hlt]].
  - rewrite !Z.eqb_refl. rewrite Z.sub_0_r.
    destruct (Z.of_nat (length addrs) <? 0)%Z eqn:Hneg; [apply Z.ltb_lt in Hneg; lia |].
    rewrite Nat2Z.id.
    pose proof (getPeers_loop_rest (-1) 0 addrs [] r 0) as H.
    cbn [app] in H. rewrite H; [| left; auto | reflexivity].
    destruct (get_all Registry Get addrs r). reflexivity.
  - assert (Hne : (IndexOfAddr addrs own =? -1)%Z = false) by (apply Z.eqb_neq; lia).
    rewrite Hne.
    destruct (Z.of_nat (length addrs) - 1 <? 0)%Z eqn:Hneg; [apply Z.ltb_lt in Hneg; lia |].
    replace (Z.to_nat (Z.of_nat (length addrs) - 1)) with (length addrs - 1) by lia.
    pose proof (getPeers_loop_before (IndexOfAddr addrs own) 0 addrs [] r) as H.
    cbn [app] in H. rewrite Nat.sub_0_r in H. rewrite H; [| lia | lia | reflexivity].
    destruct (get_all Registry Get _ r). reflexivity.
Qed.

(** X10.  [getPeers] returns the peers of the given addresses in their
    order, the address at the index that [IndexOfAddr] answers for the own
    address being left out (none when it answers -1), and asks the registry
    for exactly these peers, once each and in that order. *)
Theorem getPeers_leaves_out_own (own : wallet.Address) (addrs : list wallet.Address)
  (r : Registry) :
  IndexOfAddr addrs own = (-1)%Z \/
  (0 <= IndexOfAddr addrs own < Z.of_nat (length addrs))%Z ->
  getPeers Registry Get IndexOfAddr own addrs r
  = Some (get_all Registry Get (others (IndexOfAddr addrs own) addrs) r) /\
  length (fst (get_all Registry Get (others (IndexOfAddr addrs own) addrs) r))
  = length (others (IndexOfAddr addrs own) addrs).
Proof.
  intros Hidx. split; [apply getPeers_spec; exact Hidx | apply get_all_length].
Qed.

End GetPeersProperties.

Section ChannelConnProperties.

Import conn.

Variable Subscribe : option nat -> option channel.error.

Lemma to16_small (n : nat) : (N.of_nat n < 2 ^ 16)%N -> to16 n = n.
Proof.
  intros H. unfold to16. rewrite N.mod_small by exact H. apply Nat2N.id.
Qed.

Lemma newChannelConn_loop_spec (idx i : nat) (peers subscribed_ : list (option nat))
  (peerIdx_ : gmap (option nat) nat) :
  (forall p, In p peers -> Subscribe p = None) ->
  List.NoDup peers ->
  (N.of_nat (i + length peers) < 2 ^ 16)%N ->
  exists peerIdx',
    newChannelConn_loop Subscribe idx i peers subscribed_ peerIdx_
    = inr (subscribed_ ++ peers, peerIdx') /\
    (forall k p, peers !! k = Some p ->
       peerIdx' !! p = Some (if decide (i + k < idx) then i + k else S (i + k))) /\
    (forall p, ~ In p peers -> peerIdx' !! p = peerIdx_ !! p).
Proof.
  revert i subscribed_ peerIdx_.
  induction peers as [| p rest IH]; intros i subscribed_ peerIdx_ Hsub Hnd Hlen.
  - exists peerIdx_. cbn. rewrite app_nil_r. split; [reflexivity |].
    split; [intros k p H; rewrite lookup_nil in H; discriminate H | reflexivity].
  - cbn [newChannelConn_loop].
    rewrite (Hsub p) by (left; reflexivity).
    inversion Hnd as [| ? ? Hnotin Hnd']; subst.
    cbn [length] in Hlen.
    rewrite (to16_small i) by lia.
    rewrite (to16_small (i + 1)) by lia.
    destruct (IH (S i) (subscribed_ ++ [p])
                (if decide (idx <= i) then <[p := i + 1]> (<[p := i]> peerIdx_)
                 else <[p := i]> peerIdx_))
      as (peerIdx' & Hloop & Hin & Hout).
    { intros q Hq. apply Hsub. right. exact Hq. }
    { exact Hnd'. }
    { lia. }
    exists peerIdx'. split; [| split].
    + rewrite Hloop. rewrite <- app_assoc. reflexivity.
    + intros k q Hk. destruct k as [| k]; cbn in Hk.
      * simplify_eq. rewrite (Hout q Hnotin). rewrite Nat.add_0_r.
        destruct (decide (idx <= i)) as [Hle | Hgt].
        -- rewrite lookup_insert_eq. destruct (decide (i < idx)); [lia |].
           f_equal. lia.
        -- rewrite lookup_insert_eq. destruct (decide (i < idx)); [reflexivity | lia].
      * rewrite (Hin k q Hk).
        replace (S i + k) with (i + S k) by lia. reflexivity.
    + intros q Hq. rewrite Hout by (intros Hc; apply Hq; right; exact Hc).
      assert (Hne : p <> q) by (intros ->; apply Hq; left; reflexivity).
      destruct (decide (idx <= i)); rewrite ?lookup_insert_ne by exact Hne; reflexivity.
Qed.

Lemma newChannelConn_spec (peers : list (option nat)) (idx : nat) :
  (forall p, In p peers -> Subscribe p = None) ->
  List.NoDup peers ->
  (N.of_nat (length peers) < 2 ^ 16)%N ->
  exists c,
    newChannelConn Subscribe peers idx = inr c /\
    subscribed c = peers /\ broadcast c = peers /\
    (forall i p, peers !! i = Some p ->
       peerIdx c !! p = Some (if decide (i < idx) then i else S i)) /\
    (forall p, ~ In p peers -> peerIdx c !! p = None).
Proof.
  intros Hsub Hnd Hlen.
  destruct (newChannelConn_loop_spec idx 0 peers [] ∅ Hsub Hnd Hlen)
    as (peerIdx' & Hloop & Hin & Hout).
  unfold newChannelConn. rewrite Hloop. eexists. split; [reflexivity |].
  cbn [subscribed broadcast peerIdx app]. repeat split.
  - intros i p Hi. apply (Hin i p Hi).
  - intros p Hp. rewrite (Hout p Hp). apply lookup_empty.
Qed.

(** X11.  The channel connection maps the peers to participant indices that
    step over the own index: given peers that are pairwise different, fewer
    than 2^16 of them, whose subscriptions succeed, the peer at position
    [i] gets index [i] when [i] is below the own index and [i + 1]
    otherwise; no peer gets the own index; the map holds the given peers
    and no others; and all of them are subscribed, in their order. *)
Theorem newChannelConn_indices (peers : list (option nat)) (idx : nat) :
  (forall p, In p peers -> Subscribe p = None) ->
  List.NoDup peers ->
  (N.of_nat (length peers) < 2 ^ 16)%N ->
  exists c,
    newChannelConn Subscribe peers idx = inr c /\
    subscribed c = peers /\ broadcast c = peers /\
    (forall i p, peers !! i = Some p ->
       peerIdx c !! p = Some (if decide (i < idx) then i else S i)) /\
    (forall p, peerIdx c !! p <> Some idx) /\
    (forall p, In p peers <-> is_Some (peerIdx c !! p)).
Proof.
  intros Hsub Hnd Hlen.
  destruct (newChannelConn_spec peers idx Hsub Hnd Hlen)
    as (c & Hc & Hs & Hb & Hin & Hout).
  exists c. split; [exact Hc |]. split; [exact Hs |]. split; [exact Hb |].
  assert (Hmem : forall p, In p peers -> exists i, peers !! i = Some p).
  { intros p Hp. apply list_elem_of_In, list_elem_of_lookup in Hp. exact Hp. }
  repeat split.
  - exact Hin.
  - intros p Hp. destruct (in_dec (option_eq_dec (A := nat)) p peers) as [Hmemb | Hnot].
    + destruct (Hmem p Hmemb) as [i Hi]. rewrite (Hin i p Hi) in Hp.
      destruct (decide (i < idx)); simplify_eq; lia.
    + rewrite (Hout p Hnot) in Hp. discriminate Hp.
  - intros Hp. destruct (Hmem p Hp) as [i Hi]. rewrite (Hin i p Hi). eauto.
  - intros [v Hv]. destruct (in_dec (option_eq_dec (A := nat)) p peers) as [Hmemb | Hnot];
      [exact Hmemb |].
    rewrite (Hout p Hnot) in Hv. discriminate Hv.
Qed.

Lemma newChannelConn_loop_fails (idx i : nat) (before after : list (option nat))
  (p : option nat) (err : channel.error) (subscribed_ : list (option nat))
  (peerIdx_ : gmap (option nat) nat) :
  (forall q, In q before -> Subscribe q = None) ->
  Subscribe p = Some err ->
  newChannelConn_loop Subscribe idx i (before ++ p :: after) subscribed_ peerIdx_
  = inl (channel.WithMessage err "subscribing peer[%d] (%v)", subscribed_ ++ before).
Proof.
  intros Hok Hp. revert i subscribed_ peerIdx_.
  induction before as [| q before IH]; intros i subscribed_ peerIdx_.
  - cbn [app newChannelConn_loop]. rewrite Hp, app_nil_r. reflexivity.
  - cbn [app newChannelConn_loop]. rewrite (Hok q) by (left; reflexivity).
    rewrite IH by (intros q' Hq'; apply Hok; right; exact Hq').
    rewrite <- app_assoc. reflexivity.
Qed.

(** X12.  A subscription that fails ends [newChannelConn] and nothing is
    undone: the error returned is that of the first peer whose
    subscription fails, wrapped; the peers before it have been subscribed,
    and stay so on a receiver that is handed to nobody, and no peer after
    it is subscribed. *)
Theorem newChannelConn_stops_at_failed_subscription (idx : nat)
  (before after : list (option nat)) (p : option nat) (err : channel.error) :
  (forall q, In q before -> Subscribe q = None) ->
  Subscribe p = Some err ->
  newChannelConn Subscribe (before ++ p :: after) idx
  = inl (channel.WithMessage err "subscribing peer[%d] (%v)", before).
Proof.
  intros Hok Hp. unfold newChannelConn.
  rewrite (newChannelConn_loop_fails idx 0 before after p err [] ∅ Hok Hp).
  reflexivity.
Qed.

End ChannelConnProperties.

Section ConnectionProperties.

Import conn.

Variable Registry : Type.
Variable Get : Registry -> wallet.Address -> option nat * Registry.
Variable IndexOfAddr : list wallet.Address -> wallet.Address -> Z.
Variable Subscribe : option nat -> option channel.error.

Lemma lookup_delete_shift {A} (l : list A) (k j : nat) (a : A) :
  j <> k -> l !! j = Some a ->
  delete k l !! (if decide (j < k) then j else j - 1) = Some a.
Proof.
  intros Hne Hj. destruct (decide (j < k)) as [Hlt | Hge].
  - rewrite list_lookup_delete_lt by exact Hlt. exact Hj.
  - rewrite list_lookup_delete_ge by lia. replace (S (j - 1)) with j by lia. exact Hj.
Qed.

Lemma get_all_lookup (addrs : list wallet.Address) (r : Registry) (i : nat) a :
  addrs !! i = Some a -> is_Some (fst (get_all Registry Get addrs r) !! i).
Proof.
  intros H. apply lookup_lt_is_Some.
  rewrite get_all_length. eapply lookup_lt_Some. exact H.
Qed.

(** X13.  Peers keep the participant index of their address: when the own
    address is at index [k] of the participants' addresses, the peers that
    [getPeers] returns, handed with [k] to [newChannelConn], are mapped back
    to the positions that their addresses have among the participants (the
    peer at position [j'] of the result standing for the address at
    position [j'] of the addresses without the own one). *)
Theorem peers_keep_participant_index (own : wallet.Address) (addrs : list wallet.Address)
  (r : Registry) (k : nat) :
  IndexOfAddr addrs own = Z.of_nat k ->
  k < length addrs ->
  (N.of_nat (length addrs) < 2 ^ 16)%N ->
  List.NoDup (fst (get_all Registry Get (delete k addrs) r)) ->
  (forall p, Subscribe p = None) ->
  exists peers r' c,
    getPeers Registry Get IndexOfAddr own addrs r = Some (peers, r') /\
    (peers, r') = get_all Registry Get (delete k addrs) r /\
    newChannelConn Subscribe peers k = inr c /\
    forall j a, j <> k -> addrs !! j = Some a ->
      exists p,
        delete k addrs !! (if decide (j < k) then j else j - 1) = Some a /\
        peers !! (if decide (j < k) then j else j - 1) = Some p /\
        peerIdx c !! p = Some j.
Proof.
  intros Hidx Hk Hlen Hnd Hsub.
  pose proof (getPeers_spec Registry Get IndexOfAddr own addrs r) as Hget.
  rewrite Hidx in Hget. unfold others in Hget.
  assert (Hne : (Z.of_nat k =? -1)%Z = false) by (apply Z.eqb_neq; lia).
  rewrite Hne, Nat2Z.id in Hget. specialize (Hget ltac:(right; lia)).
  destruct (get_all Registry Get (delete k addrs) r) as [peers r'] eqn:Hall.
  cbn [fst] in Hnd.
  assert (Hplen : length peers = length addrs - 1).
  { pose proof (get_all_length Registry Get (delete k addrs) r) as Hl.
    rewrite Hall in Hl. cbn [fst] in Hl. rewrite Hl.
    rewrite length_delete; [reflexivity |]. apply lookup_lt_is_Some. exact Hk. }
  destruct (newChannelConn_spec Subscribe peers k) as (c & Hc & _ & _ & Hin & _).
  { intros p _. apply Hsub. }
  { exact Hnd. }
  { lia. }
  exists peers, r', c. split; [exact Hget |]. split; [reflexivity |].
  split; [exact Hc |].
  intros j a Hj Ha.
  pose proof (lookup_delete_shift addrs k j a Hj Ha) as Hd.
  destruct (get_all_lookup (delete k addrs) r _ a Hd) as [p Hp].
  rewrite Hall in Hp. cbn [fst] in Hp.
  exists p. split; [exact Hd |]. split; [exact Hp |].
  rewrite (Hin _ p Hp).
  apply lookup_lt_Some in Ha.
  destruct (decide (j < k)) as [Hlt | Hge].
  - destruct (decide (j < k)); [reflexivity | contradiction].
  - destruct (decide (j - 1 < k)); [lia |]. f_equal. lia.
Qed.

(** X14.  [recv] does not return when the wait is cut short: given what
    [Next] returns for a context that is done, or a receiver that is
    closed, it panics; it panics as well on a message of a peer that the
    connection does not know and on a message that is no channel message;
    and with the context live and the receiver open, the oldest queued
    channel message of a known peer comes back with the index of that
    peer. *)
Theorem recv_panics_when_cut_short (c : channelConn) (done1 done2 : bool)
  (r1 r2 : peer.Receiver (option nat) (option WireMsg)) :
  (done1 = true \/ peer.closed r1 = true -> recv_on done1 r1 done2 r2 c = [None]) /\
  recv None c = None /\
  (forall t, peerIdx c !! peer.tuple_Peer t = None -> recv (Some t) c = None) /\
  (forall t, (forall cm, peer.tuple_Msg t <> Some (ChannelMessage cm)) ->
     recv (Some t) c = None) /\
  (forall t q i cm,
     peer.closed r1 = false -> peer.closed r2 = false ->
     peer.buf (peer.msgs r2) = t :: q ->
     peerIdx c !! peer.tuple_Peer t = Some i ->
     peer.tuple_Msg t = Some (ChannelMessage cm) ->
     recv_on false r1 false r2 c = [Some (i, cm)]).
Proof.
  assert (Hnil : recv None c = None).
  { unfold recv. destruct (peerIdx c !! None); reflexivity. }
  split; [| split; [exact Hnil | split; [| split]]].
  - intros H. unfold recv_on. rewrite (Next_entry _ _ done1 done2 r1 r2 H).
    cbn [map fst]. rewrite Hnil. reflexivity.
  - intros t Ht. unfold recv. rewrite Ht. reflexivity.
  - intros t Ht. unfold recv. destruct (peerIdx c !! _); [| reflexivity].
    destruct (peer.tuple_Msg t) as [[cm | ty] |]; try reflexivity.
    exfalso. apply (Ht cm). reflexivity.
  - intros t q i cm H1 H2 Hb Hp Hm. unfold recv_on.
    rewrite (Next_dequeues _ _ r1 r2 t q H1 H2 Hb). cbn [map fst].
    unfold recv. rewrite Hp, Hm. reflexivity.
Qed.

End ConnectionProperties.

Section InitExchangeProperties.

Import channel conn.

Variable Sign : wallet.Account -> Params -> option State -> wallet.Sig * option error.
Variable Verify : wallet.Address -> Params -> option State -> wallet.Sig -> bool * option error.
Variable send : client.ChannelMsg -> option error.

Lemma Sig_returns (m m1 : machine) (sig : wallet.Sig) sent :
  Sig Sign m = Returns (sig, None) m1 sent ->
  inPhase (phase m) signingPhases = true /\
  phase m1 = phase m /\ params m1 = params m /\
  TState (stagingTX m1) = TState (stagingTX m) /\
  currentTX m1 = currentTX m /\ prevTXs m1 = prevTXs m /\
  Sigs (stagingTX m1) !! idx m = Some sig /\
  (forall j, j <> idx m -> Sigs (stagingTX m1) !! j = Sigs (stagingTX m) !! j).
Proof.
  unfold Sig. intros H.
  destruct (inPhase (phase m) signingPhases) eqn:Hph; [| discriminate H].
  cbn [negb] in H.
  destruct (Sigs (stagingTX m) !! idx m) as [[s |] |] eqn:Hs; [| | discriminate H].
  - simplify_eq. auto 10.
  - destruct (Sign _ _ _) as [sg [e |]]; simplify_eq.
    unfold with_sig, with_stagingTX. cbn [phase params stagingTX currentTX prevTXs TState Sigs].
    repeat split.
    + apply list_lookup_insert_eq. eapply lookup_lt_Some; eassumption.
    + intros j Hj. apply list_lookup_insert_ne. congruence.
Qed.

Lemma recv_Some (next : option (peer.msgTuple (option nat) (option WireMsg)))
  (c : channelConn) (i : Index) (cm : client.ChannelMsg) :
  recv next c = Some (i, cm) ->
  exists t, next = Some t /\ peerIdx c !! peer.tuple_Peer t = Some i /\
    peer.tuple_Msg t = Some (ChannelMessage cm).
Proof.
  unfold recv. intros H. destruct next as [t |].
  - exists t. destruct (peerIdx c !! peer.tuple_Peer t) as [j |]; [| discriminate H].
    destruct (peer.tuple_Msg t) as [[cm' | ty] |]; simplify_eq. auto.
  - destruct (peerIdx c !! None); discriminate H.
Qed.

(** X15.  When [initExchangeSigsAndEnable] returns nil, the channel is
    enabled for funding on both signatures: the machine was in phase
    InitSigning and is in phase Funding; [recv] gave an acceptance of
    version 0 from a peer that the connection knows, whose signature
    verifies against the participant at that peer's index over the staged
    initial state; the current transaction is that state with every
    signature slot filled and the peer's signature in the peer's slot; the
    transaction that was current has been appended to the previous ones and
    the staging transaction is cleared; and the own signature has been
    sent without error and the result of the send been read. *)
Theorem initExchange_enables_on_both_signatures
  (next : option (peer.msgTuple (option nat) (option WireMsg))) (c : channelConn)
  (m : machine) :
  ex_ended (initExchangeSigsAndEnable Sign Verify send next c m) = client.Return None ->
  let m' := ex_machine (initExchangeSigsAndEnable Sign Verify send next c m) in
  phase m = InitSigning /\ phase m' = Funding /\
  (exists t pidx acc part,
     next = Some t /\ peerIdx c !! peer.tuple_Peer t = Some pidx /\
     peer.tuple_Msg t = Some (ChannelMessage (client.MsgUpdateAcc acc)) /\
     client.AccVersion acc = 0%N /\
     Parts (params m) !! pidx = Some part /\
     Verify part (params m) (TState (stagingTX m)) (client.AccSig acc) = (true, None) /\
     Sigs (currentTX m') !! pidx = Some (client.AccSig acc)) /\
  TState (currentTX m') = TState (stagingTX m) /\
  filled (Sigs (currentTX m')) /\
  prevTXs m' = prevTXs m ++ [currentTX m] /\
  stagingTX m' = Transaction_zero /\
  (exists own, handed (initExchangeSigsAndEnable Sign Verify send next c m) = Some own /\
     send (client.MsgUpdateAcc own) = None) /\
  collected (initExchangeSigsAndEnable Sign Verify send next c m) = true.
Proof.
  unfold initExchangeSigsAndEnable.
  destruct (Sig Sign m) as [[sig [e |]] m1 s1 | m1] eqn:HS; try discriminate.
  destruct (recv next c) as [[pidx cm] |] eqn:Hr; [| discriminate].
  destruct cm as [u | acc | rj]; try discriminate.
  destruct (negb _) eqn:Hv; [discriminate |].
  destruct (AddSig Verify pidx _ m1) as [[e |] m2 s2 | m2] eqn:HA; try discriminate.
  destruct (EnableInit m2) as [[e |] m3 s3 | m3] eqn:HE; try discriminate.
  cbn [ex_ended ex_machine handed collected]. intros Hsend.
  apply Sig_returns in HS.
  destruct HS as (Hph & Hp1 & Hpar1 & Hst1 & Hc1 & Hprev1 & Hown & Hother).
  destruct (AddSig_signing Verify pidx (client.AccSig acc) m1) as (Hiff & Hset & _).
  { rewrite Hp1. exact Hph. }
  pose proof (proj1 (Hiff _ _) HA) as (Hslot & (part & Hpart & Hver) & -> & ->).
  destruct (Hset _ _ HA) as [Hpeer _].
  destruct (enableStaged_promotes {| TFrom := InitSigning; TTo := Funding |}
              (with_sig pidx (client.AccSig acc) m1) legal_funding) as (Hsucc & _).
  destruct (Hsucc _ _ HE) as (Hfrom & Hfill & _ & Hprev & Hcur & Hstag & Hto & _).
  cbn [TFrom TTo] in Hfrom, Hto.
  apply recv_Some in Hr. destruct Hr as (t & -> & Hidx & Hmsg).
  split; [cbn [phase with_sig with_stagingTX] in Hfrom; congruence |].
  split; [exact Hto |].
  split.
  { exists t, pidx, acc, part. rewrite Hcur.
    rewrite <- Hpar1, <- Hst1.
    apply negb_false_iff, N.eqb_eq in Hv. auto 10. }
  rewrite Hcur, Hprev, Hstag.
  split; [cbn [TState stagingTX with_sig with_stagingTX]; exact Hst1 |].
  split; [exact Hfill |].
  split; [cbn [prevTXs currentTX with_sig with_stagingTX]; congruence |].
  split; [reflexivity |].
  split; [| reflexivity].
  eexists. split; [reflexivity |].
  destruct (send _); [discriminate Hsend | reflexivity].
Qed.

Lemma AddSig_frame (i : Index) (sig : wallet.Sig) (m : machine) :
  let m' := machine_after (AddSig Verify i sig m) in
  phase m' = phase m /\ params m' = params m /\
  currentTX m' = currentTX m /\ prevTXs m' = prevTXs m.
Proof.
  cbv zeta. unfold AddSig. repeat case_match; cbn; auto.
Qed.

Lemma EnableInit_frame (m : machine) :
  match EnableInit m with
  | Returns None m' _ => phase m = InitSigning /\ phase m' = Funding
  | Returns (Some _) m' _ => m' = m
  | Panics m' => m' = m
  end.
Proof.
  destruct (enableStaged_promotes {| TFrom := InitSigning; TTo := Funding |} m legal_funding)
    as (Hs & _ & He & Hp).
  change (EnableInit m) with (enableStaged {| TFrom := InitSigning; TTo := Funding |} m).
  destruct (enableStaged _ m) as [[e |] m' s | m'] eqn:H.
  - apply (He _ _ _ eq_refl).
  - destruct (Hs _ _ eq_refl) as (? & _ & _ & _ & _ & _ & ? & _). cbn [TFrom TTo] in *. auto.
  - apply Hp. reflexivity.
Qed.

(** X16.  [initExchangeSigsAndEnable] sends the own signature before it
    has looked at the peer's.  As soon as [Sig] has returned a signature, a
    goroutine hands an acceptance with the channel's id, version 0 and that
    signature to the connection, whatever [recv] then gives; when no
    message was handed over the machine is untouched and the call has not
    returned nil.  The result of that send is read only after [EnableInit]
    has succeeded, with the machine gone from InitSigning to Funding, and
    is then what the call returns (nil for nil); on every other way out
    nobody reads it, the call does not return nil, and the phase, the
    current and the previous transactions are as they were. *)
Theorem initExchange_sends_own_signature_first
  (next : option (peer.msgTuple (option nat) (option WireMsg))) (c : channelConn)
  (m : machine) :
  let r := initExchangeSigsAndEnable Sign Verify send next c m in
  (forall sig m1 sent, Sig Sign m = Returns (sig, None) m1 sent ->
     handed r = Some {| client.ChannelID := ID_of m; client.AccVersion := 0;
                        client.AccSig := sig |}) /\
  (handed r = None ->
     ex_machine r = m /\ ex_ended r <> client.Return None) /\
  (collected r = true ->
     phase m = InitSigning /\ phase (ex_machine r) = Funding /\
     exists own, handed r = Some own /\
       ex_ended r = client.Return
         (conn.WithMessage (send (client.MsgUpdateAcc own)) "sending initial signature")) /\
  (collected r = false ->
     ex_ended r <> client.Return None /\
     phase (ex_machine r) = phase m /\
     currentTX (ex_machine r) = currentTX m /\
     prevTXs (ex_machine r) = prevTXs m).
Proof.
  cbv zeta. unfold initExchangeSigsAndEnable.
  destruct (Sig Sign m) as [[sig [e |]] m1 s1 | m1] eqn:HS.
  - pose proof (Sig_keeps_phase Sign _ _ _ _ HS) as (Hp & Hc & Hpr & _).
    cbn [handed collected ex_ended ex_machine].
    split; [intros ? ? ? H; discriminate H |].
    split; [intros _; split; [| discriminate] |].
    { unfold Sig in HS. repeat case_match; simplify_eq; reflexivity. }
    split; [discriminate |]. intros _. split; [discriminate | auto].
  - pose proof (Sig_keeps_phase Sign _ _ _ _ HS) as (Hp & Hc & Hpr & _).
    apply Sig_returns in HS. destruct HS as (_ & _ & Hpar & _).
    assert (Hid : ID_of m1 = ID_of m) by (unfold ID_of; rewrite Hpar; reflexivity).
    rewrite Hid.
    pose proof (AddSig_frame) as HA.
    destruct (recv next c) as [[pidx [u | acc | rj]] |];
      cbn [handed collected ex_ended ex_machine];
      try (split; [intros ? ? ? H; simplify_eq; reflexivity |];
           split; [discriminate |]; split; [discriminate |];
           intros _; split; [discriminate | auto]).
    destruct (negb _);
      cbn [handed collected ex_ended ex_machine];
      try (split; [intros ? ? ? H; simplify_eq; reflexivity |];
           split; [discriminate |]; split; [discriminate |];
           intros _; split; [discriminate | auto]).
    specialize (HA pidx (client.AccSig acc) m1). cbv zeta in HA.
    destruct HA as (Hp2 & _ & Hc2 & Hpr2).
    destruct (AddSig Verify pidx _ m1) as [[e |] m2 s2 | m2];
      cbn [machine_after] in Hp2, Hc2, Hpr2;
      cbn [handed collected ex_ended ex_machine];
      try (split; [intros ? ? ? H; simplify_eq; reflexivity |];
           split; [discriminate |]; split; [discriminate |];
           intros _; split; [discriminate |]; repeat split; congruence).
    pose proof (EnableInit_frame m2) as HE.
    destruct (EnableInit m2) as [[e |] m3 s3 | m3];
      cbn [handed collected ex_ended ex_machine];
      try (subst m3; split; [intros ? ? ? H; simplify_eq; reflexivity |];
           split; [discriminate |]; split; [discriminate |];
           intros _; split; [discriminate |]; repeat split; congruence).
    destruct HE as [Hfrom Hto].
    split; [intros ? ? ? H; simplify_eq; reflexivity |].
    split; [discriminate |].
    split; [| discriminate].
    intros _. split; [congruence |]. split; [exact Hto |]. eauto.
  - cbn [handed collected ex_ended ex_machine].
    split; [intros ? ? ? H; discriminate H |].
    split; [intros _; split; [| discriminate] |].
    { unfold Sig in HS. repeat case_match; simplify_eq; reflexivity. }
    split; [discriminate |]. intros _. split; [discriminate |].
    unfold Sig in HS. repeat case_match; simplify_eq; auto.
Qed.

Lemma initExchange_completes (m : machine) (c : channelConn) (st : State)
  (i j : nat) (s1 s2 : list Byte.byte) (from : option nat) (part : wallet.Address) :
  opens m i (acc m) (params m) st ->
  IsFinal st = false ->
  i < 2 -> j = 1 - i ->
  Sign (acc m) (params m) (Some st) = (Some s1, None) ->
  Parts (params m) !! j = Some part ->
  Verify part (params m) (Some st) (Some s2) = (true, None) ->
  peerIdx c !! from = Some j ->
  send (client.MsgUpdateAcc (initial_acc (params m) (Some s1))) = None ->
  let r := initExchangeSigsAndEnable Sign Verify send
             (arrives from (initial_acc (params m) (Some s2))) c m in
  ex_ended r = client.Return None /\
  handed r = Some (initial_acc (params m) (Some s1)) /\
  phase (ex_machine r) = Funding /\
  currentTX (ex_machine r)
  = {| TState := Some st; Sigs := <[j := Some s2]> (<[i := Some s1]> [None; None]) |}.
Proof.
  intros (Hph & _ & Hi & _ & Hst) Hfin Hlt -> Hsign Hpart Hver Hfrom Hsend.
  cbv zeta. unfold initExchangeSigsAndEnable.
  assert (Hsig : inPhase (phase m) signingPhases = true) by (rewrite Hph; reflexivity).
  destruct (Sig_signing Sign m Hsig) as (Hfresh & _).
  destruct (Hfresh (Some s1)) as [HS _].
  { rewrite Hst, Hi. cbn [Sigs]. destruct i as [| [| i]]; [reflexivity | reflexivity | lia]. }
  { rewrite Hst. exact Hsign. }
  rewrite HS.
  unfold arrives, recv. cbn [peer.tuple_Peer peer.tuple_Msg]. rewrite Hfrom.
  cbn [initial_acc client.AccVersion client.AccSig N.eqb negb].
  set (m1 := with_sig (idx m) (Some s1) m).
  assert (Hsig1 : inPhase (phase m1) signingPhases = true) by exact Hsig.
  destruct (AddSig_signing Verify (1 - i) (Some s2) m1 Hsig1) as (Hiff & _).
  assert (HA : AddSig Verify (1 - i) (Some s2) m1
               = Returns None (with_sig (1 - i) (Some s2) m1) []).
  { apply Hiff. subst m1. unfold with_sig, with_stagingTX.
    cbn [stagingTX Sigs TState params]. rewrite Hst, Hi. cbn [Sigs TState].
    split; [destruct i as [| [| i]]; [reflexivity | reflexivity | lia] |].
    split; [exists part; split; assumption | split; reflexivity]. }
  rewrite HA.
  set (m2 := with_sig (1 - i) (Some s2) m1).
  destruct (enableStaged_promotes {| TFrom := InitSigning; TTo := Funding |} m2 legal_funding)
    as (_ & Hdo & _).
  destruct (Hdo st) as [sent HE].
  { exact Hph. }
  { subst m2 m1. unfold with_sig, with_stagingTX. cbn [stagingTX TState]. rewrite Hst.
    reflexivity. }
  { rewrite Hfin. reflexivity. }
  { subst m2 m1. unfold with_sig, with_stagingTX. cbn [stagingTX Sigs]. rewrite Hst, Hi.
    cbn [Sigs]. destruct i as [| [| i]]; [| | lia];
      repeat constructor; discriminate. }
  change (EnableInit m2) with (enableStaged {| TFrom := InitSigning; TTo := Funding |} m2).
  rewrite HE. cbn [ex_ended ex_machine handed collected TTo].
  assert (Hid : ID_of m1 = id (params m)) by reflexivity.
  rewrite Hid. fold (initial_acc (params m) (Some s1)). rewrite Hsend.
  split; [reflexivity |]. split; [reflexivity |]. split; [reflexivity |].
  subst m2 m1. unfold with_sig, with_stagingTX, promote, with_phase.
  cbn [currentTX stagingTX Sigs TState]. rewrite Hst, Hi. reflexivity.
Qed.

(** X17.  The two participants of a channel agree after the exchange.
    When the same initial state, not a final one, is staged on the
    machines of both, the signatures that [Sign] makes for their accounts
    are accepted by [Verify] for their addresses, each connection knows the
    other one under the other's index, and sending succeeds, then the
    acceptance that each [initExchangeSigsAndEnable] hands to its connection
    is one that lets the call of the other return nil, and both calls leave
    their machines in phase Funding with the same current transaction: the
    initial state with the signature of the first participant in slot 0
    and that of the second in slot 1. *)
Theorem init_exchange_agrees (p : Params) (st : State) (accA accB : wallet.Account)
  (a b : list Byte.byte) (pA pB : option nat) (cA cB : channelConn) (mA mB : machine) :
  Parts p = [wallet.Address_of accA; wallet.Address_of accB] ->
  IsFinal st = false ->
  opens mA 0 accA p st -> opens mB 1 accB p st ->
  Sign accA p (Some st) = (Some a, None) ->
  Sign accB p (Some st) = (Some b, None) ->
  Verify (wallet.Address_of accA) p (Some st) (Some a) = (true, None) ->
  Verify (wallet.Address_of accB) p (Some st) (Some b) = (true, None) ->
  peerIdx cA !! pB = Some 1 -> peerIdx cB !! pA = Some 0 ->
  (forall msg, send msg = None) ->
  exists fromA fromB,
    let rA := initExchangeSigsAndEnable Sign Verify send (arrives pB fromB) cA mA in
    let rB := initExchangeSigsAndEnable Sign Verify send (arrives pA fromA) cB mB in
    handed rA = Some fromA /\ handed rB = Some fromB /\
    ex_ended rA = client.Return None /\ ex_ended rB = client.Return None /\
    phase (ex_machine rA) = Funding /\ phase (ex_machine rB) = Funding /\
    currentTX (ex_machine rA) = {| TState := Some st; Sigs := [Some a; Some b] |} /\
    currentTX (ex_machine rB) = currentTX (ex_machine rA).
Proof.
  intros Hparts Hfin HA HB HsA HsB HvA HvB HcA HcB Hsend.
  pose proof HA as (_ & HaccA & _ & HparA & _).
  pose proof HB as (_ & HaccB & _ & HparB & _).
  exists (initial_acc p (Some a)), (initial_acc p (Some b)).
  assert (HA' : opens mA 0 (acc mA) (params mA) st) by (rewrite HaccA, HparA; exact HA).
  assert (HB' : opens mB 1 (acc mB) (params mB) st) by (rewrite HaccB, HparB; exact HB).
  destruct (initExchange_completes mA cA st 0 1 a b pB (wallet.Address_of accB) HA' Hfin)
    as (HeA & HhA & HpA & HtA);
    rewrite ?HaccA, ?HparA, ?Hparts; try reflexivity; try assumption; try lia; try apply Hsend.
  destruct (initExchange_completes mB cB st 1 0 b a pA (wallet.Address_of accA) HB' Hfin)
    as (HeB & HhB & HpB & HtB);
    rewrite ?HaccB, ?HparB, ?Hparts; try reflexivity; try assumption; try lia; try apply Hsend.
  rewrite HparA in HeA, HhA, HpA, HtA. rewrite HparB in HeB, HhB, HpB, HtB.
  cbv zeta. rewrite HhA, HhB, HeA, HeB, HpA, HpB, HtA, HtB.
  repeat split; reflexivity.
Qed.

End InitExchangeProperties.

Lemma getPeers_leaves_out_own_witness :
  (0 <= scenario.IndexOfAddr (channel.Parts sim.params0) (wallet.Address_of sim.alice)
   < Z.of_nat (length (channel.Parts sim.params0)))%Z /\
  conn.getPeers nat scenario.Get scenario.IndexOfAddr (wallet.Address_of sim.alice)
    (channel.Parts sim.params0) 0
  = Some ([Some 11], 1).
Proof.
  assert (H : (0 <= scenario.IndexOfAddr (channel.Parts sim.params0)
                      (wallet.Address_of sim.alice)
               < Z.of_nat (length (channel.Parts sim.params0)))%Z)
    by (vm_compute; split; [discriminate | reflexivity]).
  split; [exact H |].
  destruct (getPeers_leaves_out_own nat scenario.Get scenario.IndexOfAddr
              (wallet.Address_of sim.alice) (channel.Parts sim.params0) 0 (or_intror H))
    as [Hget _].
  rewrite Hget. reflexivity.
Defined.

Lemma newChannelConn_indices_witness :
  (forall p, In p [Some 11] -> scenario.Subscribe p = None) /\
  List.NoDup [Some 11] /\
  (N.of_nat (length [Some 11]) < 2 ^ 16)%N /\
  exists c,
    conn.newChannelConn scenario.Subscribe [Some 11] 0 = inr c /\
    conn.peerIdx c !! Some 11 = Some 1.
Proof.
  assert (H1 : forall p : option nat, In p [Some 11] -> scenario.Subscribe p = None)
    by (intros p _; reflexivity).
  assert (H2 : List.NoDup [Some 11])
    by (constructor; [intros [] | constructor]).
  assert (H3 : (N.of_nat (length [Some 11]) < 2 ^ 16)%N) by reflexivity.
  split; [exact H1 |]. split; [exact H2 |]. split; [exact H3 |].
  destruct (newChannelConn_indices scenario.Subscribe [Some 11] 0 H1 H2 H3)
    as (c & Hc & _ & _ & Hidx & _).
  exists c. split; [exact Hc |]. apply (Hidx 0 (Some 11)). reflexivity.
Defined.

Lemma peers_keep_participant_index_witness :
  scenario.IndexOfAddr (channel.Parts sim.params0) (wallet.Address_of sim.alice) = Z.of_nat 0 /\
  0 < length (channel.Parts sim.params0) /\
  (N.of_nat (length (channel.Parts sim.params0)) < 2 ^ 16)%N /\
  List.NoDup (fst (conn.get_all nat scenario.Get (delete 0 (channel.Parts sim.params0)) 0)) /\
  exists peers r' c,
    conn.getPeers nat scenario.Get scenario.IndexOfAddr (wallet.Address_of sim.alice)
      (channel.Parts sim.params0) 0 = Some (peers, r') /\
    conn.newChannelConn scenario.Subscribe peers 0 = inr c.
Proof.
  assert (H1 : scenario.IndexOfAddr (channel.Parts sim.params0) (wallet.Address_of sim.alice)
               = Z.of_nat 0) by reflexivity.
  assert (H2 : 0 < length (channel.Parts sim.params0)) by (cbn; lia).
  assert (H3 : (N.of_nat (length (channel.Parts sim.params0)) < 2 ^ 16)%N) by reflexivity.
  assert (H4 : List.NoDup
                 (fst (conn.get_all nat scenario.Get (delete 0 (channel.Parts sim.params0)) 0)))
    by (constructor; [intros [] | constructor]).
  split; [exact H1 |]. split; [exact H2 |]. split; [exact H3 |]. split; [exact H4 |].
  destruct (peers_keep_participant_index nat scenario.Get scenario.IndexOfAddr
              scenario.Subscribe (wallet.Address_of sim.alice) (channel.Parts sim.params0)
              0 0 H1 H2 H3 H4 (fun _ => eq_refl))
    as (peers & r' & c & Hget & _ & Hc & _).
  exists peers, r', c. split; assumption.
Defined.

Lemma initExchange_enables_on_both_signatures_witness :
  conn.ex_ended (conn.initExchangeSigsAndEnable sim.Sign sim.Verify sim.send_ok
                   (Some scenario.from_bob) scenario.to_bob scenario.m_init_signing)
  = client.Return None /\
  channel.phase
    (conn.ex_machine (conn.initExchangeSigsAndEnable sim.Sign sim.Verify sim.send_ok
                        (Some scenario.from_bob) scenario.to_bob scenario.m_init_signing))
  = channel.Funding.
Proof.
  assert (H : conn.ex_ended
                (conn.initExchangeSigsAndEnable sim.Sign sim.Verify sim.send_ok
                   (Some scenario.from_bob) scenario.to_bob scenario.m_init_signing)
              = client.Return None) by (vm_compute; reflexivity).
  split; [exact H |].
  apply (initExchange_enables_on_both_signatures sim.Sign sim.Verify sim.send_ok
           (Some scenario.from_bob) scenario.to_bob scenario.m_init_signing H).
Defined.

Lemma init_exchange_agrees_witness :
  exists fromA fromB,
    conn.handed (conn.initExchangeSigsAndEnable sim.Sign sim.Verify sim.send_ok
                   (conn.arrives (Some 11) fromB) scenario.to_bob scenario.m_init_signing)
    = Some fromA /\
    conn.handed (conn.initExchangeSigsAndEnable sim.Sign sim.Verify sim.send_ok
                   (conn.arrives (Some 10) fromA) scenario.to_alice
                   scenario.m_init_signing_bob)
    = Some fromB /\
    channel.currentTX
      (conn.ex_machine (conn.initExchangeSigsAndEnable sim.Sign sim.Verify sim.send_ok
                          (conn.arrives (Some 10) fromA) scenario.to_alice
                          scenario.m_init_signing_bob))
    = channel.currentTX
        (conn.ex_machine (conn.initExchangeSigsAndEnable sim.Sign sim.Verify sim.send_ok
                            (conn.arrives (Some 11) fromB) scenario.to_bob
                            scenario.m_init_signing)).
Proof.
  destruct (init_exchange_agrees sim.Sign sim.Verify sim.send_ok sim.params0
              (sim.state 0 100 100 false) sim.alice sim.bob
              (wallet.Address_of sim.alice) (wallet.Address_of sim.bob)
              (Some 10) (Some 11) scenario.to_bob scenario.to_alice
              scenario.m_init_signing scenario.m_init_signing_bob)
    as (fromA & fromB & HA & HB & _ & _ & _ & _ & _ & Heq);
    try reflexivity.
  - repeat split.
  - repeat split.
  - exists fromA, fromB. split; [exact HA |]. split; [exact HB | exact Heq].
Defined.

Lemma newChannelConn_stops_at_failed_subscription_witness :
  (forall q, In q [Some 11] -> scenario.Subscribe_but_12 q = None) /\
  scenario.Subscribe_but_12 (Some 12) = Some (channel.New "peer closed") /\
  conn.newChannelConn scenario.Subscribe_but_12 ([Some 11] ++ Some 12 :: [Some 13]) 0
  = inl (channel.WithMessage (channel.New "peer closed") "subscribing peer[%d] (%v)",
         [Some 11]).
Proof.
  assert (H1 : forall q : option nat, In q [Some 11] -> scenario.Subscribe_but_12 q = None)
    by (intros q [<- | []]; reflexivity).
  split; [exact H1 |]. split; [reflexivity |].
  apply (newChannelConn_stops_at_failed_subscription scenario.Subscribe_but_12 0
           [Some 11] [Some 13] (Some 12) (channel.New "peer closed") H1 eq_refl).
Defined.


Section UpdateOutcomes.

Import channel conn.

Variable Sign : wallet.Account -> Params -> option State -> wallet.Sig * option error.
Variable Equals : wallet.Address -> wallet.Address -> bool.
Variable Valid : Allocation -> option error.
Variable equalSum : Allocation -> Allocation -> bool * option error.
Variable AppValidTransition : Params -> option State -> State -> Index -> option error.
Variable send : client.ChannelMsg -> option error.

Lemma sent_messages_notes (sent : list (SubChan * PhaseTransition)) :
  sent_messages (client.notes sent) = [].
Proof. unfold client.notes. induction sent as [| n sent IH]; [reflexivity | exact IH]. Qed.

Lemma sent_messages_app (a b : list client.event) :
  sent_messages (a ++ b) = sent_messages a ++ sent_messages b.
Proof. apply omap_app. Qed.

Lemma machine_Update_fails (st : State) (actor : Index) (m m' : machine) e sent :
  Update Equals Valid equalSum AppValidTransition st actor m = Returns (Some e) m' sent ->
  m' = m.
Proof.
  unfold Update. intros H.
  destruct (expect m _); [simplify_eq; reflexivity |].
  destruct (validTransition_pure Equals Valid equalSum st m) as [_ Hp].
  destruct (validTransition Equals Valid equalSum st m) as [[e1 |] m1 s1 | m1] eqn:Hv;
    try discriminate H.
  - destruct (Hp _ _ _ eq_refl) as [-> _]. simplify_eq. reflexivity.
  - destruct (Hp _ _ _ eq_refl) as [-> _].
    destruct (AppValidTransition _ _ _ _); [simplify_eq; reflexivity |].
    unfold setStaging, setPhase in H. discriminate H.
Qed.

Lemma machine_Update_staged (st : State) (actor : Index) (m m' : machine) sent :
  Update Equals Valid equalSum AppValidTransition st actor m = Returns None m' sent ->
  phase m = Acting /\
  m' = with_phase Signing
         (with_stagingTX {| TState := Some st; Sigs := replicate (N_of m) None |} m).
Proof.
  unfold Update, setStaging, setPhase. intros H.
  destruct (expect m _) eqn:He; [discriminate H |].
  apply expect_None in He. destruct He as [He _].
  destruct (validTransition_pure Equals Valid equalSum st m) as [_ Hp].
  destruct (validTransition Equals Valid equalSum st m) as [[e |] m1 s1 | m1] eqn:Hv;
    try discriminate H.
  destruct (Hp _ _ _ eq_refl) as [-> ->].
  destruct (AppValidTransition _ _ _ _); [discriminate H |].
  simplify_eq. auto.
Qed.

Lemma Sig_fails (m m' : machine) (sig : wallet.Sig) e sent :
  Sig Sign m = Returns (sig, Some e) m' sent -> m' = m.
Proof. unfold Sig. intros H. repeat case_match; simplify_eq; reflexivity. Qed.

Lemma Sig_stores (m m' : machine) (sig : wallet.Sig) sent :
  Sig Sign m = Returns (sig, None) m' sent ->
  phase m' = phase m /\ params m' = params m /\
  TState (stagingTX m') = TState (stagingTX m) /\
  Sigs (stagingTX m') !! idx m = Some sig /\
  currentTX m' = currentTX m /\ prevTXs m' = prevTXs m.
Proof.
  unfold Sig. intros H.
  destruct (negb _); [discriminate H |].
  destruct (Sigs (stagingTX m) !! idx m) as [[s |] |] eqn:Hs; [| | discriminate H].
  - simplify_eq. auto 10.
  - destruct (Sign _ _ _) as [sg [e |]]; simplify_eq.
    unfold with_sig, with_stagingTX. cbn [phase params stagingTX currentTX prevTXs TState Sigs].
    repeat split.
    apply list_lookup_insert_eq. eapply lookup_lt_Some; eassumption.
Qed.

Lemma Discard_after_staging (m : machine) (tx : Transaction) :
  phase m = Acting ->
  exists sent,
    DiscardUpdate (with_phase Signing (with_stagingTX tx m))
    = Returns None (with_stagingTX Transaction_zero m) sent.
Proof.
  intros Hph. unfold DiscardUpdate, setPhase.
  assert (He : expect (with_phase Signing (with_stagingTX tx m))
                 {| TFrom := Signing; TTo := Acting |} = None).
  { apply expect_None. split; [reflexivity | constructor]. }
  rewrite He. eexists. f_equal.
  destruct m. cbn in Hph. subst. reflexivity.
Qed.

Lemma Update_outcomes (up : client.ChannelUpdate) (m : machine) :
  let r := client.Update Sign Equals Valid equalSum AppValidTransition send up m in
  (sent_messages (client.trace r) = [] /\
   (forall err, client.ended r = client.Return err ->
      err <> None /\
      (client.machine_now r = m \/
       phase m = Acting /\ client.machine_now r = with_stagingTX Transaction_zero m))) \/
  (exists acc,
     sent_messages (client.trace r) = [client.MsgUpdateAcc acc] /\
     client.ended r = client.Return (send (client.MsgUpdateAcc acc)) /\
     client.ChannelID acc = ID_of m /\
     client.AccVersion acc = Version (client.State up) /\
     phase m = Acting /\
     phase (client.machine_now r) = Signing /\
     TState (stagingTX (client.machine_now r)) = Some (client.State up) /\
     Sigs (stagingTX (client.machine_now r)) !! idx m = Some (client.AccSig acc) /\
     currentTX (client.machine_now r) = currentTX m /\
     prevTXs (client.machine_now r) = prevTXs m).
Proof.
  cbv zeta. unfold client.Update.
  destruct (client.validTwoPartyUpdate up (idx m)) as [e0 |].
  { left. split; [reflexivity |]. cbn [client.ended client.machine_now].
    intros err H. simplify_eq. split; [discriminate | left; reflexivity]. }
  destruct (Update Equals Valid equalSum AppValidTransition _ _ m)
    as [[e1 |] m1 sent1 | m1] eqn:Hu.
  - left. cbn [client.trace client.ended client.machine_now].
    rewrite !sent_messages_app, sent_messages_notes. split; [reflexivity |].
    intros err H. simplify_eq. split; [discriminate |].
    left. eapply machine_Update_fails. exact Hu.
  - apply machine_Update_staged in Hu. destruct Hu as [Hact ->].
    destruct (Sig Sign _) as [[sig [e2 |]] m2 sent2 | m2] eqn:Hs.
    + apply Sig_fails in Hs. subst m2.
      destruct (Discard_after_staging m
                  {| TState := Some (client.State up); Sigs := replicate (N_of m) None |} Hact)
        as [sent3 ->].
      left. cbn [client.trace client.ended client.machine_now].
      rewrite !sent_messages_app, !sent_messages_notes. split; [reflexivity |].
      intros err H. simplify_eq. split; [discriminate |]. right. auto.
    + apply Sig_stores in Hs. destruct Hs as (Hp & Hpar & Hst & Hsl & Hc & Hpr).
      right. eexists. cbn [client.trace client.ended client.machine_now].
      rewrite !sent_messages_app, !sent_messages_notes.
      split; [reflexivity |]. split; [reflexivity |].
      cbn [client.ChannelID client.AccVersion client.AccSig].
      unfold ID_of. rewrite Hpar. auto 10.
    + left. cbn [client.trace client.ended client.machine_now].
      rewrite !sent_messages_app, sent_messages_notes. split; [reflexivity |].
      intros err H. discriminate H.
  - left. split; [reflexivity |]. intros err H. discriminate H.
Qed.

(** X18.  [Channel.Update] changes the machine only together with a send.
    Either it hands nothing to the connection, and then a return is an
    error and leaves the machine as it was found (when signing failed the
    staged update has been discarded again, which cannot fail, and the
    machine differs from the one found at most by an empty staging
    transaction); or it hands over exactly one message, an acceptance with
    the channel's id, the version of the proposed state and the own
    signature, returns what the send returned, and leaves the machine,
    which was in phase Acting, in phase Signing with the proposed state
    staged, the own signature in its slot and the current and the previous
    transactions as they were, whether or not the send failed. *)
Theorem Update_changes_machine_only_with_send (up : client.ChannelUpdate) (m : machine) :
  let r := client.Update Sign Equals Valid equalSum AppValidTransition send up m in
  (sent_messages (client.trace r) = [] /\
   (forall err, client.ended r = client.Return err ->
      err <> None /\
      (client.machine_now r = m \/
       phase m = Acting /\ client.machine_now r = with_stagingTX Transaction_zero m))) \/
  (exists acc,
     sent_messages (client.trace r) = [client.MsgUpdateAcc acc] /\
     client.ended r = client.Return (send (client.MsgUpdateAcc acc)) /\
     client.ChannelID acc = ID_of m /\
     client.AccVersion acc = Version (client.State up) /\
     phase m = Acting /\
     phase (client.machine_now r) = Signing /\
     TState (stagingTX (client.machine_now r)) = Some (client.State up) /\
     Sigs (stagingTX (client.machine_now r)) !! idx m = Some (client.AccSig acc) /\
     currentTX (client.machine_now r) = currentTX m /\
     prevTXs (client.machine_now r) = prevTXs m).
Proof. apply Update_outcomes. Qed.

(** X19.  What [Channel.Update] sends reaches the peer's controller of the
    same channel and no other: every message that it hands to the
    connection passes the predicate [forThisChannel] of a channel
    connection exactly when that connection was made for the id of the
    machine's channel. *)
Theorem Update_sends_to_own_channel (up : client.ChannelUpdate) (m : machine) :
  Forall (fun msg => forall cid,
            forThisChannel cid (ChannelMessage msg) = bool_decide (ID_of m = cid))
    (sent_messages
       (client.trace (client.Update Sign Equals Valid equalSum AppValidTransition send up m))).
Proof.
  destruct (Update_outcomes up m) as [[-> _] | (acc & -> & _ & Hid & _)].
  - constructor.
  - constructor; [| constructor]. intros cid. cbn [forThisChannel ChannelMsg_ID].
    rewrite Hid. reflexivity.
Qed.

End UpdateOutcomes.


Section ProposalProperties.

Import client proposal.

Variable ChannelProposal : Type.
Variable Valid : ChannelProposal -> option channel.error.
Variable SessID : ChannelProposal -> list Byte.byte.
Variable Send : Context_ -> ProposalMsg -> option channel.error.

Lemma proposal_calls_panic (side : ctxProposalAcc + ctxProposalRej -> option channel.error)
  (cs : list ProposalCall) (r : ProposalResponder) :
  pcalled r = true ->
  Forall (fun o => proceeds o = false) (calls (proposal_call side) cs r).
Proof.
  revert r. induction cs as [| c cs IH]; intros r Hr; cbn [calls]; constructor.
  - destruct c; cbn [proposal_call];
      unfold ProposalResponder_Accept, ProposalResponder_Reject, TrySet;
      rewrite Hr; reflexivity.
  - apply IH.
    destruct c; cbn [proposal_call];
      unfold ProposalResponder_Accept, ProposalResponder_Reject, TrySet;
      rewrite Hr; reflexivity.
Qed.

(** X20.  A proposal gets one answer.  [handleChannelProposal] starts the
    user's handler only for a proposal that is valid, and for an invalid
    one sends nothing.  For a valid one it sends at most one message to the
    peer, however often the handler calls the responder: the first call
    decides.  An [Accept] with a participant sends a [ChannelProposalAcc]
    with the session id of the proposal and the address of that
    participant, a [Reject] a [ChannelProposalRej] with the session id and
    the reason, each under the context of the call, and the call returns
    what sending returned; an [Accept] with a nil participant sends nothing
    and returns an error.  Every later call panics, and with a handler that
    never calls the function does not return. *)
Theorem proposal_gets_one_answer (prop : ChannelProposal) (handler : list ProposalCall) :
  let h := handleChannelProposal ChannelProposal Valid SessID Send prop handler in
  (Valid prop <> None ->
     started h = false /\ to_peer h = [] /\ responses h = [] /\ returned h = true) /\
  (Valid prop = None ->
     started h = true /\ length (to_peer h) <= 1 /\
     (handler = [] -> returned h = false /\ to_peer h = [] /\ responses h = []) /\
     (forall c rest, handler = c :: rest ->
        returned h = true /\
        (exists r' later,
           responses h
           = Responded (snd (answer ChannelProposal SessID Send prop (proposal_handed c))) r'
             :: later /\
           Forall (fun o => proceeds o = false) later) /\
        match c with
        | PAccept ctx {| Participant := None |} =>
            to_peer h = [] /\
            snd (answer ChannelProposal SessID Send prop (proposal_handed c))
            = Some (channel.New "nil Participant in ProposalAcc")
        | PAccept ctx {| Participant := Some account |} =>
            to_peer h = [(ctx, ChannelProposalAcc (SessID prop) (wallet.Address_of account))] /\
            snd (answer ChannelProposal SessID Send prop (proposal_handed c))
            = Send ctx (ChannelProposalAcc (SessID prop) (wallet.Address_of account))
        | PReject ctx reason =>
            to_peer h = [(ctx, ChannelProposalRej (SessID prop) reason)] /\
            snd (answer ChannelProposal SessID Send prop (proposal_handed c))
            = Send ctx (ChannelProposalRej (SessID prop) reason)
        end)).
Proof.
  cbv zeta. unfold handleChannelProposal.
  destruct (Valid prop) as [e |].
  - split; [intros _; auto | discriminate].
  - split; [intros H; contradiction |]. intros _.
    cbn [started to_peer responses returned].
    split; [reflexivity |].
    split.
    { destruct handler as [| [ctx [[a |]] | ctx reason] rest]; cbn; lia. }
    split; [intros ->; auto |].
    intros c rest ->. split; [reflexivity |].
    split.
    + cbn [calls].
      destruct c as [ctx res | ctx reason]; cbn [proposal_call proposal_handed];
        unfold ProposalResponder_Accept, ProposalResponder_Reject, newProposalResponder, TrySet;
        cbn [pcalled paccept preject negb responder_after];
        eexists _, _; (split; [reflexivity |]);
        apply proposal_calls_panic; reflexivity.
    + destruct c as [ctx [[a |]] | ctx reason]; cbn; auto.
Qed.

End ProposalProperties.


Section VerifyProperties.

Import ethereum.

Variable PublicKey : Type.
Variable Keccak256 : list (list Byte.byte) -> list Byte.byte.
Variable SigToPub : list Byte.byte -> list Byte.byte -> channel.error + PublicKey.
Variable PubkeyToAddress : PublicKey -> wallet.Address.
Variable Equals : wallet.Address -> wallet.Address -> bool.

Lemma copy_into_length (n : nat) (src : list Byte.byte) : length (copy_into n src) = n.
Proof.
  unfold copy_into. rewrite length_app, length_take, length_replicate. lia.
Qed.







End VerifyProperties.


Section TransferProperties.

Import roles.

Lemma to16_succ_mod2 (i : nat) : i < 2 -> to16 (i + 1) mod 2 = 1 - i.
Proof.
  intros H. destruct i as [| [| i]]; [reflexivity | reflexivity | lia].
Qed.

Lemma transferBal_distinct (state : State) (ourIdx : channel.Index) (amount : nat)
  (h : gmap nat Z) (ourBal otherBal : nat) (a b x : Z) (r1 r2 : list nat) :
  ourIdx < 2 ->
  OfParts state !! ourIdx = Some (ourBal :: r1) ->
  OfParts state !! (1 - ourIdx) = Some (otherBal :: r2) ->
  ourBal <> otherBal -> amount <> ourBal -> amount <> otherBal ->
  h !! ourBal = Some a -> h !! otherBal = Some b -> h !! amount = Some x ->
  transferBal state ourIdx amount h
  = Some ({| OfParts := OfParts state; Version := (Version state + 1) mod 2 ^ 64 |},
          <[ourBal := (a + - x)%Z]> (<[amount := (- x)%Z]> (<[otherBal := (b + x)%Z]> h))).
Proof.
  intros Hi Ho Hp Hne1 Hne2 Hne3 Ha Hb Hx.
  unfold transferBal. rewrite to16_succ_mod2 by exact Hi.
  rewrite Ho, Hp.
  change ((ourBal :: r1) !! 0) with (Some ourBal).
  change ((otherBal :: r2) !! 0) with (Some otherBal).
  cbv beta iota.
  assert (H1 : Add otherBal otherBal amount h = Some (<[otherBal := (b + x)%Z]> h)).
  { unfold Add. rewrite Hb, Hx. reflexivity. }
  rewrite H1.
  assert (H2 : Neg amount amount (<[otherBal := (b + x)%Z]> h)
               = Some (<[amount := (- x)%Z]> (<[otherBal := (b + x)%Z]> h))).
  { unfold Neg. rewrite lookup_insert_ne by congruence. rewrite Hx. reflexivity. }
  rewrite H2.
  assert (H3 : Add ourBal ourBal amount (<[amount := (- x)%Z]> (<[otherBal := (b + x)%Z]> h))
               = Some (<[ourBal := (a + - x)%Z]>
                         (<[amount := (- x)%Z]> (<[otherBal := (b + x)%Z]> h)))).
  { unfold Add. rewrite lookup_insert_ne by congruence.
    rewrite lookup_insert_ne by congruence. rewrite Ha.
    rewrite lookup_insert_eq. reflexivity. }
  rewrite H3. reflexivity.
Qed.

(** X22.  [transferBal] moves [amount] from the own balance to the other
    participant's, and negates the caller's amount.  For one of the two
    participants of a state whose two balances and the amount are three
    different numbers on the heap, the other balance grows by the amount,
    the own balance shrinks by it, so that their sum is as before; the
    version is incremented (modulo 2^64); every other number stays as it
    is; and the number that [amount] points to is left negated. *)
Theorem transferBal_moves_and_negates (state : State) (ourIdx : channel.Index) (amount : nat)
  (h : gmap nat Z) (ourBal otherBal : nat) (a b x : Z) (r1 r2 : list nat) :
  ourIdx < 2 ->
  OfParts state !! ourIdx = Some (ourBal :: r1) ->
  OfParts state !! (1 - ourIdx) = Some (otherBal :: r2) ->
  ourBal <> otherBal -> amount <> ourBal -> amount <> otherBal ->
  h !! ourBal = Some a -> h !! otherBal = Some b -> h !! amount = Some x ->
  exists state' h',
    transferBal state ourIdx amount h = Some (state', h') /\
    balance state' h' ourIdx = Some (a - x)%Z /\
    balance state' h' (1 - ourIdx) = Some (b + x)%Z /\
    h' !! amount = Some (- x)%Z /\
    OfParts state' = OfParts state /\
    Version state' = ((Version state + 1) mod 2 ^ 64)%N /\
    (forall l, l <> ourBal -> l <> otherBal -> l <> amount -> h' !! l = h !! l).
Proof.
  intros Hi Ho Hp Hne1 Hne2 Hne3 Ha Hb Hx.
  eexists _, _. split.
  { eapply transferBal_distinct; eassumption. }
  unfold balance. cbn [OfParts Version]. rewrite Ho, Hp.
  split; [rewrite lookup_insert_eq; f_equal; lia |].
  split.
  { rewrite lookup_insert_ne by congruence. rewrite lookup_insert_ne by congruence.
    rewrite lookup_insert_eq. reflexivity. }
  split.
  { rewrite lookup_insert_ne by congruence. rewrite lookup_insert_eq. reflexivity. }
  split; [reflexivity |]. split; [reflexivity |].
  intros l H1 H2 H3.
  rewrite !lookup_insert_ne by congruence. reflexivity.
Qed.

(** X23.  Because [transferBal] leaves the caller's amount negated, a
    second call with the same amount moves the funds back: after two
    calls, as the loops of the roles make them with the amount of their
    configuration, both balances and the amount are what they were at
    first, while the version has been incremented twice. *)
Theorem transferBal_twice_moves_back (state : State) (ourIdx : channel.Index) (amount : nat)
  (h : gmap nat Z) (ourBal otherBal : nat) (a b x : Z) (r1 r2 : list nat) :
  ourIdx < 2 ->
  OfParts state !! ourIdx = Some (ourBal :: r1) ->
  OfParts state !! (1 - ourIdx) = Some (otherBal :: r2) ->
  ourBal <> otherBal -> amount <> ourBal -> amount <> otherBal ->
  h !! ourBal = Some a -> h !! otherBal = Some b -> h !! amount = Some x ->
  exists state1 h1 state2 h2,
    transferBal state ourIdx amount h = Some (state1, h1) /\
    transferBal state1 ourIdx amount h1 = Some (state2, h2) /\
    balance state2 h2 ourIdx = Some a /\
    balance state2 h2 (1 - ourIdx) = Some b /\
    h2 !! amount = Some x /\
    Version state2 = ((((Version state + 1) mod 2 ^ 64) + 1) mod 2 ^ 64)%N.
Proof.
  intros Hi Ho Hp Hne1 Hne2 Hne3 Ha Hb Hx.
  eexists _, _, _, _. split.
  { eapply transferBal_distinct; eassumption. }
  split.
  { eapply transferBal_distinct; cbn [OfParts]; try eassumption.
    - apply lookup_insert_eq.
    - rewrite lookup_insert_ne by congruence. rewrite lookup_insert_ne by congruence.
      apply lookup_insert_eq.
    - rewrite lookup_insert_ne by congruence. apply lookup_insert_eq. }
  unfold balance. cbn [OfParts Version]. rewrite Ho, Hp.
  split; [rewrite lookup_insert_eq; f_equal; lia |].
  split.
  { rewrite lookup_insert_ne by congruence. rewrite lookup_insert_ne by congruence.
    rewrite lookup_insert_eq. f_equal. lia. }
  split.
  { rewrite lookup_insert_ne by congruence. rewrite lookup_insert_eq. f_equal. lia. }
  reflexivity.
Qed.

End TransferProperties.

Lemma transferBal_moves_and_negates_witness :
  exists state' h',
    roles.transferBal scenario.two_party 0 3 scenario.heap = Some (state', h') /\
    roles.balance state' h' 0 = Some (100 - 10)%Z /\
    roles.balance state' h' (1 - 0) = Some (100 + 10)%Z /\
    h' !! 3 = Some (- 10)%Z.
Proof.
  destruct (transferBal_moves_and_negates scenario.two_party 0 3 scenario.heap
              1 2 100 100 10 [] [])
    as (state' & h' & H & Hour & Hother & Hamount & _);
    try reflexivity; try lia.
  exists state', h'. auto.
Defined.

Lemma transferBal_twice_moves_back_witness :
  exists state1 h1 state2 h2,
    roles.transferBal scenario.two_party 0 3 scenario.heap = Some (state1, h1) /\
    roles.transferBal state1 0 3 h1 = Some (state2, h2) /\
    roles.balance state2 h2 0 = Some 100%Z /\
    roles.balance state2 h2 (1 - 0) = Some 100%Z /\
    h2 !! 3 = Some 10%Z.
Proof.
  destruct (transferBal_twice_moves_back scenario.two_party 0 3 scenario.heap
              1 2 100 100 10 [] [])
    as (state1 & h1 & state2 & h2 & H1 & H2 & Hour & Hother & Hamount & _);
    try reflexivity; try lia.
  exists state1, h1, state2, h2. auto.
Defined.


Section MailboxProperties.

Import peer mailbox.

Variables Peer Msg : Type.

Lemma put_all_open (ts : list (msgTuple Peer Msg)) (r : Receiver Peer Msg) :
  closed r = false ->
  length (buf (msgs r)) + length ts <= cap (msgs r) ->
  put_all ts r = Some (with_buf (buf (msgs r) ++ ts) r).
Proof.
  revert r. induction ts as [| t ts IH]; intros r Hc Hlen.
  - cbn [put_all]. rewrite app_nil_r. destruct r as [[q c] cl]. reflexivity.
  - cbn [put_all length] in *. unfold Put. rewrite Hc.
    destruct (decide (length (buf (msgs r)) < cap (msgs r))) as [_ | Hge]; [| lia].
    cbn [app]. rewrite IH.
    + cbn [with_buf msgs buf cap closed]. rewrite <- app_assoc.
      destruct t as [p m]. reflexivity.
    + exact Hc.
    + cbn [with_buf msgs buf cap]. rewrite length_app. cbn [length]. lia.
Qed.

Lemma next_all_open (q : list (msgTuple Peer Msg)) (r : Receiver Peer Msg) :
  closed r = false ->
  next_all (length q) (with_buf q r) = Some (map Some q, with_buf [] r).
Proof.
  intros Hc. induction q as [| t q IH]; [reflexivity |].
  cbn [next_all length].
  assert (Hn : Next false (with_buf (t :: q) r) false (with_buf (t :: q) r)
               = [(Some t, with_buf q r)]).
  { unfold Next, ready, with_buf. cbn [closed msgs buf cap]. rewrite Hc.
    cbn [app map take_case msgs buf]. reflexivity. }
  rewrite Hn, IH. reflexivity.
Qed.

(** X24.  A receiver hands messages on in the order in which they were
    put, and loses none while it is open: on an open receiver with room
    for them, a series of [Put]s completes and leaves the messages queued
    behind those that were there; as many [Next]s as messages are queued,
    under a context that is not done, then return them oldest first and
    leave the queue empty, where a further [Next] blocks; and a [Put] on
    an open receiver that is filled up to its capacity blocks. *)
Theorem Receiver_is_first_in_first_out (ts : list (msgTuple Peer Msg))
  (r : Receiver Peer Msg) :
  closed r = false ->
  length (buf (msgs r)) + length ts <= cap (msgs r) ->
  exists r',
    put_all ts r = Some r' /\
    buf (msgs r') = buf (msgs r) ++ ts /\
    next_all (length (buf (msgs r) ++ ts)) r'
    = Some (map Some (buf (msgs r) ++ ts), with_buf [] r) /\
    Next false (with_buf [] r) false (with_buf [] r) = [] /\
    (length (buf (msgs r')) = cap (msgs r') -> forall p m, Put p m r' = []).
Proof.
  intros Hc Hlen. exists (with_buf (buf (msgs r) ++ ts) r).
  split; [apply put_all_open; assumption |].
  split; [reflexivity |].
  split; [apply next_all_open; exact Hc |].
  split.
  - unfold Next, ready. cbn [with_buf closed msgs buf]. rewrite Hc. reflexivity.
  - intros Hfull p m. unfold Put. cbn [with_buf closed msgs buf cap] in *. rewrite Hc.
    destruct (decide _) as [Hlt | _]; [lia | reflexivity].
Qed.

End MailboxProperties.

Lemma Receiver_is_first_in_first_out_witness :
  peer.closed sim.queued = false /\
  length (peer.buf (peer.msgs sim.queued))
  + length [ {| peer.tuple_Peer := 8; peer.tuple_Msg := "third"%string |} ]
  <= peer.cap (peer.msgs sim.queued) /\
  exists r',
    mailbox.put_all [ {| peer.tuple_Peer := 8; peer.tuple_Msg := "third"%string |} ] sim.queued
    = Some r' /\
    mailbox.next_all 3 r'
    = Some ([ Some {| peer.tuple_Peer := 7; peer.tuple_Msg := "first"%string |};
              Some {| peer.tuple_Peer := 7; peer.tuple_Msg := "second"%string |};
              Some {| peer.tuple_Peer := 8; peer.tuple_Msg := "third"%string |} ],
            sim.idle).
Proof.
  assert (H1 : peer.closed sim.queued = false) by reflexivity.
  assert (H2 : length (peer.buf (peer.msgs sim.queued))
               + length [ {| peer.tuple_Peer := 8; peer.tuple_Msg := "third"%string |} ]
               <= peer.cap (peer.msgs sim.queued)) by (vm_compute; lia).
  split; [exact H1 |]. split; [exact H2 |].
  destruct (Receiver_is_first_in_first_out nat string
              [ {| peer.tuple_Peer := 8; peer.tuple_Msg := "third"%string |} ]
              sim.queued H1 H2) as (r' & Hput & _ & Hnext & _).
  exists r'. split; [exact Hput | exact Hnext].
Defined.


Section LoopProperties.

Import serial.

Variable World : Type.

Lemma each_from_spec (values : list (Coder World)) (i : nat) (w : World) :
  match each_from i values w with
  | (None, w') => pass values w = Some w'
  | (Some (j, err), w') =>
      exists k v wk,
        j = i + k /\ values !! k = Some v /\
        pass (take k values) w = Some wk /\ v wk = (Some err, w')
  end.
Proof.
  revert i w. induction values as [| v rest IH]; intros i w; cbn [each_from pass].
  - reflexivity.
  - destruct (v w) as [[err |] w1] eqn:Hv.
    + exists 0, v, w. split; [lia |]. split; [reflexivity |]. split; [reflexivity | exact Hv].
    + specialize (IH (S i) w1).
      destruct (each_from (S i) rest w1) as [[[j err] |] w'].
      * destruct IH as (k & v' & wk & -> & Hk & Hp & Hf).
        exists (S k), v', wk. split; [lia |]. split; [exact Hk |].
        split; [| exact Hf]. cbn [take pass]. rewrite Hv. exact Hp.
      * exact IH.
Qed.

(** X25.  [Encode] and [Decode] of several objects stop at the first one
    that fails.  They return nil exactly when every object has succeeded,
    each on what its predecessor left of the stream; and otherwise the
    error that they wrap is the error of the object at the first index at
    which one fails, after the objects before it have succeeded, and the
    stream is left as that object left it: no later object is encoded or
    decoded. *)
Theorem Encode_Decode_stop_at_first_failure (values : list (Coder World)) (w : World) :
  (forall w', Encode values w = (None, w') <-> pass values w = Some w') /\
  (forall w', Decode values w = (None, w') <-> pass values w = Some w') /\
  (forall e w', Encode values w = (Some e, w') \/ Decode values w = (Some e, w') ->
     exists k v wk err,
       values !! k = Some v /\
       pass (take k values) w = Some wk /\
       v wk = (Some err, w') /\
       pass (take (S k) values) w = None /\
       each_from 0 values w = (Some (k, err), w') /\
       (e = channel.WithMessage err "failed to encode %dth object (%T)" \/
        e = channel.WithMessage err "failed to decode %dth object (%T)")).
Proof.
  pose proof (each_from_spec values 0 w) as H.
  unfold Encode, Decode.
  destruct (each_from 0 values w) as [[[j err] |] w1]; cbn [report].
  - destruct H as (k & v & wk & -> & Hk & Hp & Hf).
    assert (Hnone : pass values w = None /\ pass (take (S k) values) w = None).
    { clear -Hk Hp Hf. revert w k Hk Hp.
      induction values as [| v0 rest IH]; intros w k Hk Hp; [discriminate Hk |].
      destruct k as [| k]; cbn [take pass] in *.
      - cbn in Hk. simplify_eq. rewrite Hf. auto.
      - change ((v0 :: rest) !! S k) with (rest !! k) in Hk.
        destruct (v0 w) as [[e0 |] w0]; [discriminate Hp |].
        apply (IH w0 k); assumption. }
    destruct Hnone as [Hall Hk1].
    split; [| split].
    + intros w'. split; [discriminate | congruence].
    + intros w'. split; [discriminate | congruence].
    + intros e w' [He | He]; simplify_eq; exists k, v, wk, err; auto 10.
  - split; [| split].
    + intros w'. split; intros Hw; congruence.
    + intros w'. split; intros Hw; congruence.
    + intros e w' [He | He]; discriminate He.
Qed.

End LoopProperties.
